(** * Primordial spectra (CLASS, [source/primordial.c]) and energy injection
      (HyRec 2017, [hyrec_2017/energy_injection.c]): a shallow embedding.

    The C sources compute with [double].  Throughout this development a
    [double] is idealised as a real number of [R]: rounding, infinities and
    NaN are not modelled.  Statements are therefore about the exact
    arithmetic the code denotes; the concrete inputs used in examples are
    chosen so that no division by zero, logarithm of a non-positive number or
    square root of a negative number is ever evaluated on them.

    C arrays are lists indexed by [nat] (stdpp's [!!!] and [<[i:=v]>]);
    [int] values that are compared or counted are in [Z]; enumerations are
    inductive types with the constructors' C names. *)

From Stdlib Require Import Reals Lra Lia ZArith Psatz.
From stdpp Require Import base list.

Open Scope R_scope.

#[global] Instance R_inhabited : Inhabited R := populate 0.

(** ** Status codes

    CLASS functions return [_SUCCESS_] or [_FAILURE_] and leave a message in
    [error_message]; the message formatting is dropped and the place that
    raised the failure is kept as an [error] tag.  [Timeout] is not a value of
    the C program: it is what a fuel-bounded model of a [while] loop returns
    when its fuel is exhausted. *)

Inductive error : Type :=
| NonPositiveK            (* class_test(input<=0.) in primordial_spectrum_at_k *)
| OutOfRange              (* k out of range for a non analytic spectrum      *)
| SplineFailure           (* array_interpolate_spline failed                 *)
| InconsistentAmplitude   (* one_amplitude <= 0 in analytic_spectrum_init    *)
| InconsistentCorrelation (* one_correlation outside [-1,1]                  *)
| UnknownPotential        (* default branch of primordial_inflation_potential *)
| UnknownSpecType         (* default branches on primordial_spec_type        *)
| NegativePotential       (* V <= 0 in check_potential                       *)
| PositiveSlope           (* dV >= 0 in check_potential                      *)
| UnphysicalHubble        (* H < 0 in check_hubble                           *)
| IncreasingHubble        (* dH > 0 in check_hubble                          *)
| EndInflationTarget      (* _end_inflation_ without inflation_V_end         *)
| StepTooSmall            (* relative change in time below machine precision *)
| IntegratorFailure       (* generic_integrator failed                       *)
| SlowRollViolated        (* epsilon crosses 1 while check_epsilon is set    *)
| AttractorNotFound       (* counter >= primordial_inflation_attractor_maxit *)
| NegativeSpectrum.       (* curvature <= 0 or tensors <= 0                  *)

Inductive result (A : Type) : Type :=
| Ok (a : A)
| Err (e : error)
| Timeout.

Arguments Ok {A} a.
Arguments Err {A} e.
Arguments Timeout {A}.

#[global] Instance result_ret : MRet result := fun A a => Ok a.

#[global] Instance result_bind : MBind result := fun A B k m =>
  match m with
  | Ok a => k a
  | Err e => Err e
  | Timeout => Timeout
  end.

(** Comparisons of [double] values are decided in [R]. *)
#[global] Instance R_eq_dec : EqDecision R := Req_dec_T.
#[global] Instance Rlt_rel_dec : RelDecision Rlt := Rlt_dec.
#[global] Instance Rle_rel_dec : RelDecision Rle := Rle_dec.
#[global] Instance Rgt_rel_dec : RelDecision Rgt := Rgt_dec.
#[global] Instance Rge_rel_dec : RelDecision Rge := Rge_dec.

(** [class_test(cond, ...)]: fail when the condition holds. *)
Definition class_test (cond : bool) (e : error) : result unit :=
  if cond then Err e else Ok tt.

(** C's [pow(x, y)] for a non integer exponent [y]: [exp (y ln x)] on a
    positive base and [0] at base [0] (the exponents used are positive
    there).  A negative base is a domain error in C and is not modelled.
    Integer exponents are written with [^] instead. *)
Definition c_pow (x y : R) : R :=
  if decide (0 < x) then Rpower x y else 0.

Definition MIN (a b : R) : R := if decide (a < b) then a else b.
Definition MAX (a b : R) : R := if decide (b < a) then a else b.

(** * Energy injection (hyrec_2017/energy_injection.c) *)

Module EnergyInjection.

(** Modelled from the spec: [square] and [cube] are helpers of hyrectools,
    which is not part of the sources at hand; they are the second and third
    power of their argument. *)
Definition square (x : R) : R := x * x.
Definition cube (x : R) : R := x * x * x.

(** The fields of [INJ_PARAMS] that energy_injection.c reads. *)
Record INJ_PARAMS : Type := {
  odmh2 : R;
  pann : R;
  pann_halo : R;
  ann_z : R;
  ann_zmax : R;
  ann_zmin : R;
  ann_var : R;
  ann_z_halo : R;
  on_the_spot : Z;
  Mpbh : R;
  fpbh : R;
  coll_ion : Z
}.

Definition dEdtdV_DM_ann (z : R) (params : INJ_PARAMS) : R :=
  let var := ann_var params in
  let zp1 := z + 1 in
  let zp1_ann := ann_z params + 1 in
  let zp1_max := ann_zmax params + 1 in
  let zp1_halo := ann_z_halo params + 1 in
  let zp1_min := ann_zmin params + 1 in
  let pann_tot := 0 in
  let pann_tot :=
    if decide (pann params > 0) then
      let pann_tot :=
        if decide (zp1 > zp1_max) then
          pann params * exp (- var * square (ln (zp1_ann / zp1_max)))
        else if decide (zp1 > zp1_min) then
          pann params * exp (var * (- square (ln (zp1_ann / zp1_max))
                                    + square (ln (zp1 / zp1_max))))
        else
          pann params * exp (var * (- square (ln (zp1_ann / zp1_max))
                                    + square (ln (zp1_min / zp1_max)))) in
      pann_tot * (zp1 * zp1 * zp1)
    else pann_tot in
  let pann_tot :=
    if decide (pann_halo params > 0) then
      let u_min := zp1 / zp1_halo in
      let erfc := / ((1 + 0.278393 * u_min + 0.230389 * u_min * u_min
                      + 0.000972 * u_min * u_min * u_min
                      + 0.078108 * u_min * u_min * u_min * u_min) ^ 4) in
      pann_tot + pann_halo params * erfc
    else pann_tot in
  square (10537.4 * odmh2 params) * zp1 * zp1 * zp1 * 1e-9 * pann_tot.

(** Dimensionless Compton drag rate. *)
Definition beta_pbh (Mpbh z xe Teff : R) : R :=
  let a := 1 / (1 + z) in
  let vB := 9.09e3 * sqrt ((1 + xe) * Teff) in
  let tB := 1.33e26 * Mpbh / vB / vB / vB in
  7.45e-24 * xe / a / a / a / a * tB.

(** Dimensionless Compton cooling rate. *)
Definition gamma_pbh (Mpbh z xe Teff : R) : R :=
  3.67e3 / (1 + xe) * beta_pbh Mpbh z xe Teff.

(** Dimensionless accretion rate. *)
Definition lambda_pbh (Mpbh z xe Teff : R) : R :=
  let beta := beta_pbh Mpbh z xe Teff in
  let gamma := gamma_pbh Mpbh z xe Teff in
  let lam_ricotti :=
    exp (4.5 / (3 + c_pow beta 0.75)) / square (sqrt (1 + beta) + 1) in
  let lam_ad := c_pow 0.6 1.5 / 4 in
  let lam_iso := exp 1.5 / 4 in
  let lam_nodrag :=
    lam_ad + (lam_iso - lam_ad)
             * c_pow (gamma * gamma / (88 + gamma * gamma)) 0.22 in
  lam_ricotti * lam_nodrag / lam_iso.

(** Accretion rate (g/s). *)
Definition Mdot_pbh (Mpbh z xe Teff : R) : R :=
  let vB := 9.09e3 * sqrt ((1 + xe) * Teff) in
  9.15e22 * Mpbh * Mpbh * cube ((1 + z) / vB) * lambda_pbh Mpbh z xe Teff.

(** Temperature of the flow near the Schwarzschild radius over m_e c^2. *)
Definition TS_over_me_pbh (Mpbh z xe Teff : R) (coll_ion : Z) : R :=
  let gamma := gamma_pbh Mpbh z xe Teff in
  let tau := 1.5 / (5 + c_pow gamma (2 / 3)) in
  let YS := 2 / (1 + xe) * tau / 4 * c_pow (1 - 2.5 * tau) (1 / 3) * 1836 in
  let YS := if decide (coll_ion = 1%Z) then YS * ((1 + xe) / 2) ^ 8 else YS in
  YS / c_pow (1 + YS / 0.27) (1 / 3).

(** Radiative efficiency divided by mdot. *)
Definition eps_over_mdot_pbh (Mpbh z xe Teff : R) (coll_ion : Z) : R :=
  let X := TS_over_me_pbh Mpbh z xe Teff coll_ion in
  let G :=
    if decide (X < 1) then 4 / PI * sqrt (2 / PI / X) * (1 + 5.5 * c_pow X 1.25)
    else 13.5 / PI * (ln (2 * X * 0.56146 + 0.08) + 4 / 3) in
  X / 1836 / 137 * G.

(** Luminosity of a single PBH (erg/s). *)
Definition L_pbh (Mpbh z xe Teff : R) (coll_ion : Z) : R :=
  let Mdot := Mdot_pbh Mpbh z xe Teff in
  let mdot := Mdot / (1.4e17 * Mpbh) in
  let eff := mdot * eps_over_mdot_pbh Mpbh z xe Teff coll_ion in
  eff * Mdot * 9e20.

(** Very approximate rms relative velocity (cm/s). *)
Definition vbc_rms_func (z : R) : R :=
  if decide (z < 1e3) then 3e6 * (1 + z) / 1e3 else 3e6.

(** One turn of the quadrature loop of [L_pbh_av]; the accumulator is
    [(num, denom)]. *)
Definition L_pbh_av_step (Mpbh z xe Tgas : R) (coll_ion : Z)
    (vbc_rms vbc_max : R) (Nvbc : nat) (acc : R * R) (i : nat) : R * R :=
  let '(num, denom) := acc in
  let vbc := INR i * vbc_max / (INR Nvbc - 1) in
  let x := vbc / vbc_rms in
  let P_vbc := x * x * exp (- 1.5 * x * x) in
  let denom := denom + P_vbc in
  let Teff := Tgas + 1.21e-8 * vbc * vbc / (1 + xe) in
  let num := num + L_pbh Mpbh z xe Teff coll_ion * P_vbc in
  (num, denom).

(** Average of the PBH luminosity over the relative velocities. *)
Definition L_pbh_av (Mpbh z xe Tgas : R) (coll_ion : Z) : R :=
  let Nvbc := 50%nat in
  let vbc_rms := vbc_rms_func z in
  let vbc_max := 5 * vbc_rms in
  let '(num, denom) :=
    fold_left (L_pbh_av_step Mpbh z xe Tgas coll_ion vbc_rms vbc_max Nvbc)
              (seq 0 Nvbc) (0, 0) in
  num / denom.

(** Rate of energy injection per unit volume due to PBHs. *)
Definition dEdtdV_pbh (fpbh Mpbh z xe Tgas : R) (coll_ion : Z) : R :=
  let xe_used := if decide (xe < 1) then xe else 1 in
  if decide (fpbh > 0) then
    7.07e-52 / Mpbh * cube (1 + z) * fpbh * L_pbh_av Mpbh z xe_used Tgas coll_ion
  else 0.

(** Total energy injection rate per unit volume. *)
Definition dEdtdV_inj (z xe Tgas : R) (params : INJ_PARAMS) : R :=
  dEdtdV_DM_ann z params
  + dEdtdV_pbh (fpbh params) (Mpbh params) z xe Tgas (coll_ion params).

(** Energy deposition rate per unit volume.  The C function updates
    [*dEdtdV_dep] in place: the argument [dEdtdV_dep] is the value stored
    before the call and the result is the value stored after it. *)
Definition update_dEdtdV_dep (z_out dlna xe Tgas nH H : R)
    (params : INJ_PARAMS) (dEdtdV_dep : R) : R :=
  let inj := dEdtdV_inj z_out xe Tgas params in
  if decide (on_the_spot params = 1%Z) then inj
  else (dEdtdV_dep * exp (- 7 * dlna) + 2e-15 * dlna * nH / H * inj)
       / (1 + 2e-15 * dlna * nH / H).

Definition chi_heat (xe : R) : R := (1 + 2 * xe) / 3.
Definition chi_ion (xe : R) : R := (1 - xe) / 3.
Definition chi_exc (xe : R) : R := 1 - chi_ion xe - chi_heat xe.

End EnergyInjection.

(** * Primordial spectra (source/primordial.c) *)

Module Primordial.

(** ** Enumerations *)

Inductive primordial_spectrum_type : Type :=
| analytic_Pk | inflation_V | inflation_H | inflation_V_end | external_Pk.

Inductive linear_or_logarithmic : Type := linear | logarithmic.

(** [unknown_shape] stands for any value of the enumeration other than the
    two that primordial.c names; it reaches the [default] branch. *)
Inductive potential_shape : Type := polynomial | natural | unknown_shape.

Inductive target_quantity : Type := _aH_ | _phi_ | _end_inflation_.

Inductive integration_direction : Type := backward | forward.

Inductive time_definition : Type := conformal | proper.

#[global] Instance primordial_spectrum_type_eq_dec :
  EqDecision primordial_spectrum_type.
Proof. solve_decision. Defined.

#[global] Instance linear_or_logarithmic_eq_dec :
  EqDecision linear_or_logarithmic.
Proof. solve_decision. Defined.

#[global] Instance integration_direction_eq_dec :
  EqDecision integration_direction.
Proof. solve_decision. Defined.

(** ** Structures

    [struct primordial] is split by role: the input parameters of the
    analytic spectrum, the input parameters of the inflation simulator and
    the indices of the inflation state vector are records of their own,
    reached from [primordial] through coercions, so that [A_s ppm] reads as
    [ppm->A_s]. *)

Record analytic_parameters : Type := {
  A_s : R; n_s : R; alpha_s : R;
  f_bi : R; n_bi : R; alpha_bi : R;
  f_cdi : R; n_cdi : R; alpha_cdi : R;
  f_nid : R; n_nid : R; alpha_nid : R;
  f_niv : R; n_niv : R; alpha_niv : R;
  c_ad_bi : R; n_ad_bi : R; alpha_ad_bi : R;
  c_ad_cdi : R; n_ad_cdi : R; alpha_ad_cdi : R;
  c_ad_nid : R; n_ad_nid : R; alpha_ad_nid : R;
  c_ad_niv : R; n_ad_niv : R; alpha_ad_niv : R;
  c_bi_cdi : R; n_bi_cdi : R; alpha_bi_cdi : R;
  c_bi_nid : R; n_bi_nid : R; alpha_bi_nid : R;
  c_bi_niv : R; n_bi_niv : R; alpha_bi_niv : R;
  c_cdi_nid : R; n_cdi_nid : R; alpha_cdi_nid : R;
  c_cdi_niv : R; n_cdi_niv : R; alpha_cdi_niv : R;
  c_nid_niv : R; n_nid_niv : R; alpha_nid_niv : R;
  r : R; n_t : R; alpha_t : R
}.

Record inflation_parameters : Type := {
  potential : potential_shape;
  V0 : R; V1 : R; V2 : R; V3 : R; V4 : R;
  H0 : R; H1 : R; H2 : R; H3 : R; H4 : R;
  phi_pivot : R
}.

Record inflation_indices : Type := {
  index_in_a : nat;
  index_in_phi : nat;
  index_in_dphi : nat;
  in_bg_size : nat;
  index_in_ksi_re : nat;
  index_in_ksi_im : nat;
  index_in_dksi_re : nat;
  index_in_dksi_im : nat;
  index_in_ah_re : nat;
  index_in_ah_im : nat;
  index_in_dah_re : nat;
  index_in_dah_im : nat;
  in_size : nat
}.

Record primordial : Type := {
  primordial_spec_type : primordial_spectrum_type;
  k_pivot : R;
  analytic_input :> analytic_parameters;
  inflation_input :> inflation_parameters;
  md_size : nat;
  ic_size : list nat;
  ic_ic_size : list nat;
  lnk_size : nat;
  lnk : list R;
  lnpk : list (list R);
  ddlnpk : list (list R);
  is_non_zero : list (list bool);
  amplitude : list (list R);
  tilt : list (list R);
  running : list (list R);
  indices :> inflation_indices
}.

(** The fields of [struct perturbs] that primordial.c reads. *)
Record perturbs : Type := {
  has_scalars : bool;
  has_tensors : bool;
  index_md_scalars : nat;
  index_md_tensors : nat;
  has_ad : bool; has_bi : bool; has_cdi : bool; has_nid : bool; has_niv : bool;
  index_ic_ad : nat; index_ic_bi : nat; index_ic_cdi : nat;
  index_ic_nid : nat; index_ic_niv : nat; index_ic_ten : nat
}.

(** The fields of [struct precision] that primordial.c reads. *)
Record precision : Type := {
  primordial_inflation_ratio_min : R;
  primordial_inflation_ratio_max : R;
  primordial_inflation_attractor_maxit : Z;
  primordial_inflation_bg_stepsize : R;
  primordial_inflation_pt_stepsize : R;
  primordial_inflation_tol_integration : R;
  primordial_inflation_tol_curvature : R;
  smallest_allowed_variation : R
}.

(** ** Helpers from headers *)

(** Modelled from the spec: the macro [index_symmetric_matrix] of common.h,
    which is not under src.  The spec describes a symmetric upper-triangular
    packing in which the pair (i,j) with i<=j of an N x N matrix has a unique
    linear offset; this is the row-major packing of the upper triangle. *)
Definition index_symmetric_matrix (i1 i2 N : nat) : nat :=
  if decide (i1 <= i2)%nat
  then (i2 + N * i1 - (i1 * (i1 + 1)) / 2)%nat
  else (i1 + N * i2 - (i2 * (i2 + 1)) / 2)%nat.

(** Modelled from the spec: the macros [_scalars_] and [_tensors_] of
    perturbations.h, which is not under src.  The perturbation context
    supplies the flags [has_scalars], [has_tensors] and the mode indices; the
    macros test that the current mode index is the scalar (tensor) one. *)
Definition _scalars_ (ppt : perturbs) (index_md : nat) : bool :=
  has_scalars ppt && (index_md =? index_md_scalars ppt)%nat.
Definition _tensors_ (ppt : perturbs) (index_md : nat) : bool :=
  has_tensors ppt && (index_md =? index_md_tensors ppt)%nat.

(** Modelled from the spec: the constant [_HUGE_] of common.h, which is not
    under src; a number larger than any spectrum value. *)
Definition _HUGE_ : R := 1e99.

(** A two-dimensional C array [t[index_md][i]]. *)
Definition read2 {A : Type} `{Inhabited A} (t : list (list A)) (m i : nat) : A :=
  (t !!! m) !!! i.
Definition write2 {A : Type} (t : list (list A)) (m i : nat) (v : A)
  : list (list A) :=
  <[m := <[i := v]> (t !!! m)]> t.

(** The pairs visited by [for (i1 = 0; i1 < N; i1++) for (i2 = i1; i2 < N;
    i2++)], in the order of the loop nest, and those visited when the inner
    loop starts at [i1 + 1]. *)
Definition ic_pairs (N : nat) : list (nat * nat) :=
  i1 ← seq 0 N; (fun i2 => (i1, i2)) <$> seq i1 (N - i1).
Definition ic_pairs_offdiag (N : nat) : list (nat * nat) :=
  i1 ← seq 0 N; (fun i2 => (i1, i2)) <$> seq (i1 + 1) (N - (i1 + 1)).

(** ** The analytic spectrum *)

(** [primordial_analytic_spectrum] always returns [_SUCCESS_]; the model
    returns the value written to [*pk]. *)
Definition primordial_analytic_spectrum (ppm : primordial)
    (index_md index_ic1_ic2 : nat) (k : R) : R :=
  if read2 (is_non_zero ppm) index_md index_ic1_ic2 then
    read2 (amplitude ppm) index_md index_ic1_ic2
    * exp ((read2 (tilt ppm) index_md index_ic1_ic2 - 1) * ln (k / k_pivot ppm)
           + 0.5 * read2 (running ppm) index_md index_ic1_ic2
             * (ln (k / k_pivot ppm)) ^ 2)
  else 0.

(** Local variables of [primordial_analytic_spectrum_init] that are carried
    from one loop turn to the next, and the four tables the function fills. *)
Record analytic_state : Type := {
  one_amplitude : R;
  one_tilt : R;
  one_running : R;
  one_correlation : R;
  st_is_non_zero : list (list bool);
  st_amplitude : list (list R);
  st_tilt : list (list R);
  st_running : list (list R)
}.

Definition set_diag (a t rn : R) (st : analytic_state) : analytic_state :=
  {| one_amplitude := a; one_tilt := t; one_running := rn;
     one_correlation := one_correlation st;
     st_is_non_zero := st_is_non_zero st; st_amplitude := st_amplitude st;
     st_tilt := st_tilt st; st_running := st_running st |}.

Definition set_cross (c t rn : R) (st : analytic_state) : analytic_state :=
  {| one_amplitude := one_amplitude st; one_tilt := t; one_running := rn;
     one_correlation := c;
     st_is_non_zero := st_is_non_zero st; st_amplitude := st_amplitude st;
     st_tilt := st_tilt st; st_running := st_running st |}.

Definition store (index_md i : nat) (nz : bool) (a t rn : R)
    (st : analytic_state) : analytic_state :=
  {| one_amplitude := one_amplitude st; one_tilt := one_tilt st;
     one_running := one_running st; one_correlation := one_correlation st;
     st_is_non_zero := write2 (st_is_non_zero st) index_md i nz;
     st_amplitude := write2 (st_amplitude st) index_md i a;
     st_tilt := write2 (st_tilt st) index_md i t;
     st_running := write2 (st_running st) index_md i rn |}.

(** The assignments to [one_amplitude], [one_tilt], [one_running] in the
    loop over diagonal coefficients. *)
Definition diag_select (ppt : perturbs) (ppm : primordial)
    (index_md index_ic1 : nat) (st : analytic_state) : analytic_state :=
  let st :=
    if _scalars_ ppt index_md then
      let st := if has_ad ppt && (index_ic1 =? index_ic_ad ppt)%nat
                then set_diag (A_s ppm) (n_s ppm) (alpha_s ppm) st else st in
      let st := if has_bi ppt && (index_ic1 =? index_ic_bi ppt)%nat
                then set_diag (A_s ppm * f_bi ppm * f_bi ppm)
                              (n_bi ppm) (alpha_bi ppm) st else st in
      let st := if has_cdi ppt && (index_ic1 =? index_ic_cdi ppt)%nat
                then set_diag (A_s ppm * f_cdi ppm * f_cdi ppm)
                              (n_cdi ppm) (alpha_cdi ppm) st else st in
      let st := if has_nid ppt && (index_ic1 =? index_ic_nid ppt)%nat
                then set_diag (A_s ppm * f_nid ppm * f_nid ppm)
                              (n_nid ppm) (alpha_nid ppm) st else st in
      let st := if has_niv ppt && (index_ic1 =? index_ic_niv ppt)%nat
                then set_diag (A_s ppm * f_niv ppm * f_niv ppm)
                              (n_niv ppm) (alpha_niv ppm) st else st in
      st
    else st in
  if _tensors_ ppt index_md then
    if (index_ic1 =? index_ic_ten ppt)%nat
    then set_diag (A_s ppm * r ppm) (n_t ppm + 1) (alpha_t ppm) st else st
  else st.

(** One turn of the loop over diagonal coefficients. *)
Definition diag_step (ppt : perturbs) (ppm : primordial) (index_md : nat)
    (st : analytic_state) (index_ic1 : nat) : result analytic_state :=
  let st := diag_select ppt ppm index_md index_ic1 st in
  _ ← class_test (bool_decide (one_amplitude st <= 0)) InconsistentAmplitude;
  let index_ic1_ic2 :=
    index_symmetric_matrix index_ic1 index_ic1 (ic_size ppm !!! index_md) in
  Ok (store index_md index_ic1_ic2 true
            (one_amplitude st) (one_tilt st) (one_running st) st).

(** [pair_is a b i1 i2]: the test
    [((i1 == a) && (i2 == b)) || ((i2 == a) && (i1 == b))]. *)
Definition pair_is (a b i1 i2 : nat) : bool :=
  ((i1 =? a)%nat && (i2 =? b)%nat) || ((i2 =? a)%nat && (i1 =? b)%nat).

(** The assignments to [one_correlation], [one_tilt], [one_running] in the
    loop over non-diagonal coefficients.  The first test is written in the
    source with [index_ic1] in both halves of its second disjunct. *)
Definition cross_select (ppt : perturbs) (ppm : primordial)
    (index_md index_ic1 index_ic2 : nat) (st : analytic_state)
  : analytic_state :=
  if _scalars_ ppt index_md then
    let st :=
      if has_ad ppt && has_bi ppt &&
         (((index_ic1 =? index_ic_ad ppt)%nat && (index_ic2 =? index_ic_bi ppt)%nat)
          || ((index_ic1 =? index_ic_ad ppt)%nat && (index_ic1 =? index_ic_bi ppt)%nat))
      then set_cross (c_ad_bi ppm) (n_ad_bi ppm) (alpha_ad_bi ppm) st else st in
    let st :=
      if has_ad ppt && has_cdi ppt
         && pair_is (index_ic_ad ppt) (index_ic_cdi ppt) index_ic1 index_ic2
      then set_cross (c_ad_cdi ppm) (n_ad_cdi ppm) (alpha_ad_cdi ppm) st else st in
    let st :=
      if has_ad ppt && has_nid ppt
         && pair_is (index_ic_ad ppt) (index_ic_nid ppt) index_ic1 index_ic2
      then set_cross (c_ad_nid ppm) (n_ad_nid ppm) (alpha_ad_nid ppm) st else st in
    let st :=
      if has_ad ppt && has_niv ppt
         && pair_is (index_ic_ad ppt) (index_ic_niv ppt) index_ic1 index_ic2
      then set_cross (c_ad_niv ppm) (n_ad_niv ppm) (alpha_ad_niv ppm) st else st in
    let st :=
      if has_bi ppt && has_cdi ppt
         && pair_is (index_ic_bi ppt) (index_ic_cdi ppt) index_ic1 index_ic2
      then set_cross (c_bi_cdi ppm) (n_bi_cdi ppm) (alpha_bi_cdi ppm) st else st in
    let st :=
      if has_bi ppt && has_nid ppt
         && pair_is (index_ic_bi ppt) (index_ic_nid ppt) index_ic1 index_ic2
      then set_cross (c_bi_nid ppm) (n_bi_nid ppm) (alpha_bi_nid ppm) st else st in
    let st :=
      if has_bi ppt && has_niv ppt
         && pair_is (index_ic_bi ppt) (index_ic_niv ppt) index_ic1 index_ic2
      then set_cross (c_bi_niv ppm) (n_bi_niv ppm) (alpha_bi_niv ppm) st else st in
    let st :=
      if has_cdi ppt && has_nid ppt
         && pair_is (index_ic_cdi ppt) (index_ic_nid ppt) index_ic1 index_ic2
      then set_cross (c_cdi_nid ppm) (n_cdi_nid ppm) (alpha_cdi_nid ppm) st else st in
    let st :=
      if has_cdi ppt && has_niv ppt
         && pair_is (index_ic_cdi ppt) (index_ic_niv ppt) index_ic1 index_ic2
      then set_cross (c_cdi_niv ppm) (n_cdi_niv ppm) (alpha_cdi_niv ppm) st else st in
    let st :=
      if has_nid ppt && has_niv ppt
         && pair_is (index_ic_nid ppt) (index_ic_niv ppt) index_ic1 index_ic2
      then set_cross (c_nid_niv ppm) (n_nid_niv ppm) (alpha_nid_niv ppm) st else st in
    st
  else st.

(** One turn of the loop over non-diagonal coefficients. *)
Definition cross_step (ppt : perturbs) (ppm : primordial) (index_md : nat)
    (st : analytic_state) (p : nat * nat) : result analytic_state :=
  let '(index_ic1, index_ic2) := p in
  let st := cross_select ppt ppm index_md index_ic1 index_ic2 st in
  _ ← class_test (bool_decide (one_correlation st < -1)
                  || bool_decide (one_correlation st > 1))
                 InconsistentCorrelation;
  let N := ic_size ppm !!! index_md in
  let index_ic1_ic2 := index_symmetric_matrix index_ic1 index_ic2 N in
  let index_ic1_ic1 := index_symmetric_matrix index_ic1 index_ic1 N in
  let index_ic2_ic2 := index_symmetric_matrix index_ic2 index_ic2 N in
  if decide (one_correlation st = 0) then
    Ok (store index_md index_ic1_ic2 false 0 0 0 st)
  else
    Ok (store index_md index_ic1_ic2 true
          (sqrt (read2 (st_amplitude st) index_md index_ic1_ic1
                 * read2 (st_amplitude st) index_md index_ic2_ic2)
           * one_correlation st)
          (0.5 * (read2 (st_tilt st) index_md index_ic1_ic1
                  + read2 (st_tilt st) index_md index_ic2_ic2)
           + one_tilt st)
          (0.5 * (read2 (st_running st) index_md index_ic1_ic1
                  + read2 (st_running st) index_md index_ic2_ic2)
           + one_running st)
          st).

(** A [for] loop whose body can fail. *)
Fixpoint for_each {S K : Type} (body : S -> K -> result S) (ks : list K)
    (s : S) : result S :=
  match ks with
  | [] => Ok s
  | k :: ks => s' ← body s k; for_each body ks s'
  end.

(** The body of the loop over modes. *)
Definition analytic_md_step (ppt : perturbs) (ppm : primordial)
    (st : analytic_state) (index_md : nat) : result analytic_state :=
  let N := ic_size ppm !!! index_md in
  st ← for_each (diag_step ppt ppm index_md) (seq 0 N) st;
  for_each (cross_step ppt ppm index_md) (ic_pairs_offdiag N) st.

Definition set_analytic_tables (ppm : primordial) (st : analytic_state)
  : primordial :=
  {| primordial_spec_type := primordial_spec_type ppm;
     k_pivot := k_pivot ppm;
     analytic_input := analytic_input ppm;
     inflation_input := inflation_input ppm;
     md_size := md_size ppm; ic_size := ic_size ppm;
     ic_ic_size := ic_ic_size ppm;
     lnk_size := lnk_size ppm; lnk := lnk ppm; lnpk := lnpk ppm;
     ddlnpk := ddlnpk ppm;
     is_non_zero := st_is_non_zero st;
     amplitude := st_amplitude st;
     tilt := st_tilt st;
     running := st_running st;
     indices := indices ppm |}.

(** [class_alloc] of a table with one row of [ic_ic_size[index_md]] cells per
    mode.  The cells are indeterminate in C; each of them is written by
    [primordial_analytic_spectrum_init] before it is read. *)
Definition alloc_table (ppm : primordial) : list (list R) :=
  (fun index_md => replicate (ic_ic_size ppm !!! index_md) 0)
    <$> seq 0 (md_size ppm).

Definition primordial_analytic_spectrum_init (ppt : perturbs)
    (ppm : primordial) : result primordial :=
  let st0 :=
    {| one_amplitude := 0; one_tilt := 0; one_running := 0;
       one_correlation := 0;
       st_is_non_zero := is_non_zero ppm;
       st_amplitude := alloc_table ppm;
       st_tilt := alloc_table ppm;
       st_running := alloc_table ppm |} in
  st ← for_each (analytic_md_step ppt ppm) (seq 0 (md_size ppm)) st0;
  Ok (set_analytic_tables ppm st).

(** ** Reading the spectrum table *)

Section SpectrumTable.

(** [array_interpolate_spline] of tools/arrays.c is an external collaborator.
    Its arguments here are, in the C order, [x_array], [n_lines], [array],
    [array_splined], [n_columns], [x], the contents of [result] before the
    call and [result_size]; it returns its status and the contents of
    [result] after the call. *)
Variable array_interpolate_spline :
  list R -> nat -> list R -> list R -> nat -> R -> list R -> nat ->
  result unit * list R.

(** First loop nest of the direct computation. *)
Definition direct_step (ppm : primordial) (index_md : nat) (k : R)
    (output : list R) (p : nat * nat) : list R :=
  let '(index_ic1, index_ic2) := p in
  let index_ic1_ic2 :=
    index_symmetric_matrix index_ic1 index_ic2 (ic_size ppm !!! index_md) in
  if read2 (is_non_zero ppm) index_md index_ic1_ic2 then
    <[index_ic1_ic2 :=
        primordial_analytic_spectrum ppm index_md index_ic1_ic2 k]> output
  else <[index_ic1_ic2 := 0]> output.

(** Transformation applied after the direct computation in logarithmic
    mode. *)
Definition log_diag_step (ppm : primordial) (index_md : nat)
    (output : list R) (index_ic1 : nat) : list R :=
  let index_ic1_ic2 :=
    index_symmetric_matrix index_ic1 index_ic1 (ic_size ppm !!! index_md) in
  <[index_ic1_ic2 := ln (output !!! index_ic1_ic2)]> output.

Definition log_cross_step (ppm : primordial) (index_md : nat)
    (output : list R) (p : nat * nat) : list R :=
  let '(index_ic1, index_ic2) := p in
  let N := ic_size ppm !!! index_md in
  let index_ic1_ic2 := index_symmetric_matrix index_ic1 index_ic2 N in
  if read2 (is_non_zero ppm) index_md index_ic1_ic2 then
    <[index_ic1_ic2 :=
        output !!! index_ic1_ic2
        / sqrt (output !!! index_symmetric_matrix index_ic1 index_ic1 N
                * output !!! index_symmetric_matrix index_ic2 index_ic2 N)]>
      output
  else output.

(** Transformation applied after the interpolation in linear mode. *)
Definition lin_diag_step (ppm : primordial) (index_md : nat)
    (output : list R) (index_ic1 : nat) : list R :=
  let index_ic1_ic2 :=
    index_symmetric_matrix index_ic1 index_ic1 (ic_size ppm !!! index_md) in
  <[index_ic1_ic2 := exp (output !!! index_ic1_ic2)]> output.

Definition lin_cross_step (ppm : primordial) (index_md : nat)
    (output : list R) (p : nat * nat) : list R :=
  let '(index_ic1, index_ic2) := p in
  let N := ic_size ppm !!! index_md in
  let index_ic1_ic2 := index_symmetric_matrix index_ic1 index_ic2 N in
  if read2 (is_non_zero ppm) index_md index_ic1_ic2 then
    <[index_ic1_ic2 :=
        output !!! index_ic1_ic2
        * sqrt (output !!! index_symmetric_matrix index_ic1 index_ic1 N
                * output !!! index_symmetric_matrix index_ic2 index_ic2 N)]>
      output
  else <[index_ic1_ic2 := 0]> output.

(** The branch taken when [lnk] is outside the table, after the test on the
    spectrum type. *)
Definition direct_computation (ppm : primordial) (index_md : nat)
    (mode : linear_or_logarithmic) (lnk_val : R) (output : list R) : list R :=
  let N := ic_size ppm !!! index_md in
  let output :=
    fold_left (direct_step ppm index_md (exp lnk_val)) (ic_pairs N) output in
  if decide (mode = logarithmic) then
    let output := fold_left (log_diag_step ppm index_md) (seq 0 N) output in
    fold_left (log_cross_step ppm index_md) (ic_pairs_offdiag N) output
  else output.

(** The branch taken when [lnk] is inside the table. *)
Definition interpolation (ppm : primordial) (index_md : nat)
    (mode : linear_or_logarithmic) (lnk_val : R) (output : list R)
  : result unit * list R :=
  let N := ic_size ppm !!! index_md in
  match array_interpolate_spline (lnk ppm) (lnk_size ppm)
          (lnpk ppm !!! index_md) (ddlnpk ppm !!! index_md)
          (ic_ic_size ppm !!! index_md) lnk_val output
          (ic_ic_size ppm !!! index_md) with
  | (Ok _, output) =>
      if decide (mode = linear) then
        let output := fold_left (lin_diag_step ppm index_md) (seq 0 N) output in
        (Ok tt,
         fold_left (lin_cross_step ppm index_md) (ic_pairs_offdiag N) output)
      else (Ok tt, output)
  | (Err _, output) => (Err SplineFailure, output)
  | (Timeout, output) => (Timeout, output)
  end.

(** The part of [primordial_spectrum_at_k] that follows the computation of
    [lnk]. *)
Definition spectrum_at_lnk (ppm : primordial) (index_md : nat)
    (mode : linear_or_logarithmic) (lnk_val : R) (output : list R)
  : result unit * list R :=
  if bool_decide (lnk_val > lnk ppm !!! (lnk_size ppm - 1)%nat)
     || bool_decide (lnk_val < lnk ppm !!! 0%nat)
  then
    if decide (primordial_spec_type ppm <> analytic_Pk)
    then (Err OutOfRange, output)
    else (Ok tt, direct_computation ppm index_md mode lnk_val output)
  else interpolation ppm index_md mode lnk_val output.

(** [primordial_spectrum_at_k] returns its status and the contents of the
    array [output] when it returns. *)
Definition primordial_spectrum_at_k (ppm : primordial) (index_md : nat)
    (mode : linear_or_logarithmic) (input : R) (output : list R)
  : result unit * list R :=
  match mode with
  | linear =>
      if decide (input <= 0) then (Err NonPositiveK, output)
      else spectrum_at_lnk ppm index_md mode (ln input) output
  | logarithmic => spectrum_at_lnk ppm index_md mode input output
  end.

End SpectrumTable.

(** The value that [primordial_init] stores in
    [lnpk[index_md][index_k*ic_ic_size[index_md]+index_ic1_ic2]] for an
    analytic spectrum, [k] being [exp(lnk[index_k])]. *)
Definition primordial_init_entry (ppm : primordial)
    (index_md index_ic1 index_ic2 : nat) (k : R) : R :=
  let N := ic_size ppm !!! index_md in
  let index_ic1_ic2 := index_symmetric_matrix index_ic1 index_ic2 N in
  if read2 (is_non_zero ppm) index_md index_ic1_ic2 then
    let pk := primordial_analytic_spectrum ppm index_md index_ic1_ic2 k in
    if decide (index_ic1 = index_ic2) then ln pk
    else
      let pk1 := primordial_analytic_spectrum ppm index_md
                   (index_symmetric_matrix index_ic1 index_ic1 N) k in
      let pk2 := primordial_analytic_spectrum ppm index_md
                   (index_symmetric_matrix index_ic2 index_ic2 N) k in
      if decide (pk > sqrt (pk1 * pk2)) then 1
      else if decide (pk < - sqrt (pk1 * pk2)) then -1
      else pk / sqrt (pk1 * pk2)
  else 0.

(** The table filling loops of [primordial_init] for an analytic spectrum:
    over [index_k], over the modes and over the pairs of initial
    conditions. *)
Definition primordial_init_fill_pair (ppm : primordial) (index_k index_md : nat)
    (table : list (list R)) (p : nat * nat) : list (list R) :=
  let '(index_ic1, index_ic2) := p in
  let k := exp (lnk ppm !!! index_k) in
  let index_ic1_ic2 :=
    index_symmetric_matrix index_ic1 index_ic2 (ic_size ppm !!! index_md) in
  write2 table index_md
         (index_k * (ic_ic_size ppm !!! index_md) + index_ic1_ic2)%nat
         (primordial_init_entry ppm index_md index_ic1 index_ic2 k).

Definition primordial_init_fill (ppm : primordial) : list (list R) :=
  fold_left
    (fun table index_k =>
       fold_left
         (fun table index_md =>
            fold_left (primordial_init_fill_pair ppm index_k index_md)
                      (ic_pairs (ic_size ppm !!! index_md)) table)
         (seq 0 (md_size ppm)) table)
    (seq 0 (lnk_size ppm)) (lnpk ppm).

(** ** The inflation simulator: potential, Hubble function, indices *)

Definition is_inflation_V (ppm : primordial) : bool :=
  bool_decide (primordial_spec_type ppm = inflation_V)
  || bool_decide (primordial_spec_type ppm = inflation_V_end).

(** Returns [(V, dV, ddV)]. *)
Definition primordial_inflation_potential (ppm : primordial) (phi : R)
  : result (R * R * R) :=
  match potential ppm with
  | polynomial =>
      let d := phi - phi_pivot ppm in
      Ok (V0 ppm + d * V1 ppm + d ^ 2 / 2 * V2 ppm + d ^ 3 / 6 * V3 ppm
          + d ^ 4 / 24 * V4 ppm,
          V1 ppm + d * V2 ppm + d ^ 2 / 2 * V3 ppm + d ^ 3 / 6 * V4 ppm,
          V2 ppm + d * V3 ppm + d ^ 2 / 2 * V4 ppm)
  | natural =>
      Ok (V0 ppm * (1 + cos (phi / V1 ppm)),
          - V0 ppm / V1 ppm * sin (phi / V1 ppm),
          - V0 ppm / V1 ppm / V1 ppm * cos (phi / V1 ppm))
  | unknown_shape => Err UnknownPotential
  end.

(** Returns [(H, dH, ddH, dddH)]; the C function always succeeds. *)
Definition primordial_inflation_hubble (ppm : primordial) (phi : R)
  : R * R * R * R :=
  (H0 ppm + phi * H1 ppm + phi ^ 2 / 2 * H2 ppm + phi ^ 3 / 6 * H3 ppm
   + phi ^ 4 / 24 * H4 ppm,
   H1 ppm + phi * H2 ppm + phi ^ 2 / 2 * H3 ppm + phi ^ 3 / 6 * H4 ppm,
   H2 ppm + phi * H3 ppm + phi ^ 2 / 2 * H4 ppm,
   H3 ppm + phi * H4 ppm).

(** The indices assigned by [primordial_inflation_indices];
    [index_in_dphi] keeps its former value when the spectrum type is not
    potential-based. *)
Definition primordial_inflation_indices (ppm : primordial) : inflation_indices :=
  let index_in := 0%nat in
  let i_a := index_in in
  let index_in := S index_in in
  let i_phi := index_in in
  let index_in := S index_in in
  let '(i_dphi, index_in) :=
    if is_inflation_V ppm then (index_in, S index_in)
    else (index_in_dphi ppm, index_in) in
  {| index_in_a := i_a;
     index_in_phi := i_phi;
     index_in_dphi := i_dphi;
     in_bg_size := index_in;
     index_in_ksi_re := index_in;
     index_in_ksi_im := index_in + 1;
     index_in_dksi_re := index_in + 2;
     index_in_dksi_im := index_in + 3;
     index_in_ah_re := index_in + 4;
     index_in_ah_im := index_in + 5;
     index_in_dah_re := index_in + 6;
     index_in_dah_im := index_in + 7;
     in_size := index_in + 8 |}.

Definition primordial_inflation_check_potential (ppm : primordial) (phi : R)
  : result (R * R * R) :=
  '(V, dV, ddV) ← primordial_inflation_potential ppm phi;
  _ ← class_test (bool_decide (V <= 0)) NegativePotential;
  _ ← class_test (bool_decide (dV >= 0)) PositiveSlope;
  Ok (V, dV, ddV).

Definition primordial_inflation_check_hubble (ppm : primordial) (phi : R)
  : result (R * R * R * R) :=
  let '(H, dH, ddH, dddH) := primordial_inflation_hubble ppm phi in
  _ ← class_test (bool_decide (H < 0)) UnphysicalHubble;
  _ ← class_test (bool_decide (dH > 0)) IncreasingHubble;
  Ok (H, dH, ddH, dddH).

Definition primordial_inflation_get_epsilon (ppm : primordial) (phi : R)
  : result R :=
  match primordial_spec_type ppm with
  | inflation_V | inflation_V_end =>
      '(V, dV, ddV) ← primordial_inflation_potential ppm phi;
      Ok (1 / 16 / PI * (dV / V) ^ 2)
  | inflation_H =>
      let '(H, dH, ddH, dddH) := primordial_inflation_hubble ppm phi in
      Ok (1 / 4 / PI * (dH / H) ^ 2)
  | _ => Err UnknownSpecType
  end.

(** ** The derivative function *)

(** [struct primordial_inflation_parameters_and_workspace], without its
    pointer to [ppm] (passed alongside).  The fields [a2], [V], [dV], [ddV],
    [aH], [H], [dH], [ddH], [dddH] are written and read within one call of
    the derivative function and are local there.  [zpp_over_z] and
    [app_over_a] are not assigned in the backward branch: the values they
    hold on entry are then the ones the perturbation equations would read. *)
Record workspace : Type := {
  pipaw_N : nat;
  integrate : integration_direction;
  time : time_definition;
  k : R;
  zpp_over_z : R;
  app_over_a : R
}.

(** [primordial_inflation_derivs]: from [y] and the contents of [dy] before
    the call to the contents of [dy] after it. *)
Definition primordial_inflation_derivs (ppm : primordial) (ppipaw : workspace)
    (tau : R) (y dy : list R) : result (list R) :=
  let a2 := y !!! index_in_a ppm * y !!! index_in_a ppm in
  '(dy, zpp, app) ←
    match primordial_spec_type ppm with
    | inflation_V | inflation_V_end =>
        '(V, dV, ddV) ←
          primordial_inflation_potential ppm (y !!! index_in_phi ppm);
        match integrate ppipaw with
        | forward =>
            let aH :=
              sqrt (8 * PI / 3
                    * (0.5 * y !!! index_in_dphi ppm * y !!! index_in_dphi ppm
                       + a2 * V)) in
            let dy := <[index_in_a ppm := y !!! index_in_a ppm * aH]> dy in
            let dy := <[index_in_phi ppm := y !!! index_in_dphi ppm]> dy in
            let dy := <[index_in_dphi ppm :=
                          - 2 * aH * y !!! index_in_dphi ppm - a2 * dV]> dy in
            let zpp :=
              2 * aH * aH - a2 * ddV
              - 4 * PI * (7 * y !!! index_in_dphi ppm * y !!! index_in_dphi ppm
                          + 4 * y !!! index_in_dphi ppm / aH * a2 * dV)
              + 32 * PI * PI * (y !!! index_in_dphi ppm) ^ 4 / aH ^ 2 in
            let app :=
              2 * aH * aH
              - 4 * PI * y !!! index_in_dphi ppm * y !!! index_in_dphi ppm in
            Ok (dy, zpp, app)
        | backward =>
            let aH := sqrt (8 * PI / 3 * a2 * V) in
            let dy := <[index_in_a ppm := y !!! index_in_a ppm * aH]> dy in
            let dy := <[index_in_phi ppm := - a2 * dV / 3 / aH]> dy in
            Ok (dy, zpp_over_z ppipaw, app_over_a ppipaw)
        end
    | inflation_H =>
        let '(H, dH, ddH, dddH) :=
          primordial_inflation_hubble ppm (y !!! index_in_phi ppm) in
        let dy := <[index_in_a ppm := a2 * H]> dy in
        let dy :=
          <[index_in_phi ppm := - 1 / 4 / PI * y !!! index_in_a ppm * dH]> dy in
        let zpp :=
          2 * a2 * H * H
          - 3 / 4 / PI * a2 * H * ddH
          + 1 / 16 / PI / PI * a2 * ddH * ddH
          + 1 / 16 / PI / PI * a2 * dH * dddH
          - 1 / 4 / PI / PI * a2 * dH * dH * ddH / H
          + 1 / 2 / PI * a2 * dH * dH
          + 1 / 8 / PI / PI * a2 * dH * dH * dH * dH / H / H in
        let app :=
          2 * a2 * H * H
          - 4 * PI * dy !!! index_in_phi ppm * dy !!! index_in_phi ppm in
        Ok (dy, zpp, app)
    | _ => Err UnknownSpecType
    end;
  if decide (pipaw_N ppipaw <= in_bg_size ppm)%nat then Ok dy
  else
    let k2 := k ppipaw * k ppipaw in
    let dy := <[index_in_ksi_re ppm := y !!! index_in_dksi_re ppm]> dy in
    let dy := <[index_in_ksi_im ppm := y !!! index_in_dksi_im ppm]> dy in
    let dy := <[index_in_dksi_re ppm :=
                  - (k2 - zpp) * y !!! index_in_ksi_re ppm]> dy in
    let dy := <[index_in_dksi_im ppm :=
                  - (k2 - zpp) * y !!! index_in_ksi_im ppm]> dy in
    let dy := <[index_in_ah_re ppm := y !!! index_in_dah_re ppm]> dy in
    let dy := <[index_in_ah_im ppm := y !!! index_in_dah_im ppm]> dy in
    let dy := <[index_in_dah_re ppm :=
                  - (k2 - app) * y !!! index_in_ah_re ppm]> dy in
    let dy := <[index_in_dah_im ppm :=
                  - (k2 - app) * y !!! index_in_ah_im ppm]> dy in
    Ok dy.

(** ** The running vectors

    Every routine of the simulator receives the two arrays [y] and [dy] by
    pointer and updates them in place.  They are the state of a small state
    and error monad: a computation returns its status and the contents of
    the two arrays when it returns, also on failure. *)

Record vectors : Type := { y : list R; dy : list R }.

Definition M (A : Type) : Type := vectors -> result A * vectors.

#[global] Instance M_ret : MRet M := fun A a s => (Ok a, s).

#[global] Instance M_bind : MBind M := fun A B f m s =>
  match m s with
  | (Ok a, s') => f a s'
  | (Err e, s') => (Err e, s')
  | (Timeout, s') => (Timeout, s')
  end.

Definition lift {A : Type} (r : result A) : M A := fun s => (r, s).
Definition get_vectors : M vectors := fun s => (Ok s, s).
Definition get_y (i : nat) : M R := fun s => (Ok (y s !!! i), s).
Definition get_dy (i : nat) : M R := fun s => (Ok (dy s !!! i), s).
Definition set_y (i : nat) (v : R) : M unit :=
  fun s => (Ok tt, {| y := <[i := v]> (y s); dy := dy s |}).
Definition set_dy (i : nat) (v : R) : M unit :=
  fun s => (Ok tt, {| y := y s; dy := <[i := v]> (dy s) |}).

(** A call [primordial_inflation_derivs(tau, y, dy, &pipaw, ...)] on the
    running vectors. *)
Definition call_derivs (ppm : primordial) (pipaw : workspace) (tau : R)
  : M unit :=
  fun s =>
    match primordial_inflation_derivs ppm pipaw tau (y s) (dy s) with
    | Ok dy' => (Ok tt, {| y := y s; dy := dy' |})
    | Err e => (Err e, s)
    | Timeout => (Timeout, s)
    end.

(** ** The background evolver *)

Section Simulator.

(** [generic_integrator] is an external collaborator.  Its arguments here
    are the derivative function (from [tau], [y] and the former [dy] to the
    new [dy]), the dimension given to [initialize_generic_integrator],
    [x_start], [x_end], the contents of [y] before the call, the tolerance
    and the minimal step; it returns its status and the contents of [y]
    after the call.  [initialize_generic_integrator] and
    [cleanup_generic_integrator] only manage its buffers and are taken to
    succeed. *)
Variable generic_integrator :
  (R -> list R -> list R -> result (list R)) -> nat -> R -> R -> list R ->
  R -> R -> result unit * list R.

Variable ppm : primordial.
Variable ppr : precision.

Definition call_integrator (pipaw : workspace) (tau_start tau_end : R)
  : M unit :=
  fun s =>
    match generic_integrator (primordial_inflation_derivs ppm pipaw)
            (pipaw_N pipaw) tau_start tau_end (y s)
            (primordial_inflation_tol_integration ppr)
            (smallest_allowed_variation ppr) with
    | (Ok _, y') => (Ok tt, {| y := y'; dy := dy s |})
    | (Err _, y') => (Err IntegratorFailure, {| y := y'; dy := dy s |})
    | (Timeout, y') => (Timeout, {| y := y'; dy := dy s |})
    end.

(** Local variables of [primordial_inflation_evolve_background] that live
    across the turns of its loop. *)
Record bg_locals : Type := {
  tau_end : R;
  dtau : R;
  epsilon : R;
  aH : R;
  quantity : R
}.

(** The test [fabs(dtau/tau_start) < smallest_allowed_variation].
    [tau_start] is [0] at the first step: the IEEE quotient is then an
    infinity, or NaN when [dtau] is [0] as well, and the comparison is
    false. *)
Definition step_below_precision (dtau tau_start : R) : bool :=
  if decide (tau_start = 0) then false
  else bool_decide (Rabs (dtau / tau_start) < smallest_allowed_variation ppr).

(** The step size computed from the derivatives, before the loop and at
    the end of each turn. *)
Definition new_dtau (direction : integration_direction) (sign_dtau aH : R)
    (s : vectors) : R :=
  if bool_decide (direction = forward) && is_inflation_V ppm then
    primordial_inflation_bg_stepsize ppr
    * MIN (1 / aH)
          (Rabs (y s !!! index_in_dphi ppm / dy s !!! index_in_dphi ppm))
  else sign_dtau * primordial_inflation_bg_stepsize ppr * (1 / aH).

(** The expected value of the target quantity after the next step. *)
Definition new_quantity (target : target_quantity) (aH dtau : R)
    (s : vectors) : R :=
  match target with
  | _aH_ => aH + aH * aH * dtau
  | _phi_ => y s !!! index_in_phi ppm + dy s !!! index_in_phi ppm * dtau
  | _end_inflation_ =>
      (- aH * aH
       + 4 * PI * y s !!! index_in_dphi ppm * y s !!! index_in_dphi ppm)
      / y s !!! index_in_a ppm / y s !!! index_in_a ppm
  end.

(** First part of a turn of the loop over time steps: the check of the
    potential or of the Hubble function, then one time step of the
    integrator.  Returns the new [tau_end]. *)
Definition take_step (pipaw : workspace) (l : bg_locals) : M R :=
  phi ← get_y (index_in_phi ppm);
  _ ← lift (if is_inflation_V ppm
            then _ ← primordial_inflation_check_potential ppm phi; Ok tt
            else _ ← primordial_inflation_check_hubble ppm phi; Ok tt);
  let tau_start := tau_end l in
  let tau_end := tau_start + dtau l in
  _ ← lift (class_test (step_below_precision (dtau l) tau_start) StepTooSmall);
  _ ← call_integrator pipaw tau_start tau_end;
  mret tau_end.

(** Second part: the check that epsilon is not becoming greater than one.
    Returns the value of [epsilon] after the turn. *)
Definition check_epsilon_step (check_epsilon : bool) (l : bg_locals) : M R :=
  if check_epsilon then
    let epsilon_old := epsilon l in
    phi ← get_y (index_in_phi ppm);
    epsilon ← lift (primordial_inflation_get_epsilon ppm phi);
    _ ← lift (class_test (bool_decide (epsilon > 1)
                          && bool_decide (epsilon_old <= 1))
                         SlowRollViolated);
    mret epsilon
  else mret (epsilon l).

(** One turn of the loop over time steps. *)
Definition evolve_step (pipaw : workspace) (target : target_quantity)
    (sign_dtau : R) (check_epsilon : bool) (direction : integration_direction)
    (l : bg_locals) : M bg_locals :=
  tau_end ← take_step pipaw l;
  epsilon ← check_epsilon_step check_epsilon l;
  _ ← call_derivs ppm pipaw tau_end;
  s ← get_vectors;
  let aH := dy s !!! index_in_a ppm / y s !!! index_in_a ppm in
  let dtau := new_dtau direction sign_dtau aH s in
  let quantity := new_quantity target aH dtau s in
  mret {| tau_end := tau_end; dtau := dtau; epsilon := epsilon;
          aH := aH; quantity := quantity |}.

(** The loop [while (sign_dtau*(quantity - stop) < 0.)], with fuel. *)
Fixpoint evolve_loop (fuel : nat) (pipaw : workspace)
    (target : target_quantity) (stop sign_dtau : R) (check_epsilon : bool)
    (direction : integration_direction) (l : bg_locals) : M bg_locals :=
  if decide (sign_dtau * (quantity l - stop) < 0) then
    match fuel with
    | O => lift Timeout
    | S fuel =>
        l ← evolve_step pipaw target sign_dtau check_epsilon direction l;
        evolve_loop fuel pipaw target stop sign_dtau check_epsilon direction l
    end
  else mret l.

(** [accepted ... n l s l' s']: entered with the locals [l] and the running
    vectors [s], the loop makes [n] turns, each one entered with the loop
    condition true and completed without failure, and reaches [l'], [s']. *)
Inductive accepted (pipaw : workspace) (target : target_quantity)
    (stop sign_dtau : R) (check_epsilon : bool)
    (direction : integration_direction)
  : nat -> bg_locals -> vectors -> bg_locals -> vectors -> Prop :=
| accepted_O l s :
    accepted pipaw target stop sign_dtau check_epsilon direction O l s l s
| accepted_S n l s l1 s1 l' s' :
    sign_dtau * (quantity l - stop) < 0 ->
    evolve_step pipaw target sign_dtau check_epsilon direction l s
    = (Ok l1, s1) ->
    accepted pipaw target stop sign_dtau check_epsilon direction n l1 s1 l' s' ->
    accepted pipaw target stop sign_dtau check_epsilon direction (S n) l s l' s'.

(** The value of epsilon at the field value held by the running vector. *)
Definition epsilon_at (s : vectors) : result R :=
  primordial_inflation_get_epsilon ppm (y s !!! index_in_phi ppm).

(** The workspace set up at the beginning of
    [primordial_inflation_evolve_background]: [k], [zpp_over_z] and
    [app_over_a] are not initialised there (and not read, since the
    dimension does not exceed [in_bg_size]). *)
Definition evolve_workspace (direction : integration_direction)
    (time : time_definition) : workspace :=
  let N := in_bg_size ppm in
  let N :=
    if bool_decide (direction = backward) && is_inflation_V ppm
    then (N - 1)%nat else N in
  {| pipaw_N := N; integrate := direction; time := time;
     k := 0; zpp_over_z := 0; app_over_a := 0 |}.

Definition sign_of (direction : integration_direction) : R :=
  match direction with forward => 1 | backward => -1 end.

(** What precedes the loop: epsilon at the starting point, the first
    derivatives, the first step size and the first expected quantity. *)
Definition evolve_start (pipaw : workspace) (target : target_quantity)
    (check_epsilon : bool) (direction : integration_direction)
  : M bg_locals :=
  let sign_dtau := sign_of direction in
  epsilon ←
    (if check_epsilon then
       phi ← get_y (index_in_phi ppm);
       lift (primordial_inflation_get_epsilon ppm phi)
     else mret 0);
  let tau_end := 0 in
  _ ← call_derivs ppm pipaw tau_end;
  s ← get_vectors;
  let aH := dy s !!! index_in_a ppm / y s !!! index_in_a ppm in
  let dtau := new_dtau direction sign_dtau aH s in
  let quantity := new_quantity target aH dtau s in
  let l := {| tau_end := tau_end; dtau := dtau; epsilon := epsilon;
              aH := aH; quantity := quantity |} in
  _ ← lift (match target with
            | _end_inflation_ =>
                class_test
                  (bool_decide (primordial_spec_type ppm <> inflation_V_end))
                  EndInflationTarget
            | _ => Ok tt
            end);
  mret l.

(** What follows the loop: the last step with a trapezoidal integral. *)
Definition evolve_finish (pipaw : workspace) (target : target_quantity)
    (stop : R) (direction : integration_direction) (l : bg_locals) : M unit :=
  dtau ←
    match target with
    | _aH_ => mret ((stop / aH l - 1) / aH l)
    | _phi_ =>
        s ← get_vectors;
        mret ((stop - y s !!! index_in_phi ppm) / dy s !!! index_in_phi ppm)
    | _end_inflation_ =>
        phi ← get_y (index_in_phi ppm);
        _ ← lift (primordial_inflation_check_potential ppm phi);
        s ← get_vectors;
        mret (- quantity l
              / (8 * PI / y s !!! index_in_a ppm / y s !!! index_in_a ppm
                 * dy s !!! index_in_phi ppm * dy s !!! index_in_dphi ppm))
    end;
  ya ← get_y (index_in_a ppm);
  dya ← get_dy (index_in_a ppm);
  _ ← set_y (index_in_a ppm) (ya + dya * dtau);
  yphi ← get_y (index_in_phi ppm);
  dyphi ← get_dy (index_in_phi ppm);
  _ ← set_y (index_in_phi ppm) (yphi + dyphi * dtau);
  _ ← (if bool_decide (direction = forward) && is_inflation_V ppm then
         ydphi ← get_y (index_in_dphi ppm);
         dydphi ← get_dy (index_in_dphi ppm);
         set_y (index_in_dphi ppm) (ydphi + dydphi * dtau)
       else mret tt);
  call_derivs ppm pipaw (tau_end l).

Definition primordial_inflation_evolve_background (fuel : nat)
    (target : target_quantity) (stop : R) (check_epsilon : bool)
    (direction : integration_direction) (time : time_definition) : M unit :=
  let pipaw := evolve_workspace direction time in
  let sign_dtau := sign_of direction in
  l ← evolve_start pipaw target check_epsilon direction;
  let stop := match target with _end_inflation_ => 0 | _ => stop end in
  l ← evolve_loop fuel pipaw target stop sign_dtau check_epsilon direction l;
  evolve_finish pipaw target stop direction l.

(** ** The attractor solver *)

(** Local variables of [primordial_inflation_find_attractor] that live
    across the turns of its loop. *)
Record attractor_locals : Type := {
  counter : Z;
  phi : R;
  dphidt_0new : R;
  dphidt_0old : R
}.

(** The loop condition [fabs(dphidt_0new/dphidt_0old-1.) >= precision]. *)
Definition not_converged (precision : R) (l : attractor_locals) : Prop :=
  Rabs (dphidt_0new l / dphidt_0old l - 1) >= precision.

(** One turn of the loop over starting values of phi. *)
Definition attractor_step (fuel : nat) (phi_0 V_0 dV_0 : R)
    (l : attractor_locals) : M attractor_locals :=
  let counter := (counter l + 1)%Z in
  _ ← lift (class_test
              (bool_decide
                 (counter >= primordial_inflation_attractor_maxit ppr)%Z)
              AttractorNotFound);
  let dphidt_0old := dphidt_0new l in
  let phi := phi l + dV_0 / V_0 / 16 / PI in
  '(V, dV, ddV) ← lift (primordial_inflation_check_potential ppm phi);
  let a := 1 in
  let dphidt := - dV / 3 / sqrt (8 * PI / 3 * V) in
  _ ← set_y (index_in_a ppm) a;
  _ ← set_y (index_in_phi ppm) phi;
  _ ← set_y (index_in_dphi ppm) (a * dphidt);
  _ ← primordial_inflation_evolve_background fuel _phi_ phi_0 true forward
        conformal;
  ydphi ← get_y (index_in_dphi ppm);
  ya ← get_y (index_in_a ppm);
  mret {| counter := counter; phi := phi; dphidt_0new := ydphi / ya;
          dphidt_0old := dphidt_0old |}.

(** The loop [while (fabs(dphidt_0new/dphidt_0old-1.) >= precision)].  Its
    fuel [n] bounds the number of turns; [fuel] is the fuel of each
    background integration. *)
Fixpoint attractor_loop (n fuel : nat) (phi_0 precision V_0 dV_0 : R)
    (l : attractor_locals) : M attractor_locals :=
  if decide (not_converged precision l) then
    match n with
    | O => lift Timeout
    | S n =>
        l ← attractor_step fuel phi_0 V_0 dV_0 l;
        attractor_loop n fuel phi_0 precision V_0 dV_0 l
    end
  else mret l.

(** The running vector with which a turn of the loop calls the background
    evolver: [a = 1], the new starting value of phi and the slow-roll
    prediction for phi'. *)
Definition attractor_initial_vector (phi V dV : R) (s : vectors) : vectors :=
  {| y := <[index_in_dphi ppm := 1 * (- dV / 3 / sqrt (8 * PI / 3 * V))]>
            (<[index_in_phi ppm := phi]> (<[index_in_a ppm := 1]> (y s)));
     dy := dy s |}.

(** [attractor_accepted ... n l s l' s']: the same notion for the loop of
    the attractor solver. *)
Inductive attractor_accepted (fuel : nat) (phi_0 precision V_0 dV_0 : R)
  : nat -> attractor_locals -> vectors -> attractor_locals -> vectors -> Prop :=
| attractor_accepted_O l s :
    attractor_accepted fuel phi_0 precision V_0 dV_0 O l s l s
| attractor_accepted_S n l s l1 s1 l' s' :
    not_converged precision l ->
    attractor_step fuel phi_0 V_0 dV_0 l s = (Ok l1, s1) ->
    attractor_accepted fuel phi_0 precision V_0 dV_0 n l1 s1 l' s' ->
    attractor_accepted fuel phi_0 precision V_0 dV_0 (S n) l s l' s'.

(** The state of the local variables when the loop is reached. *)
Definition attractor_start (phi_0 precision dV_0 V_0 : R) : attractor_locals :=
  let dphidt_0new := - dV_0 / 3 / sqrt (8 * PI / 3 * V_0) in
  {| counter := 0; phi := phi_0; dphidt_0new := dphidt_0new;
     dphidt_0old := dphidt_0new / (precision + 2) |}.

(** Returns [(H_0, dphidt_0)].  The counter test stops the loop after at
    most [primordial_inflation_attractor_maxit] turns, which is the fuel
    given to it. *)
Definition primordial_inflation_find_attractor (fuel : nat)
    (phi_0 precision : R) : M (R * R) :=
  '(V_0, dV_0, ddV_0) ← lift (primordial_inflation_check_potential ppm phi_0);
  l ← attractor_loop
        (S (Z.to_nat (primordial_inflation_attractor_maxit ppr))) fuel
        phi_0 precision V_0 dV_0 (attractor_start phi_0 precision dV_0 V_0);
  let dphidt_0 := dphidt_0new l in
  let H_0 :=
    sqrt (8 * PI / 3 * (0.5 * dphidt_0new l * dphidt_0new l + V_0)) in
  mret (H_0, dphidt_0).

(** ** Initialising the running vector *)

(** [primordial_inflation_solve_inflation], from the computation of
    [k_max] to the call that checks the duration of inflation after the
    pivot; [a_pivot] and [dphidt_pivot] are the local variables computed
    before. *)
Definition solve_inflation_check_after_pivot (fuel : nat)
    (a_pivot dphidt_pivot : R) : M unit :=
  let k_max := exp (lnk ppm !!! (lnk_size ppm - 1)%nat) in
  let aH_end := k_max / primordial_inflation_ratio_max ppr in
  _ ← set_y (index_in_a ppm) a_pivot;
  _ ← set_y (index_in_phi ppm) (phi_pivot ppm);
  _ ← (if bool_decide (primordial_spec_type ppm = inflation_V)
          && bool_decide (primordial_spec_type ppm = inflation_V_end)
       then set_y (index_in_dphi ppm) (a_pivot * dphidt_pivot)
       else mret tt);
  primordial_inflation_evolve_background fuel _aH_ aH_end true forward
    conformal.

(** [primordial_inflation_spectra]: the beginning of the loop body, which
    initialises the background part of the running vector. *)
Definition spectra_init_background (y_ini : list R) : M unit :=
  _ ← set_y (index_in_a ppm) (y_ini !!! index_in_a ppm);
  _ ← set_y (index_in_phi ppm) (y_ini !!! index_in_phi ppm);
  if bool_decide (primordial_spec_type ppm = inflation_V)
     && bool_decide (primordial_spec_type ppm = inflation_V_end)
  then set_y (index_in_dphi ppm) (y_ini !!! index_in_dphi ppm)
  else mret tt.

(** [primordial_inflation_solve_inflation]: the initialisation of the
    running vector after the spectra are computed, before the field values
    at horizon crossing of [k_min] and [k_max] are searched. *)
Definition solve_inflation_init_phi_min (y_ini : list R) : M unit :=
  _ ← set_y (index_in_a ppm) (y_ini !!! index_in_a ppm);
  _ ← set_y (index_in_phi ppm) (y_ini !!! index_in_phi ppm);
  if is_inflation_V ppm
  then set_y (index_in_dphi ppm) (y_ini !!! index_in_dphi ppm)
  else mret tt.

(** ** The integration of one wavenumber *)

Record one_k_locals : Type := {
  k_tau_end : R;
  k_dtau : R;
  curvature_new : R;
  k_aH : R;
  dlnPdN : R
}.

Definition one_k_workspace (k : R) : workspace :=
  {| pipaw_N := in_size ppm; integrate := forward; time := conformal;
     k := k; zpp_over_z := 0; app_over_a := 0 |}.

Definition one_k_dtau (k : R) (s : vectors) : R :=
  primordial_inflation_pt_stepsize ppr * 2 * PI
  / MAX (sqrt (Rabs (dy s !!! index_in_dksi_re ppm
                     / y s !!! index_in_ksi_re ppm))) k.

(** The test [dtau/tau_start < smallest_allowed_variation] (without
    [fabs]).  At the first step [tau_start] is [0]: the IEEE quotient is
    then an infinity with the sign of [dtau], or NaN when [dtau] is [0]. *)
Definition one_k_step_below_precision (dtau tau_start : R) : bool :=
  if decide (tau_start = 0) then bool_decide (dtau < 0)
  else bool_decide (dtau / tau_start < smallest_allowed_variation ppr).

(** One turn of the loop over time. *)
Definition one_k_step (k : R) (l : one_k_locals) : M one_k_locals :=
  let pipaw := one_k_workspace k in
  let tau_start := k_tau_end l in
  let tau_end := tau_start + k_dtau l in
  _ ← lift (class_test (one_k_step_below_precision (k_dtau l) tau_start)
                       StepTooSmall);
  _ ← call_integrator pipaw tau_start tau_end;
  _ ← call_derivs ppm pipaw tau_end;
  s ← get_vectors;
  let dtau := one_k_dtau k s in
  let aH := dy s !!! index_in_a ppm / y s !!! index_in_a ppm in
  let curvature_old := curvature_new l in
  let z := y s !!! index_in_a ppm * dy s !!! index_in_phi ppm / aH in
  let ksi2 :=
    y s !!! index_in_ksi_re ppm * y s !!! index_in_ksi_re ppm
    + y s !!! index_in_ksi_im ppm * y s !!! index_in_ksi_im ppm in
  let curvature_new := k * k * k / 2 / PI / PI * ksi2 / z / z in
  let dlnPdN :=
    (curvature_new - curvature_old) / dtau * y s !!! index_in_a ppm
    / dy s !!! index_in_a ppm / curvature_new in
  mret {| k_tau_end := tau_end; k_dtau := dtau;
          curvature_new := curvature_new; k_aH := aH; dlnPdN := dlnPdN |}.

(** The [do ... while] loop over time, with fuel. *)
Fixpoint one_k_loop (fuel : nat) (k : R) (l : one_k_locals) : M one_k_locals :=
  match fuel with
  | O => lift Timeout
  | S fuel =>
      l ← one_k_step k l;
      if bool_decide (k / k_aH l >= primordial_inflation_ratio_max ppr)
         || bool_decide (Rabs (dlnPdN l)
                         > primordial_inflation_tol_curvature ppr)
      then one_k_loop fuel k l
      else mret l
  end.

(** Returns [(curvature, tensor)]. *)
Definition primordial_inflation_one_k (fuel : nat) (k : R) : M (R * R) :=
  let pipaw := one_k_workspace k in
  _ ← set_y (index_in_ksi_re ppm) (1 / sqrt (2 * k));
  _ ← set_y (index_in_ksi_im ppm) 0;
  _ ← set_y (index_in_dksi_re ppm) 0;
  ksi_re ← get_y (index_in_ksi_re ppm);
  _ ← set_y (index_in_dksi_im ppm) (- k * ksi_re);
  _ ← set_y (index_in_ah_re ppm) (1 / sqrt (2 * k));
  _ ← set_y (index_in_ah_im ppm) 0;
  _ ← set_y (index_in_dah_re ppm) 0;
  ah_re ← get_y (index_in_ah_re ppm);
  _ ← set_y (index_in_dah_im ppm) (- k * ah_re);
  let tau_end := 0 in
  _ ← call_derivs ppm pipaw tau_end;
  s ← get_vectors;
  let dtau := one_k_dtau k s in
  l ← one_k_loop fuel k
        {| k_tau_end := tau_end; k_dtau := dtau;
           curvature_new := _HUGE_; k_aH := 0; dlnPdN := 0 |};
  s ← get_vectors;
  let ah2 :=
    y s !!! index_in_ah_re ppm * y s !!! index_in_ah_re ppm
    + y s !!! index_in_ah_im ppm * y s !!! index_in_ah_im ppm in
  mret (curvature_new l,
        32 * k * k * k / PI * ah2 / y s !!! index_in_a ppm
        / y s !!! index_in_a ppm).

(** ** The loop over wavenumbers *)

(** One turn of the loop of [primordial_inflation_spectra]; the accumulator
    is the table [lnpk]. *)
Definition spectra_step (ppt : perturbs) (fuel : nat) (y_ini : list R)
    (table : list (list R)) (index_k : nat) : M (list (list R)) :=
  let k := exp (lnk ppm !!! index_k) in
  _ ← spectra_init_background y_ini;
  _ ← primordial_inflation_evolve_background fuel _aH_
        (k / primordial_inflation_ratio_min ppr) false forward conformal;
  '(curvature, tensors) ← primordial_inflation_one_k fuel k;
  _ ← lift (class_test (bool_decide (curvature <= 0)) NegativeSpectrum);
  _ ← lift (class_test (bool_decide (tensors <= 0)) NegativeSpectrum);
  let table := write2 table (index_md_scalars ppt) index_k (ln curvature) in
  let table := write2 table (index_md_tensors ppt) index_k (ln tensors) in
  mret table.

Fixpoint spectra_loop (ppt : perturbs) (fuel : nat) (y_ini : list R)
    (ks : list nat) (table : list (list R)) : M (list (list R)) :=
  match ks with
  | [] => mret table
  | index_k :: ks =>
      table ← spectra_step ppt fuel y_ini table index_k;
      spectra_loop ppt fuel y_ini ks table
  end.

(** Returns the tables [lnpk] and [is_non_zero] as the function leaves
    them. *)
Definition primordial_inflation_spectra (ppt : perturbs) (fuel : nat)
    (y_ini : list R) : M (list (list R) * list (list bool)) :=
  table ← spectra_loop ppt fuel y_ini (seq 0 (lnk_size ppm)) (lnpk ppm);
  let nz := write2 (is_non_zero ppm) (index_md_scalars ppt)
                   (index_ic_ad ppt) true in
  let nz := write2 nz (index_md_tensors ppt) (index_ic_ten ppt) true in
  mret (table, nz).

End Simulator.

End Primordial.

(** * Notions used in the statements *)

Module Notions.

Import Primordial.

(** A computation [m] keeps the property [I] of the running vectors, whether
    it succeeds or fails. *)
Definition preserves {A : Type} (I : vectors -> Prop) (m : M A) : Prop :=
  forall s, I s -> I (snd (m s)).

(** The property "[y[i]] holds the value [v]". *)
Definition y_is (i : nat) (v : R) (s : vectors) : Prop := y s !!! i = v.

(** [never e m]: the computation [m] does not fail with the error [e]. *)
Definition never {A : Type} (e : error) (m : M A) : Prop :=
  forall s, fst (m s) <> Err e.

(** The errors that the background evolver raises from its checks of the
    model, of the step size and of the integrator (all its errors but the
    slow-roll one). *)
Definition background_error (e : error) : bool :=
  match e with
  | UnknownPotential | UnknownSpecType | NegativePotential | PositiveSlope
  | UnphysicalHubble | IncreasingHubble | EndInflationTarget | StepTooSmall
  | IntegratorFailure => true
  | _ => false
  end.

(** The four coefficients stored for the cell [c] of the mode [m]:
    [is_non_zero], [amplitude], [tilt] and [running]. *)
Definition cell_of (st : analytic_state) (m c : nat) : bool * R * R * R :=
  (read2 (st_is_non_zero st) m c, read2 (st_amplitude st) m c,
   read2 (st_tilt st) m c, read2 (st_running st) m c).

(** The rows of the four tables for the mode [m]. *)
Definition row_of (st : analytic_state) (m : nat)
  : list bool * list R * list R * list R :=
  (st_is_non_zero st !!! m, st_amplitude st !!! m, st_tilt st !!! m,
   st_running st !!! m).

(** The four tables of a state. *)
Definition tables_of (st : analytic_state)
  : list (list bool) * list (list R) * list (list R) * list (list R) :=
  (st_is_non_zero st, st_amplitude st, st_tilt st, st_running st).

(** A table has a row for each mode, with room for every pair of initial
    conditions of that mode. *)
Definition table_sized {A : Type} `{Inhabited A} (ppm : primordial)
    (t : list (list A)) : Prop :=
  forall m, (m < md_size ppm)%nat ->
    (m < length t)%nat
    /\ let N := ic_size ppm !!! m in
       (N * (N + 1) / 2 <= length (t !!! m))%nat.

Definition state_sized (ppm : primordial) (st : analytic_state) : Prop :=
  table_sized ppm (st_is_non_zero st) /\ table_sized ppm (st_amplitude st)
  /\ table_sized ppm (st_tilt st) /\ table_sized ppm (st_running st).

(** The sizes as [primordial_indices] leaves them: [ic_ic_size] counts the
    pairs of initial conditions and [is_non_zero] is allocated. *)
Definition tables_allocated (ppm : primordial) : Prop :=
  table_sized ppm (is_non_zero ppm)
  /\ forall m, (m < md_size ppm)%nat ->
       let N := ic_size ppm !!! m in
       ic_ic_size ppm !!! m = (N * (N + 1) / 2)%nat.

End Notions.

(** * Example inputs *)

Module Examples.

Import Primordial.

(** Parameters of an analytic spectrum with an adiabatic and a CDM
    isocurvature initial condition; the other entries are not used. *)
Definition analytic_ad_cdi (As ns as_ fcdi ncdi acdi c nx ax : R)
  : analytic_parameters :=
  {| A_s := As; n_s := ns; alpha_s := as_;
     f_bi := 0; n_bi := 0; alpha_bi := 0;
     f_cdi := fcdi; n_cdi := ncdi; alpha_cdi := acdi;
     f_nid := 0; n_nid := 0; alpha_nid := 0;
     f_niv := 0; n_niv := 0; alpha_niv := 0;
     c_ad_bi := 0; n_ad_bi := 0; alpha_ad_bi := 0;
     c_ad_cdi := c; n_ad_cdi := nx; alpha_ad_cdi := ax;
     c_ad_nid := 0; n_ad_nid := 0; alpha_ad_nid := 0;
     c_ad_niv := 0; n_ad_niv := 0; alpha_ad_niv := 0;
     c_bi_cdi := 0; n_bi_cdi := 0; alpha_bi_cdi := 0;
     c_bi_nid := 0; n_bi_nid := 0; alpha_bi_nid := 0;
     c_bi_niv := 0; n_bi_niv := 0; alpha_bi_niv := 0;
     c_cdi_nid := 0; n_cdi_nid := 0; alpha_cdi_nid := 0;
     c_cdi_niv := 0; n_cdi_niv := 0; alpha_cdi_niv := 0;
     c_nid_niv := 0; n_nid_niv := 0; alpha_nid_niv := 0;
     r := 1; n_t := 0; alpha_t := 0 |}.

(** A linear potential [V(phi) = 1 - phi] around [phi_pivot = 0]. *)
Definition linear_potential : inflation_parameters :=
  {| potential := polynomial;
     V0 := 1; V1 := -1; V2 := 0; V3 := 0; V4 := 0;
     H0 := 1; H1 := -1; H2 := 0; H3 := 0; H4 := 0;
     phi_pivot := 0 |}.

(** The indices that [primordial_inflation_indices] assigns for a
    potential-based spectrum type. *)
Definition indices_V : inflation_indices :=
  {| index_in_a := 0; index_in_phi := 1; index_in_dphi := 2; in_bg_size := 3;
     index_in_ksi_re := 3; index_in_ksi_im := 4; index_in_dksi_re := 5;
     index_in_dksi_im := 6; index_in_ah_re := 7; index_in_ah_im := 8;
     index_in_dah_re := 9; index_in_dah_im := 10; in_size := 11 |}.

(** One scalar mode with the initial conditions (ad, cdi), a table of two
    wavenumbers [ln k = 1, 2] and pivot scale [k_pivot = 1]. *)
Definition make_primordial (type : primordial_spectrum_type)
    (ana : analytic_parameters) : primordial :=
  {| primordial_spec_type := type;
     k_pivot := 1;
     analytic_input := ana;
     inflation_input := linear_potential;
     md_size := 1; ic_size := [2%nat]; ic_ic_size := [3%nat];
     lnk_size := 2; lnk := [1; 2];
     lnpk := [[0; 0; 0; 0; 0; 0]];
     ddlnpk := [[0; 0; 0; 0; 0; 0]];
     is_non_zero := [[false; false; false]];
     amplitude := []; tilt := []; running := [];
     indices := indices_V |}.

Definition ppt_ad_cdi : perturbs :=
  {| has_scalars := true; has_tensors := false;
     index_md_scalars := 0; index_md_tensors := 0;
     has_ad := true; has_bi := false; has_cdi := true;
     has_nid := false; has_niv := false;
     index_ic_ad := 0; index_ic_bi := 0; index_ic_cdi := 1;
     index_ic_nid := 0; index_ic_niv := 0; index_ic_ten := 0 |}.

Definition ppm_inflation_V : primordial :=
  make_primordial inflation_V (analytic_ad_cdi 1 1 0 1 1 0 0 0 0).

Definition ppr_default : precision :=
  {| primordial_inflation_ratio_min := 100;
     primordial_inflation_ratio_max := 1 / 50;
     primordial_inflation_attractor_maxit := 10;
     primordial_inflation_bg_stepsize := 1 / 200;
     primordial_inflation_pt_stepsize := 1 / 100;
     primordial_inflation_tol_integration := 1 / 1000;
     primordial_inflation_tol_curvature := 1 / 1000;
     smallest_allowed_variation := 1 / 1000000 |}.

(** An integrator that makes one explicit Euler step on the first [N]
    components of [y]. *)
Definition euler_integrator
    (derivs : R -> list R -> list R -> result (list R)) (N : nat)
    (x_start x_end : R) (y : list R) (tol minimum_variation : R)
  : result unit * list R :=
  match derivs x_start y (replicate (length y) 0) with
  | Ok dy =>
      (Ok tt,
       fold_left
         (fun acc i => <[i := y !!! i + (x_end - x_start) * dy !!! i]> acc)
         (seq 0 N) y)
  | Err e => (Err e, y)
  | Timeout => (Timeout, y)
  end.

(** An analytic spectrum with amplitude 3 for both initial conditions and
    correlation 1 between them, before and after
    [primordial_analytic_spectrum_init]. *)
Definition ppm_full_correlation : primordial :=
  make_primordial analytic_Pk (analytic_ad_cdi 3 1 0 1 1 0 1 0 0).

Definition tables_full_correlation : primordial :=
  set_analytic_tables ppm_full_correlation
    {| one_amplitude := 3; one_tilt := 0; one_running := 0;
       one_correlation := 1;
       st_is_non_zero := [[true; true; true]];
       st_amplitude := [[3; 3; 3]];
       st_tilt := [[1; 1; 1]];
       st_running := [[0; 0; 0]] |}.

(** An analytic spectrum with amplitude 1 for both initial conditions,
    correlation 1/2 and cross tilt [n_ad_cdi = 1], before and after
    [primordial_analytic_spectrum_init]. *)
Definition ppm_cross_tilt : primordial :=
  make_primordial analytic_Pk (analytic_ad_cdi 1 1 0 1 1 0 (1 / 2) 1 0).

Definition tables_cross_tilt : primordial :=
  set_analytic_tables ppm_cross_tilt
    {| one_amplitude := 1; one_tilt := 1; one_running := 0;
       one_correlation := 1 / 2;
       st_is_non_zero := [[true; true; true]];
       st_amplitude := [[1; 1 / 2; 1]];
       st_tilt := [[1; 2; 1]];
       st_running := [[0; 0; 0]] |}.

(** A stand-in for the spline interpolation: it returns the first line of
    the table. *)
Definition first_line_interpolation (x_array : list R) (n_lines : nat)
    (array array_splined : list R) (n_columns : nat) (x : R)
    (output : list R) (result_size : nat) : result unit * list R :=
  (Ok tt, take result_size array).

End Examples.

(** * The set-up of the tables and the search of the end of inflation *)

Module Setup.

Import Primordial.

(** The failures raised before the tables are filled, and the two
    situations that the model does not follow further. *)
Inductive setup_error : Type :=
| KMinNotPositive          (* class_test(k_min <= 0.)                       *)
| KMaxNotPositive          (* class_test(k_max <= 0.)                       *)
| KPivotNotPositive        (* class_test(ppm->k_pivot <= 0.)                *)
| KPerDecadeNotPositive    (* class_test(k_per_decade_primordial <= 0.)     *)
| KPerDecadeTooSmall       (* ... <= _K_PER_DECADE_PRIMORDIAL_MIN_          *)
| InconsistentKRange       (* (kmin <= 0.) || (kmax <= kmin)                *)
| UndefinedConversion      (* (int) of a double outside the range of int,
                              or an overflow of int: undefined in C         *)
| NonPositiveAllocation.   (* class_alloc of a number of cells that is
                              negative (a failure) or zero
                              (implementation-defined)                      *)

(** The range of [int], taken to be 32 bits wide. *)
Definition INT_MIN : Z := -2147483648.
Definition INT_MAX : Z := 2147483647.

(** The conversion [(int) x] of a [double]: truncation towards zero,
    defined when the truncated value is in the range of [int]. *)
Definition c_int (x : R) : option Z :=
  let t := if decide (0 <= x) then Int_part x else (- Int_part (- x))%Z in
  if decide (INT_MIN <= t <= INT_MAX)%Z then Some t else None.

Section Rounding.

(** The value that the double-precision evaluation of an expression gives
    in place of its exact value [x].  It is applied where the code
    truncates a quotient to an integer, since a rounding error can change
    the integer there; elsewhere a [double] is an exact real. *)
Variable fl : R -> R.

(** [primordial_get_lnk_list]: returns the values stored in
    [ppm->lnk_size] and [ppm->lnk]. *)
Definition primordial_get_lnk_list (kmin kmax k_per_decade : R)
  : setup_error + (nat * list R) :=
  if bool_decide (kmin <= 0) || bool_decide (kmax <= kmin)
  then inl InconsistentKRange
  else
    match c_int (fl (ln (kmax / kmin) / ln 10 * k_per_decade)) with
    | None => inl UndefinedConversion
    | Some t =>
        let lnk_size := (t + 2)%Z in
        if decide (INT_MAX < lnk_size)%Z then inl UndefinedConversion
        else if decide (lnk_size <= 0)%Z then inl NonPositiveAllocation
        else
          inr (Z.to_nat lnk_size,
               (fun i => ln kmin + INR i * ln 10 / k_per_decade)
                 <$> seq 0 (Z.to_nat lnk_size))
    end.

End Rounding.





(** ** The spectral parameters derived from a computed spectrum *)

(** The values stored in [A_s], [n_s], [alpha_s], [beta_s], [r], [n_t] and
    [alpha_t] at the end of [primordial_init]. *)
Record spectral_parameters : Type := {
  sp_A_s : R; sp_n_s : R; sp_alpha_s : R; sp_beta_s : R;
  sp_r : R; sp_n_t : R; sp_alpha_t : R
}.

Section SpectralParameters.

Variable array_interpolate_spline :
  list R -> nat -> list R -> list R -> nat -> R -> list R -> nat ->
  result unit * list R.

(** A call [primordial_spectrum_at_k(ppm, index_md, logarithmic, x, &v)]
    whose output is one local variable, which holds [v] before the call:
    returns what it holds after the call. *)
Definition query_lnpk (ppm : primordial) (index_md : nat) (x v : R)
  : result R :=
  match primordial_spectrum_at_k array_interpolate_spline ppm index_md
          logarithmic x [v] with
  | (Ok _, out) => Ok (out !!! 0%nat)
  | (Err e, _) => Err e
  | (Timeout, _) => Timeout
  end.

(** The end of [primordial_init], after the second derivatives of the
    table are computed.  [u1] ... [u5] are the indeterminate values that the
    five local variables [lnpk_pivot], [lnpk_plus], [lnpk_minus],
    [lnpk_plusplus], [lnpk_minusminus] hold when the function is entered,
    and [beta_s0] is what [ppm->beta_s] holds then. *)
Definition primordial_init_spectral_parameters
    (k_per_decade_primordial : R) (ppt : perturbs) (ppm : primordial)
    (beta_s0 u1 u2 u3 u4 u5 : R) : result spectral_parameters :=
  let sp0 :=
    {| sp_A_s := A_s ppm; sp_n_s := n_s ppm; sp_alpha_s := alpha_s ppm;
       sp_beta_s := beta_s0;
       sp_r := r ppm; sp_n_t := n_t ppm; sp_alpha_t := alpha_t ppm |} in
  if decide (primordial_spec_type ppm <> analytic_Pk) then
    let dlnk := ln 10 / k_per_decade_primordial in
    '(sp, lnpk_pivot, lnpk_plus, lnpk_minus) ←
      (if has_scalars ppt then
         lnpk_pivot ← query_lnpk ppm (index_md_scalars ppt)
                        (ln (k_pivot ppm)) u1;
         lnpk_plus ← query_lnpk ppm (index_md_scalars ppt)
                       (ln (k_pivot ppm) + dlnk) u2;
         lnpk_minus ← query_lnpk ppm (index_md_scalars ppt)
                        (ln (k_pivot ppm) - dlnk) u3;
         let A := exp lnpk_pivot in
         let n := (lnpk_plus - lnpk_minus) / (2 * dlnk) + 1 in
         let alpha := (lnpk_plus - 2 * lnpk_pivot + lnpk_minus) / dlnk ^ 2 in
         lnpk_plusplus ← query_lnpk ppm (index_md_scalars ppt)
                           (ln (k_pivot ppm) + 2 * dlnk) u4;
         lnpk_minusminus ← query_lnpk ppm (index_md_scalars ppt)
                             (ln (k_pivot ppm) - 2 * dlnk) u5;
         let beta :=
           (lnpk_plusplus - 2 * lnpk_plus + 2 * lnpk_minus - lnpk_minusminus)
           / dlnk ^ 3 in
         Ok ({| sp_A_s := A; sp_n_s := n; sp_alpha_s := alpha;
                sp_beta_s := beta;
                sp_r := sp_r sp0; sp_n_t := sp_n_t sp0;
                sp_alpha_t := sp_alpha_t sp0 |},
             lnpk_pivot, lnpk_plus, lnpk_minus)
       else Ok (sp0, u1, u2, u3));
    if has_tensors ppt then
      lnpk_pivot ← query_lnpk ppm (index_md_tensors ppt)
                     (ln (k_pivot ppm)) lnpk_pivot;
      lnpk_plus ← query_lnpk ppm (index_md_tensors ppt)
                    (ln (k_pivot ppm) + dlnk) lnpk_plus;
      lnpk_minus ← query_lnpk ppm (index_md_tensors ppt)
                     (ln (k_pivot ppm) - dlnk) lnpk_minus;
      Ok {| sp_A_s := sp_A_s sp; sp_n_s := sp_n_s sp;
            sp_alpha_s := sp_alpha_s sp; sp_beta_s := sp_beta_s sp;
            sp_r := exp lnpk_pivot / sp_A_s sp;
            sp_n_t := (lnpk_plus - lnpk_minus) / (2 * dlnk);
            sp_alpha_t :=
              (lnpk_plus - 2 * lnpk_pivot + lnpk_minus) / dlnk ^ 2 |}
    else Ok sp
  else Ok sp0.

End SpectralParameters.

(** ** The field value at which inflation stops *)

(** The fields of [struct primordial] and [struct precision] read by
    [primordial_find_phi_stop] besides those above. *)
Record end_parameters : Type := {
  phi_end : R;
  primordial_inflation_end_dphi : R;
  primordial_inflation_end_logstep : R;
  primordial_inflation_end_phi_stop_precision : R
}.

Section FindPhiStop.

Variable ppm : primordial.
Variable pe : end_parameters.

(** The loop [do { dphi *= logstep; epsilon(phi_end - dphi) } while
    (epsilon > 1)], with fuel; returns the last [dphi]. *)
Fixpoint bracket_loop (fuel : nat) (dphi : R) : result R :=
  match fuel with
  | O => Timeout
  | S fuel =>
      let dphi := dphi * primordial_inflation_end_logstep pe in
      epsilon ← primordial_inflation_get_epsilon ppm (phi_end pe - dphi);
      if decide (epsilon > 1) then bracket_loop fuel dphi else Ok dphi
  end.

(** The bisection [do { ... } while (fabs((phi_right - phi_left)/phi_mid) >
    precision)], with fuel; returns the last [phi_mid]. *)
Fixpoint bisection_loop (fuel : nat) (phi_left phi_right : R) : result R :=
  match fuel with
  | O => Timeout
  | S fuel =>
      let phi_mid := 0.5 * (phi_left + phi_right) in
      epsilon ← primordial_inflation_get_epsilon ppm phi_mid;
      let '(phi_left, phi_right) :=
        if decide (epsilon < 1) then (phi_mid, phi_right)
        else (phi_left, phi_mid) in
      if decide (Rabs ((phi_right - phi_left) / phi_mid)
                 > primordial_inflation_end_phi_stop_precision pe)
      then bisection_loop fuel phi_left phi_right
      else Ok phi_mid
  end.

(** [primordial_find_phi_stop]: returns the value stored in
    [ppm->phi_stop]. *)
Definition primordial_find_phi_stop (fuel : nat) : result R :=
  let dphi := primordial_inflation_end_dphi pe in
  epsilon ← primordial_inflation_get_epsilon ppm (phi_end pe - dphi);
  if decide (epsilon < 1) then Ok (phi_end pe - dphi)
  else
    dphi ← bracket_loop fuel dphi;
    let phi_left := phi_end pe - dphi in
    let phi_right := phi_end pe - dphi / primordial_inflation_end_logstep pe in
    bisection_loop fuel phi_left phi_right.

End FindPhiStop.

End Setup.

(** Example inputs of the set-up. *)
Module SetupExamples.

Import Primordial Setup.


(** A rounding that returns a value slightly below the exact one, by the
    relative spacing [2^-52] of the doubles. *)
Definition round_down (x : R) : R := x * (1 - / 2 ^ 52).

(** A stand-in for the spline interpolation: it returns the value at [x] of
    the cubic [2 + x + x^2/2 + x^3]. *)
Definition cubic_interpolation (x_array : list R) (n_lines : nat)
    (array array_splined : list R) (n_columns : nat) (x : R)
    (output : list R) (result_size : nat) : result unit * list R :=
  (Ok tt, [2 + x + x ^ 2 / 2 + x ^ 3]).

(** A computed spectrum with one scalar initial condition, tabulated at
    [ln k = -100] and [ln k = 100] with the value [ln P = 2], and the pivot
    scale [k_pivot = 1]. *)
Definition ppm_flat_table : primordial :=
  {| primordial_spec_type := inflation_V;
     k_pivot := 1;
     analytic_input := Examples.analytic_ad_cdi 1 1 0 1 1 0 0 0 0;
     inflation_input := Examples.linear_potential;
     md_size := 1; ic_size := [1%nat]; ic_ic_size := [1%nat];
     lnk_size := 2; lnk := [-100; 100];
     lnpk := [[2; 2]];
     ddlnpk := [[0; 0]];
     is_non_zero := [[true]];
     amplitude := []; tilt := []; running := [];
     indices := Examples.indices_V |}.

(** A search of the end of inflation that starts at [phi_end - 1/10] and
    multiplies the distance by 10. *)
Definition pe_example : end_parameters :=
  {| phi_end := 1;
     primordial_inflation_end_dphi := 1 / 10;
     primordial_inflation_end_logstep := 10;
     primordial_inflation_end_phi_stop_precision := 1 |}.

End SetupExamples.

(** * Properties *)

Import EnergyInjection.
Import Primordial.
Import Notions.
Import Examples.

(** ** Energy injection *)

(** C8.  One call of [update_dEdtdV_dep] stores the injection rate when
    [on_the_spot] is 1, whatever the accumulator held, and otherwise one
    step of the relaxation recurrence
    [(dep_old*exp(-7 dlna) + 2e-15 dlna (nH/H) inj) / (1 + 2e-15 dlna (nH/H))]. *)
Theorem update_dEdtdV_dep_spec :
  forall (z_out dlna xe Tgas nH H : R) (params : INJ_PARAMS) (dep_old : R),
    let inj := dEdtdV_inj z_out xe Tgas params in
    (on_the_spot params = 1%Z ->
     update_dEdtdV_dep z_out dlna xe Tgas nH H params dep_old = inj)
    /\ (on_the_spot params <> 1%Z ->
        update_dEdtdV_dep z_out dlna xe Tgas nH H params dep_old
        = (dep_old * exp (- 7 * dlna) + 2e-15 * dlna * (nH / H) * inj)
          / (1 + 2e-15 * dlna * (nH / H))).
Proof.
  intros z_out dlna xe Tgas nH H params dep_old inj.
  unfold update_dEdtdV_dep. fold inj.
  split; intros Hspot; destruct (decide (on_the_spot params = 1%Z)) as [E | E];
    try contradiction; try reflexivity.
  f_equal; unfold Rdiv; ring.
Qed.

(** C9.  [dEdtdV_pbh] is a total function of its six arguments, with no
    error result; it returns 0 whenever [fpbh <= 0], whatever the other
    arguments are. *)
Theorem dEdtdV_pbh_disabled :
  forall (fpbh Mpbh z xe Tgas : R) (coll_ion : Z),
    fpbh <= 0 -> dEdtdV_pbh fpbh Mpbh z xe Tgas coll_ion = 0.
Proof.
  intros fpbh Mpbh z xe Tgas coll_ion Hf.
  unfold dEdtdV_pbh.
  destruct (decide (fpbh > 0)) as [Hpos | Hneg]; [lra | reflexivity].
Qed.

Lemma dEdtdV_pbh_disabled_witness :
  dEdtdV_pbh 0 1 1000 (1 / 2) 3000 1%Z = 0.
Proof. apply (dEdtdV_pbh_disabled 0 1 1000 (1 / 2) 3000 1%Z). lra. Defined.

(** ** The packing of pairs of initial conditions *)

Lemma half_triangle (i : nat) : (2 * (i * (i + 1) / 2) = i * (i + 1))%nat.
Proof.
  induction i as [| i IH]; [reflexivity |].
  replace (S i * (S i + 1))%nat with (i * (i + 1) + (i + 1) * 2)%nat by lia.
  rewrite Nat.div_add by lia. lia.
Qed.

Lemma index_symmetric_matrix_upper (i j N : nat) :
  (i <= j)%nat -> (j < N)%nat ->
  (2 * index_symmetric_matrix i j N + i * (i + 1) = 2 * j + 2 * N * i)%nat.
Proof.
  intros Hij HjN. unfold index_symmetric_matrix.
  destruct (decide (i <= j)%nat); [| lia].
  pose proof (half_triangle i). nia.
Qed.

Lemma index_symmetric_matrix_inj (i j i' j' N : nat) :
  (i <= j)%nat -> (j < N)%nat -> (i' <= j')%nat -> (j' < N)%nat ->
  index_symmetric_matrix i j N = index_symmetric_matrix i' j' N ->
  i = i' /\ j = j'.
Proof.
  intros H1 H2 H3 H4 E.
  pose proof (index_symmetric_matrix_upper i j N H1 H2).
  pose proof (index_symmetric_matrix_upper i' j' N H3 H4).
  rewrite E in *.
  assert (i = i').
  { destruct (Nat.lt_trichotomy i i') as [L | [L | L]];
      [exfalso | exact L | exfalso]; nia. }
  subst. lia.
Qed.

Lemma index_symmetric_matrix_bound (i j N : nat) :
  (i <= j)%nat -> (j < N)%nat ->
  (index_symmetric_matrix i j N < N * (N + 1) / 2)%nat.
Proof.
  intros H1 H2.
  pose proof (index_symmetric_matrix_upper i j N H1 H2).
  pose proof (half_triangle N).
  nia.
Qed.

Lemma elem_of_ic_pairs (N i j : nat) :
  (i, j) ∈ ic_pairs N <-> (i <= j)%nat /\ (j < N)%nat.
Proof.
  unfold ic_pairs. rewrite list_elem_of_bind. split.
  - intros (i1 & Hin & Hi1). apply list_elem_of_fmap in Hin.
    destruct Hin as (i2 & [= -> ->] & Hi2).
    apply elem_of_seq in Hi1. apply elem_of_seq in Hi2. lia.
  - intros [Hij HjN]. exists i. split.
    + apply list_elem_of_fmap. exists j. split; [reflexivity |].
      apply elem_of_seq. lia.
    + apply elem_of_seq. lia.
Qed.

Lemma elem_of_ic_pairs_offdiag (N i j : nat) :
  (i, j) ∈ ic_pairs_offdiag N <-> (i < j)%nat /\ (j < N)%nat.
Proof.
  unfold ic_pairs_offdiag. rewrite list_elem_of_bind. split.
  - intros (i1 & Hin & Hi1). apply list_elem_of_fmap in Hin.
    destruct Hin as (i2 & [= -> ->] & Hi2).
    apply elem_of_seq in Hi1. apply elem_of_seq in Hi2. lia.
  - intros [Hij HjN]. exists i. split.
    + apply list_elem_of_fmap. exists j. split; [reflexivity |].
      apply elem_of_seq. lia.
    + apply elem_of_seq. lia.
Qed.

Lemma NoDup_pairs_from (N : nat) (start : nat -> nat) :
  NoDup (i1 ← seq 0 N; (fun i2 => (i1, i2)) <$> seq (start i1) (N - start i1)).
Proof.
  apply NoDup_bind.
  - intros i i' [a b] _ _ H1 H2.
    apply list_elem_of_fmap in H1. destruct H1 as (? & [= -> ->] & _).
    apply list_elem_of_fmap in H2. destruct H2 as (? & [= -> ->] & _).
    reflexivity.
  - intros i _. apply NoDup_fmap_2; [| apply NoDup_seq].
    intros a b [= ->]. reflexivity.
  - apply NoDup_seq.
Qed.

(** The cell of [output] that belongs to a pair. *)
Lemma NoDup_cells_ic_pairs (N : nat) :
  NoDup ((fun p => index_symmetric_matrix p.1 p.2 N) <$> ic_pairs N).
Proof.
  apply NoDup_fmap_2_strong; [| apply (NoDup_pairs_from N (fun i => i))].
  intros [i j] [i' j'] H1 H2 E. simpl in E.
  apply elem_of_ic_pairs in H1. apply elem_of_ic_pairs in H2.
  destruct (index_symmetric_matrix_inj i j i' j' N) as [-> ->];
    try tauto; reflexivity.
Qed.

Lemma NoDup_cells_ic_pairs_offdiag (N : nat) :
  NoDup ((fun p => index_symmetric_matrix p.1 p.2 N) <$> ic_pairs_offdiag N).
Proof.
  apply NoDup_fmap_2_strong; [| apply (NoDup_pairs_from N (fun i => (i + 1)%nat))].
  intros [i j] [i' j'] H1 H2 E. simpl in E.
  apply elem_of_ic_pairs_offdiag in H1. apply elem_of_ic_pairs_offdiag in H2.
  destruct (index_symmetric_matrix_inj i j i' j' N) as [-> ->];
    try lia; reflexivity.
Qed.

Lemma NoDup_cells_diag (N : nat) :
  NoDup ((fun i => index_symmetric_matrix i i N) <$> seq 0 N).
Proof.
  apply NoDup_fmap_2_strong; [| apply NoDup_seq].
  intros i i' H1 H2 E.
  apply elem_of_seq in H1. apply elem_of_seq in H2.
  destruct (index_symmetric_matrix_inj i i i' i' N) as [-> _];
    try lia; reflexivity.
Qed.

(** ** Loops that write one cell per turn *)

Section FoldWrite.

Context {K : Type} (step : list R -> K -> list R) (cell : K -> nat).

Hypothesis step_length : forall o k, length (step o k) = length o.
Hypothesis step_frame :
  forall o k n, n <> cell k -> step o k !!! n = o !!! n.

Lemma fold_left_length (ks : list K) :
  forall o, length (fold_left step ks o) = length o.
Proof.
  induction ks as [| k ks IH]; intros o; simpl; [reflexivity |].
  rewrite IH. apply step_length.
Qed.

Lemma fold_left_frame (ks : list K) :
  forall o n, n ∉ cell <$> ks -> fold_left step ks o !!! n = o !!! n.
Proof.
  induction ks as [| k ks IH]; intros o n Hn; simpl; [reflexivity |].
  rewrite fmap_cons in Hn. apply not_elem_of_cons in Hn. destruct Hn as [H1 H2].
  rewrite IH by exact H2. apply step_frame. exact H1.
Qed.

(** The cell of [k0] holds, after the loop, what the turn of [k0] wrote
    there; that turn saw the initial contents in the cell of [k0] and in the
    cells that the loop does not write. *)
Lemma fold_left_at (ks : list K) :
  forall o k0,
    NoDup (cell <$> ks) -> k0 ∈ ks ->
    exists o',
      length o' = length o
      /\ (forall n, n ∉ cell <$> ks -> o' !!! n = o !!! n)
      /\ o' !!! cell k0 = o !!! cell k0
      /\ fold_left step ks o !!! cell k0 = step o' k0 !!! cell k0.
Proof.
  induction ks as [| k ks IH]; intros o k0 Hnd Hin.
  - apply elem_of_nil in Hin. contradiction.
  - rewrite fmap_cons in Hnd. apply NoDup_cons in Hnd.
    destruct Hnd as [Hk Hnd]. cbn [fold_left].
    apply elem_of_cons in Hin. destruct Hin as [-> | Hin].
    + exists o. repeat split; try reflexivity.
      apply fold_left_frame. exact Hk.
    + destruct (IH (step o k) k0 Hnd Hin) as (o' & Hlen & Hout & Hsame & Hval).
      assert (Hne : cell k0 <> cell k).
      { intros E. apply Hk. rewrite <- E.
        apply list_elem_of_fmap. exists k0. auto. }
      exists o'. split; [rewrite Hlen; apply step_length |].
      split; [| split].
      * intros n Hn. rewrite fmap_cons in Hn.
        apply not_elem_of_cons in Hn. destruct Hn as [H1 H2].
        rewrite Hout by exact H2. apply step_frame. exact H1.
      * rewrite Hsame. apply step_frame. exact Hne.
      * exact Hval.
Qed.

End FoldWrite.

(** ** Reading the spectrum table *)

Section SpectrumTableFacts.

Variable array_interpolate_spline :
  list R -> nat -> list R -> list R -> nat -> R -> list R -> nat ->
  result unit * list R.

Local Abbreviation spectrum_at_k :=
  (primordial_spectrum_at_k array_interpolate_spline).
Local Abbreviation at_lnk := (spectrum_at_lnk array_interpolate_spline).

Lemma interpolation_not_NonPositiveK ppm index_md mode lnk_val output :
  fst (interpolation array_interpolate_spline ppm index_md mode lnk_val output)
  <> Err NonPositiveK.
Proof.
  unfold interpolation.
  destruct (array_interpolate_spline _ _ _ _ _ _ _ _) as [[u | e |] out];
    simpl; try discriminate.
  destruct (decide (mode = linear)); simpl; discriminate.
Qed.

Lemma spectrum_at_lnk_not_NonPositiveK ppm index_md mode lnk_val output :
  fst (at_lnk ppm index_md mode lnk_val output) <> Err NonPositiveK.
Proof.
  unfold spectrum_at_lnk.
  destruct (_ || _).
  - destruct (decide (primordial_spec_type ppm <> analytic_Pk));
      simpl; discriminate.
  - apply interpolation_not_NonPositiveK.
Qed.

(** C10.  In linear mode an input [k <= 0] makes the call fail at once, the
    array [output] being left as it was.  In logarithmic mode the input is
    taken as [ln k] without any test on its sign: the call is the rest of
    the function run at [lnk = input], and it never fails with the
    error of the positivity test. *)
Theorem primordial_spectrum_at_k_positivity :
  forall (ppm : primordial) (index_md : nat) (input : R) (output : list R),
    (input <= 0 ->
     spectrum_at_k ppm index_md linear input output
     = (Err NonPositiveK, output))
    /\ spectrum_at_k ppm index_md logarithmic input output
       = at_lnk ppm index_md logarithmic input output
    /\ fst (spectrum_at_k ppm index_md logarithmic input output)
       <> Err NonPositiveK.
Proof.
  intros ppm index_md input output. split; [| split].
  - intros Hneg. unfold primordial_spectrum_at_k.
    destruct (decide (input <= 0)); [reflexivity | contradiction].
  - reflexivity.
  - apply spectrum_at_lnk_not_NonPositiveK.
Qed.

(** *** The loops of [primordial_spectrum_at_k] *)

Ltac norm_cells := cbn beta iota delta [fst snd] in *.

Section Loops.

Variable ppm : primordial.
Variable index_md : nat.

Local Abbreviation N := (ic_size ppm !!! index_md).
Local Abbreviation cell := (fun p : nat * nat => index_symmetric_matrix p.1 p.2 N).
Local Abbreviation dcell := (fun i : nat => index_symmetric_matrix i i N).
Local Abbreviation nz := (fun c : nat => read2 (is_non_zero ppm) index_md c).

Lemma direct_step_length k o p :
  length (direct_step ppm index_md k o p) = length o.
Proof.
  destruct p as [i j]. unfold direct_step.
  destruct (read2 _ _ _); apply length_insert.
Qed.

Lemma direct_step_frame k o p n :
  n <> cell p -> direct_step ppm index_md k o p !!! n = o !!! n.
Proof.
  destruct p as [i j]. unfold direct_step. simpl. intros Hn.
  destruct (read2 _ _ _); apply list_lookup_total_insert_ne; congruence.
Qed.

Lemma log_diag_step_length o i :
  length (log_diag_step ppm index_md o i) = length o.
Proof. apply length_insert. Qed.

Lemma log_diag_step_frame o i n :
  n <> dcell i -> log_diag_step ppm index_md o i !!! n = o !!! n.
Proof. intros Hn. apply list_lookup_total_insert_ne. congruence. Qed.

Lemma lin_diag_step_length o i :
  length (lin_diag_step ppm index_md o i) = length o.
Proof. apply length_insert. Qed.

Lemma lin_diag_step_frame o i n :
  n <> dcell i -> lin_diag_step ppm index_md o i !!! n = o !!! n.
Proof. intros Hn. apply list_lookup_total_insert_ne. congruence. Qed.

Lemma log_cross_step_length o p :
  length (log_cross_step ppm index_md o p) = length o.
Proof.
  destruct p as [i j]. unfold log_cross_step.
  destruct (read2 _ _ _); [apply length_insert | reflexivity].
Qed.

Lemma log_cross_step_frame o p n :
  n <> cell p -> log_cross_step ppm index_md o p !!! n = o !!! n.
Proof.
  destruct p as [i j]. unfold log_cross_step. simpl. intros Hn.
  destruct (read2 _ _ _); [| reflexivity].
  apply list_lookup_total_insert_ne; congruence.
Qed.

Lemma lin_cross_step_length o p :
  length (lin_cross_step ppm index_md o p) = length o.
Proof.
  destruct p as [i j]. unfold lin_cross_step.
  destruct (read2 _ _ _); apply length_insert.
Qed.

Lemma lin_cross_step_frame o p n :
  n <> cell p -> lin_cross_step ppm index_md o p !!! n = o !!! n.
Proof.
  destruct p as [i j]. unfold lin_cross_step. simpl. intros Hn.
  destruct (read2 _ _ _); apply list_lookup_total_insert_ne; congruence.
Qed.

(** A diagonal cell is not the cell of a pair [i < j]. *)
Lemma diag_not_offdiag (i : nat) :
  (i < N)%nat -> dcell i ∉ cell <$> ic_pairs_offdiag N.
Proof.
  intros Hi Hin. apply list_elem_of_fmap in Hin.
  destruct Hin as ([a b] & E & Hab). simpl in E.
  apply elem_of_ic_pairs_offdiag in Hab.
  destruct (index_symmetric_matrix_inj i i a b N); lia.
Qed.

(** The cell of a pair [i < j] is not a diagonal cell. *)
Lemma offdiag_not_diag (i j : nat) :
  (i < j)%nat -> (j < N)%nat -> cell (i, j) ∉ dcell <$> seq 0 N.
Proof.
  intros Hij Hj Hin. apply list_elem_of_fmap in Hin.
  destruct Hin as (a & E & Ha). simpl in E.
  apply elem_of_seq in Ha.
  destruct (index_symmetric_matrix_inj i j a a N); lia.
Qed.

Lemma direct_loop_at k o i j :
  (i <= j)%nat -> (j < N)%nat -> (cell (i, j) < length o)%nat ->
  fold_left (direct_step ppm index_md k) (ic_pairs N) o !!! cell (i, j)
  = primordial_analytic_spectrum ppm index_md (cell (i, j)) k.
Proof.
  intros Hij Hj Hlen. norm_cells.
  destruct (fold_left_at (direct_step ppm index_md k) cell
              (direct_step_length k) (direct_step_frame k)
              (ic_pairs N) o (i, j) (NoDup_cells_ic_pairs N))
    as (o' & Hl & _ & _ & Hval).
  { apply elem_of_ic_pairs. lia. }
  norm_cells. rewrite Hval. unfold direct_step, primordial_analytic_spectrum. simpl.
  destruct (read2 (is_non_zero ppm) index_md _);
    apply list_lookup_total_insert_eq; lia.
Qed.

Lemma log_diag_loop_at o i :
  (i < N)%nat -> (dcell i < length o)%nat ->
  fold_left (log_diag_step ppm index_md) (seq 0 N) o !!! dcell i
  = ln (o !!! dcell i).
Proof.
  intros Hi Hlen. norm_cells.
  destruct (fold_left_at (log_diag_step ppm index_md) dcell
              log_diag_step_length log_diag_step_frame
              (seq 0 N) o i (NoDup_cells_diag N))
    as (o' & Hl & _ & Hsame & Hval).
  { apply elem_of_seq. lia. }
  norm_cells. rewrite Hval. unfold log_diag_step.
  rewrite list_lookup_total_insert_eq by lia. rewrite Hsame. reflexivity.
Qed.

Lemma lin_diag_loop_at o i :
  (i < N)%nat -> (dcell i < length o)%nat ->
  fold_left (lin_diag_step ppm index_md) (seq 0 N) o !!! dcell i
  = exp (o !!! dcell i).
Proof.
  intros Hi Hlen. norm_cells.
  destruct (fold_left_at (lin_diag_step ppm index_md) dcell
              lin_diag_step_length lin_diag_step_frame
              (seq 0 N) o i (NoDup_cells_diag N))
    as (o' & Hl & _ & Hsame & Hval).
  { apply elem_of_seq. lia. }
  norm_cells. rewrite Hval. unfold lin_diag_step.
  rewrite list_lookup_total_insert_eq by lia. rewrite Hsame. reflexivity.
Qed.

Lemma log_cross_loop_at o i j :
  (i < j)%nat -> (j < N)%nat -> (cell (i, j) < length o)%nat ->
  fold_left (log_cross_step ppm index_md) (ic_pairs_offdiag N) o
    !!! cell (i, j)
  = if nz (cell (i, j))
    then o !!! cell (i, j) / sqrt (o !!! dcell i * o !!! dcell j)
    else o !!! cell (i, j).
Proof.
  intros Hij Hj Hlen. norm_cells.
  destruct (fold_left_at (log_cross_step ppm index_md) cell
              log_cross_step_length log_cross_step_frame
              (ic_pairs_offdiag N) o (i, j) (NoDup_cells_ic_pairs_offdiag N))
    as (o' & Hl & Hout & Hsame & Hval).
  { apply elem_of_ic_pairs_offdiag. lia. }
  norm_cells. rewrite Hval. unfold log_cross_step. simpl.
  destruct (read2 (is_non_zero ppm) index_md _); [| exact Hsame].
  rewrite list_lookup_total_insert_eq by lia.
  rewrite Hsame, (Hout (dcell i)), (Hout (dcell j));
    [reflexivity | apply diag_not_offdiag; lia | apply diag_not_offdiag; lia].
Qed.

Lemma lin_cross_loop_at o i j :
  (i < j)%nat -> (j < N)%nat -> (cell (i, j) < length o)%nat ->
  fold_left (lin_cross_step ppm index_md) (ic_pairs_offdiag N) o
    !!! cell (i, j)
  = if nz (cell (i, j))
    then o !!! cell (i, j) * sqrt (o !!! dcell i * o !!! dcell j)
    else 0.
Proof.
  intros Hij Hj Hlen. norm_cells.
  destruct (fold_left_at (lin_cross_step ppm index_md) cell
              lin_cross_step_length lin_cross_step_frame
              (ic_pairs_offdiag N) o (i, j) (NoDup_cells_ic_pairs_offdiag N))
    as (o' & Hl & Hout & Hsame & Hval).
  { apply elem_of_ic_pairs_offdiag. lia. }
  norm_cells. rewrite Hval. unfold lin_cross_step. simpl.
  destruct (read2 (is_non_zero ppm) index_md _);
    rewrite list_lookup_total_insert_eq by lia; [| reflexivity].
  rewrite Hsame, (Hout (dcell i)), (Hout (dcell j));
    [reflexivity | apply diag_not_offdiag; lia | apply diag_not_offdiag; lia].
Qed.

(** The array after the direct computation. *)
Lemma direct_computation_length mode lnk_val o :
  length (direct_computation ppm index_md mode lnk_val o) = length o.
Proof.
  unfold direct_computation.
  destruct (decide (mode = logarithmic)).
  - rewrite (fold_left_length _ log_cross_step_length).
    rewrite (fold_left_length _ log_diag_step_length).
    apply (fold_left_length _ (direct_step_length _)).
  - apply (fold_left_length _ (direct_step_length _)).
Qed.

Lemma direct_computation_linear lnk_val o i j :
  (i <= j)%nat -> (j < N)%nat -> (N * (N + 1) / 2 <= length o)%nat ->
  direct_computation ppm index_md linear lnk_val o !!! cell (i, j)
  = primordial_analytic_spectrum ppm index_md (cell (i, j)) (exp lnk_val).
Proof.
  intros Hij Hj Hlen. unfold direct_computation.
  destruct (decide (linear = logarithmic)); [discriminate |].
  apply direct_loop_at; try assumption.
  pose proof (index_symmetric_matrix_bound i j N Hij Hj). simpl. lia.
Qed.

Lemma direct_computation_log_diag lnk_val o i :
  (i < N)%nat -> (N * (N + 1) / 2 <= length o)%nat ->
  direct_computation ppm index_md logarithmic lnk_val o !!! dcell i
  = ln (primordial_analytic_spectrum ppm index_md (dcell i) (exp lnk_val)).
Proof.
  intros Hi Hlen. unfold direct_computation.
  destruct (decide (logarithmic = logarithmic)); [| congruence].
  pose proof (index_symmetric_matrix_bound i i N (Nat.le_refl i) Hi) as Hb.
  rewrite (fold_left_frame _ cell log_cross_step_frame)
    by (apply diag_not_offdiag; exact Hi).
  rewrite log_diag_loop_at;
    [| exact Hi
     | rewrite (fold_left_length _ (direct_step_length _)); lia].
  f_equal. apply (direct_loop_at _ o i i); simpl; lia.
Qed.

Lemma direct_computation_log_cross lnk_val o i j :
  (i < j)%nat -> (j < N)%nat -> (N * (N + 1) / 2 <= length o)%nat ->
  direct_computation ppm index_md logarithmic lnk_val o !!! cell (i, j)
  = if nz (cell (i, j))
    then primordial_analytic_spectrum ppm index_md (cell (i, j)) (exp lnk_val)
         / sqrt (ln (primordial_analytic_spectrum ppm index_md (dcell i)
                       (exp lnk_val))
                 * ln (primordial_analytic_spectrum ppm index_md (dcell j)
                         (exp lnk_val)))
    else 0.
Proof.
  intros Hij Hj Hlen. unfold direct_computation.
  destruct (decide (logarithmic = logarithmic)); [| congruence].
  pose proof (index_symmetric_matrix_bound i j N ltac:(lia) Hj) as Hb.
  pose proof (index_symmetric_matrix_bound i i N ltac:(lia) ltac:(lia)) as Hbi.
  pose proof (index_symmetric_matrix_bound j j N ltac:(lia) Hj) as Hbj.
  set (o1 := fold_left (direct_step ppm index_md (exp lnk_val)) (ic_pairs N) o).
  assert (Hl1 : length o1 = length o)
    by apply (fold_left_length _ (direct_step_length _)).
  set (o2 := fold_left (log_diag_step ppm index_md) (seq 0 N) o1).
  assert (Hl2 : length o2 = length o1)
    by apply (fold_left_length _ log_diag_step_length).
  rewrite log_cross_loop_at by (simpl in *; lia).
  assert (Hc : o2 !!! cell (i, j) = o1 !!! cell (i, j)).
  { apply (fold_left_frame _ dcell log_diag_step_frame).
    apply offdiag_not_diag; lia. }
  assert (Hdi : o2 !!! dcell i = ln (o1 !!! dcell i))
    by (apply log_diag_loop_at; simpl in *; lia).
  assert (Hdj : o2 !!! dcell j = ln (o1 !!! dcell j))
    by (apply log_diag_loop_at; simpl in *; lia).
  rewrite Hc, Hdi, Hdj. unfold o1.
  rewrite (direct_loop_at _ o i j) by (simpl in *; lia).
  rewrite (direct_loop_at _ o i i) by (simpl in *; lia).
  rewrite (direct_loop_at _ o j j) by (simpl in *; lia).
  norm_cells.
  destruct (read2 (is_non_zero ppm) index_md (index_symmetric_matrix i j N))
    eqn:Enz; [reflexivity |].
  unfold primordial_analytic_spectrum. rewrite Enz. reflexivity.
Qed.

Lemma interpolation_linear lnk_val output u o_s i j :
  array_interpolate_spline (lnk ppm) (lnk_size ppm) (lnpk ppm !!! index_md)
    (ddlnpk ppm !!! index_md) (ic_ic_size ppm !!! index_md) lnk_val output
    (ic_ic_size ppm !!! index_md) = (Ok u, o_s) ->
  (N * (N + 1) / 2 <= length o_s)%nat ->
  (i <= j)%nat -> (j < N)%nat ->
  exists out,
    interpolation array_interpolate_spline ppm index_md linear lnk_val output
    = (Ok tt, out)
    /\ out !!! cell (i, j)
       = if decide (i = j) then exp (o_s !!! dcell i)
         else if nz (cell (i, j))
              then o_s !!! cell (i, j)
                   * sqrt (exp (o_s !!! dcell i) * exp (o_s !!! dcell j))
              else 0.
Proof.
  intros Hs Hlen Hij Hj. unfold interpolation. rewrite Hs.
  destruct (decide (linear = linear)); [| congruence].
  eexists. split; [reflexivity |]. norm_cells.
  pose proof (index_symmetric_matrix_bound i j N Hij Hj) as Hb.
  pose proof (index_symmetric_matrix_bound i i N ltac:(lia) ltac:(lia)) as Hbi.
  pose proof (index_symmetric_matrix_bound j j N ltac:(lia) Hj) as Hbj.
  set (o1 := fold_left (lin_diag_step ppm index_md) (seq 0 N) o_s).
  assert (Hl1 : length o1 = length o_s)
    by apply (fold_left_length _ lin_diag_step_length).
  assert (Hd : forall a, (a < N)%nat ->
                         o1 !!! dcell a = exp (o_s !!! dcell a)).
  { intros a Ha. apply lin_diag_loop_at; [exact Ha |].
    pose proof (index_symmetric_matrix_bound a a N ltac:(lia) Ha).
    norm_cells. lia. }
  destruct (decide (i = j)) as [-> | Hne].
  - rewrite (fold_left_frame _ cell lin_cross_step_frame)
      by (apply diag_not_offdiag; exact Hj).
    apply (Hd j Hj).
  - pose proof (lin_cross_loop_at o1 i j ltac:(lia) Hj) as Hc.
    norm_cells. rewrite Hc by lia.
    rewrite (Hd i ltac:(lia)), (Hd j Hj).
    destruct (read2 (is_non_zero ppm) index_md (index_symmetric_matrix i j N));
      [| reflexivity].
    f_equal. apply (fold_left_frame _ dcell lin_diag_step_frame).
    apply (offdiag_not_diag i j); lia.
Qed.

End Loops.

(** C4.  A query whose [ln k] lies strictly outside the table fails with
    the out-of-range error, [output] untouched, when the spectrum is not
    analytic.  When it is analytic the call succeeds; every diagonal entry
    flagged non-zero is the analytic formula
    [A exp((n-1) ln(k/k_pivot) + alpha/2 ln^2(k/k_pivot))] in linear mode and
    its logarithm in logarithmic mode; a zero-flagged entry is 0 (for a
    diagonal entry, in linear mode).  A query inside the table is answered
    by [array_interpolate_spline] on the table: its result is returned as it
    is in logarithmic mode and transformed back in linear mode. *)
Theorem spectrum_at_k_table_range :
  forall (ppm : primordial) (index_md : nat) (mode : linear_or_logarithmic)
         (input : R) (output : list R),
    let N := ic_size ppm !!! index_md in
    let idx := fun i j => index_symmetric_matrix i j N in
    let lnk_val := match mode with linear => ln input | logarithmic => input end in
    let outside :=
      lnk_val > lnk ppm !!! (lnk_size ppm - 1)%nat \/ lnk_val < lnk ppm !!! 0%nat in
    let formula := fun c =>
      read2 (amplitude ppm) index_md c
      * exp ((read2 (tilt ppm) index_md c - 1) * ln (exp lnk_val / k_pivot ppm)
             + 0.5 * read2 (running ppm) index_md c
               * (ln (exp lnk_val / k_pivot ppm)) ^ 2) in
    (mode = linear -> 0 < input) ->
    (N * (N + 1) / 2 <= length output)%nat ->
    (outside -> primordial_spec_type ppm <> analytic_Pk ->
     spectrum_at_k ppm index_md mode input output = (Err OutOfRange, output))
    /\ (outside -> primordial_spec_type ppm = analytic_Pk ->
        exists out,
          spectrum_at_k ppm index_md mode input output = (Ok tt, out)
          /\ (forall i, (i < N)%nat ->
                 read2 (is_non_zero ppm) index_md (idx i i) = true ->
                 out !!! idx i i
                 = match mode with
                   | linear => formula (idx i i)
                   | logarithmic => ln (formula (idx i i))
                   end)
          /\ (forall i j, (i <= j)%nat -> (j < N)%nat ->
                 read2 (is_non_zero ppm) index_md (idx i j) = false ->
                 mode = linear \/ (i < j)%nat ->
                 out !!! idx i j = 0))
    /\ (~ outside ->
        spectrum_at_k ppm index_md mode input output
        = interpolation array_interpolate_spline ppm index_md mode lnk_val
            output
        /\ forall u o_s,
            array_interpolate_spline (lnk ppm) (lnk_size ppm)
              (lnpk ppm !!! index_md) (ddlnpk ppm !!! index_md)
              (ic_ic_size ppm !!! index_md) lnk_val output
              (ic_ic_size ppm !!! index_md) = (Ok u, o_s) ->
            (mode = logarithmic ->
             spectrum_at_k ppm index_md mode input output = (Ok tt, o_s))
            /\ (mode = linear -> (N * (N + 1) / 2 <= length o_s)%nat ->
                forall i j, (i <= j)%nat -> (j < N)%nat ->
                  exists out,
                    spectrum_at_k ppm index_md mode input output = (Ok tt, out)
                    /\ out !!! idx i j
                       = if decide (i = j) then exp (o_s !!! idx i i)
                         else if read2 (is_non_zero ppm) index_md (idx i j)
                              then o_s !!! idx i j
                                   * sqrt (exp (o_s !!! idx i i)
                                           * exp (o_s !!! idx j j))
                              else 0)).
Proof.
  intros ppm index_md mode input output N idx lnk_val outside formula
         Hpos Hlen.
  assert (Hk : spectrum_at_k ppm index_md mode input output
               = at_lnk ppm index_md mode lnk_val output).
  { unfold primordial_spectrum_at_k, lnk_val. destruct mode; [| reflexivity].
    destruct (decide (input <= 0)); [| reflexivity].
    specialize (Hpos eq_refl). lra. }
  rewrite Hk. unfold spectrum_at_lnk.
  assert (Hout : outside ->
                 bool_decide (lnk_val > lnk ppm !!! (lnk_size ppm - 1)%nat)
                 || bool_decide (lnk_val < lnk ppm !!! 0%nat) = true).
  { intros [H | H]; apply orb_true_iff; [left | right];
      apply bool_decide_eq_true_2; exact H. }
  assert (Hin : ~ outside ->
                bool_decide (lnk_val > lnk ppm !!! (lnk_size ppm - 1)%nat)
                || bool_decide (lnk_val < lnk ppm !!! 0%nat) = false).
  { intros H. apply orb_false_iff. split; apply bool_decide_eq_false_2;
      intros H'; apply H; [left | right]; exact H'. }
  split; [| split].
  - intros Ho Hna. rewrite (Hout Ho).
    destruct (decide (primordial_spec_type ppm <> analytic_Pk));
      [reflexivity | contradiction].
  - intros Ho Ha. rewrite (Hout Ho).
    destruct (decide (primordial_spec_type ppm <> analytic_Pk));
      [contradiction |].
    eexists. split; [reflexivity |]. split.
    + intros i Hi Hnz. unfold idx, N in *. destruct mode.
      * pose proof (direct_computation_linear ppm index_md lnk_val output i i
                      ltac:(lia) Hi Hlen) as H.
        norm_cells. rewrite H. unfold primordial_analytic_spectrum.
        rewrite Hnz. reflexivity.
      * pose proof (direct_computation_log_diag ppm index_md lnk_val output i
                      Hi Hlen) as H.
        norm_cells. rewrite H. unfold primordial_analytic_spectrum.
        rewrite Hnz. reflexivity.
    + intros i j Hij Hj Hnz Hcase. unfold idx, N in *. destruct mode.
      * pose proof (direct_computation_linear ppm index_md lnk_val output i j
                      Hij Hj Hlen) as H.
        norm_cells. rewrite H. unfold primordial_analytic_spectrum.
        rewrite Hnz. reflexivity.
      * destruct Hcase as [Hc | Hc]; [discriminate |].
        pose proof (direct_computation_log_cross ppm index_md lnk_val output
                      i j Hc Hj Hlen) as H.
        norm_cells. rewrite H, Hnz. reflexivity.
  - intros Hni. rewrite (Hin Hni). split; [reflexivity |].
    intros u o_s Hs. split.
    + intros ->. unfold interpolation. rewrite Hs. reflexivity.
    + intros -> Hlo i j Hij Hj.
      exact (interpolation_linear ppm index_md lnk_val output u o_s i j
               Hs Hlo Hij Hj).
Qed.

End SpectrumTableFacts.

(** ** The running vector of the inflation simulator *)

Lemma preserves_bind {A B : Type} (I : vectors -> Prop) (m : M A)
    (f : A -> M B) :
  preserves I m -> (forall a, preserves I (f a)) -> preserves I (m ≫= f).
Proof.
  intros Hm Hf s Hs. unfold mbind, M_bind.
  specialize (Hm s Hs).
  destruct (m s) as [[a | e |] s']; simpl in *; auto.
  apply Hf; assumption.
Qed.

Lemma preserves_ret {A : Type} (I : vectors -> Prop) (a : A) :
  preserves I (mret a).
Proof. intros s Hs; exact Hs. Qed.

Lemma preserves_lift {A : Type} (I : vectors -> Prop) (r : result A) :
  preserves I (lift r).
Proof. intros s Hs; exact Hs. Qed.

Lemma preserves_get_vectors (I : vectors -> Prop) : preserves I get_vectors.
Proof. intros s Hs; exact Hs. Qed.

Lemma preserves_get_y (I : vectors -> Prop) i : preserves I (get_y i).
Proof. intros s Hs; exact Hs. Qed.

Lemma preserves_get_dy (I : vectors -> Prop) i : preserves I (get_dy i).
Proof. intros s Hs; exact Hs. Qed.

Lemma preserves_set_y_ne i v j w :
  j <> i -> preserves (y_is i v) (set_y j w).
Proof.
  intros Hne s Hs. unfold y_is, set_y in *; simpl.
  rewrite list_lookup_total_insert_ne; assumption.
Qed.

Lemma preserves_set_dy i v j w : preserves (y_is i v) (set_dy j w).
Proof. intros s Hs; exact Hs. Qed.

Lemma preserves_call_derivs i v ppm pipaw tau :
  preserves (y_is i v) (call_derivs ppm pipaw tau).
Proof.
  intros s Hs. unfold call_derivs.
  destruct (primordial_inflation_derivs ppm pipaw tau (y s) (dy s));
    simpl; exact Hs.
Qed.

Create HintDb frame.

#[local] Hint Resolve preserves_ret preserves_lift preserves_get_vectors
  preserves_get_y preserves_get_dy preserves_set_dy preserves_call_derivs
  : frame.

Section RunningVector.

Variable generic_integrator :
  (R -> list R -> list R -> result (list R)) -> nat -> R -> R -> list R ->
  R -> R -> result unit * list R.

Variable ppm : primordial.
Variable ppr : precision.

Lemma spectrum_type_never_both :
  bool_decide (primordial_spec_type ppm = inflation_V)
  && bool_decide (primordial_spec_type ppm = inflation_V_end) = false.
Proof.
  destruct (primordial_spec_type ppm); reflexivity.
Qed.

(** C1 (as the code behaves).  The initialisation of the running vector at
    the beginning of each turn of the loop over wavenumbers leaves
    [y[index_in_dphi]] as the previous turn left it, whatever the spectrum
    type; and the check of the duration of inflation after the pivot does not
    depend on the field velocity [dphidt_pivot] found by the attractor
    solver. *)
Theorem background_initialisation_skips_dphi :
  forall (y_ini : list R) (s : vectors),
    index_in_dphi ppm <> index_in_a ppm ->
    index_in_dphi ppm <> index_in_phi ppm ->
    y (snd (spectra_init_background ppm y_ini s)) !!! index_in_dphi ppm
    = y s !!! index_in_dphi ppm
    /\ forall fuel a_pivot d1 d2,
        solve_inflation_check_after_pivot generic_integrator ppm ppr fuel
          a_pivot d1 s
        = solve_inflation_check_after_pivot generic_integrator ppm ppr fuel
            a_pivot d2 s.
Proof.
  intros y_ini s Ha Hphi. split.
  - unfold spectra_init_background.
    rewrite spectrum_type_never_both.
    unfold mbind, M_bind, set_y, mret, M_ret; simpl.
    rewrite !list_lookup_total_insert_ne by congruence. reflexivity.
  - intros fuel a_pivot d1 d2.
    unfold solve_inflation_check_after_pivot.
    rewrite spectrum_type_never_both. reflexivity.
Qed.

(** *** The backward integration of a potential-based model *)

Ltac frame :=
  repeat lazymatch goal with
    | |- preserves _ (_ ≫= _) => apply preserves_bind; [ | intros ? ]
    | |- preserves _ (if ?b then _ else _) => destruct b
    | |- preserves _ (match ?t with _ => _ end) => destruct t
    | |- preserves _ (let _ := _ in _) => cbv zeta
    | |- _ => solve [eauto with frame]
    end.

Section Backward.

Hypothesis integrator_frame :
  forall derivs N x_start x_end yv tol minimum_variation i,
    (N <= i)%nat ->
    snd (generic_integrator derivs N x_start x_end yv tol minimum_variation)
      !!! i = yv !!! i.

Hypothesis potential_based : is_inflation_V ppm = true.
Hypothesis indices_assigned : indices ppm = primordial_inflation_indices ppm.

Lemma index_values :
  index_in_a ppm = 0%nat /\ index_in_phi ppm = 1%nat
  /\ index_in_dphi ppm = 2%nat /\ in_bg_size ppm = 3%nat.
Proof.
  pose proof (f_equal index_in_a indices_assigned) as Ha.
  pose proof (f_equal index_in_phi indices_assigned) as Hp.
  pose proof (f_equal index_in_dphi indices_assigned) as Hd.
  pose proof (f_equal in_bg_size indices_assigned) as Hs.
  unfold primordial_inflation_indices in *.
  rewrite potential_based in *. simpl in *. auto.
Qed.

Lemma backward_dimension time :
  pipaw_N (evolve_workspace ppm backward time) = (in_bg_size ppm - 1)%nat.
Proof.
  unfold evolve_workspace. rewrite potential_based. reflexivity.
Qed.

Lemma preserves_call_integrator v time x_start x_end :
  preserves (y_is (index_in_dphi ppm) v)
    (call_integrator generic_integrator ppm ppr
       (evolve_workspace ppm backward time) x_start x_end).
Proof.
  intros s Hs. unfold call_integrator, y_is in *.
  destruct index_values as (_ & _ & Hd & Hsz).
  assert (Hle : (pipaw_N (evolve_workspace ppm backward time)
                 <= index_in_dphi ppm)%nat)
    by (rewrite backward_dimension, Hd, Hsz; simpl; lia).
  pose proof (integrator_frame
    (primordial_inflation_derivs ppm (evolve_workspace ppm backward time))
    _ x_start x_end (y s)
    (primordial_inflation_tol_integration ppr)
    (smallest_allowed_variation ppr) _ Hle) as Hf.
  destruct (generic_integrator _ _ _ _ _ _ _) as [[u | e |] y'];
    simpl in *; congruence.
Qed.

Lemma preserves_evolve_step v time target sign_dtau check_epsilon l :
  preserves (y_is (index_in_dphi ppm) v)
    (evolve_step generic_integrator ppm ppr
       (evolve_workspace ppm backward time) target sign_dtau check_epsilon
       backward l).
Proof.
  unfold evolve_step, take_step, check_epsilon_step.
  pose proof (preserves_call_integrator v time) as Hint.
  frame.
Qed.

Lemma preserves_evolve_loop v time target stop sign_dtau check_epsilon fuel :
  forall l,
    preserves (y_is (index_in_dphi ppm) v)
      (evolve_loop generic_integrator ppm ppr fuel
         (evolve_workspace ppm backward time) target stop sign_dtau
         check_epsilon backward l).
Proof.
  induction fuel as [| fuel IH]; intros l; simpl;
    destruct (decide (sign_dtau * (quantity l - stop) < 0)); auto with frame.
  apply preserves_bind; [apply preserves_evolve_step | intros l'; apply IH].
Qed.

Lemma preserves_evolve_background v fuel target stop check_epsilon time :
  preserves (y_is (index_in_dphi ppm) v)
    (primordial_inflation_evolve_background generic_integrator ppm ppr fuel
       target stop check_epsilon backward time).
Proof.
  destruct index_values as (Ha & Hp & Hd & _).
  assert (index_in_a ppm <> index_in_dphi ppm) by lia.
  assert (index_in_phi ppm <> index_in_dphi ppm) by lia.
  unfold primordial_inflation_evolve_background. cbv zeta.
  apply preserves_bind.
  { unfold evolve_start. frame. }
  intros l0. apply preserves_bind; [apply preserves_evolve_loop |].
  intros l. unfold evolve_finish.
  pose proof (preserves_set_y_ne (index_in_dphi ppm) v (index_in_a ppm)).
  pose proof (preserves_set_y_ne (index_in_dphi ppm) v (index_in_phi ppm)).
  replace (bool_decide (backward = forward)) with false by reflexivity.
  simpl andb. frame.
Qed.

End Backward.

(** C7.  For a potential-based spectrum type whose indices are the ones
    assigned by [primordial_inflation_indices], and an integrator that only
    writes the components of [y] below the dimension it is given: a
    backward call of [primordial_inflation_evolve_background] integrates a
    system of dimension [in_bg_size - 1]; the derivative function in that
    mode gives the same result whatever [y[index_in_dphi]] holds and leaves
    [dy[index_in_dphi]] as it was; and the call returns, with success or
    failure, with [y[index_in_dphi]] unchanged. *)
Theorem backward_drops_field_momentum :
  (forall derivs N x_start x_end yv tol minimum_variation i,
      (N <= i)%nat ->
      snd (generic_integrator derivs N x_start x_end yv tol minimum_variation)
        !!! i = yv !!! i) ->
  is_inflation_V ppm = true ->
  indices ppm = primordial_inflation_indices ppm ->
  forall (time : time_definition),
    let pipaw := evolve_workspace ppm backward time in
    pipaw_N pipaw = (in_bg_size ppm - 1)%nat
    /\ (forall tau yv dyv v,
          primordial_inflation_derivs ppm pipaw tau
            (<[index_in_dphi ppm := v]> yv) dyv
          = primordial_inflation_derivs ppm pipaw tau yv dyv)
    /\ (forall tau yv dyv dyv',
          primordial_inflation_derivs ppm pipaw tau yv dyv = Ok dyv' ->
          dyv' !!! index_in_dphi ppm = dyv !!! index_in_dphi ppm)
    /\ (forall fuel target stop check_epsilon s,
          y (snd (primordial_inflation_evolve_background generic_integrator
                    ppm ppr fuel target stop check_epsilon backward time s))
            !!! index_in_dphi ppm
          = y s !!! index_in_dphi ppm).
Proof.
  intros Hframe HV Hidx time pipaw.
  destruct (index_values HV Hidx) as (Ha & Hp & Hd & Hsz).
  assert (HN : pipaw_N pipaw = (in_bg_size ppm - 1)%nat)
    by (apply backward_dimension; assumption).
  assert (Htype : primordial_spec_type ppm = inflation_V
                  \/ primordial_spec_type ppm = inflation_V_end).
  { unfold is_inflation_V in HV.
    destruct (primordial_spec_type ppm); simpl in HV; auto; discriminate. }
  split; [exact HN |]. split; [| split].
  - intros tau yv dyv v. unfold primordial_inflation_derivs.
    rewrite Ha, Hp, Hd.
    assert (Hback : integrate pipaw = backward) by reflexivity.
    rewrite Hback.
    destruct (decide (pipaw_N pipaw <= in_bg_size ppm)%nat) as [_ | Hgt];
      [| exfalso; lia].
    assert (E0 : <[2%nat := v]> yv !!! 0%nat = yv !!! 0%nat)
      by (apply list_lookup_total_insert_ne; lia).
    assert (E1 : <[2%nat := v]> yv !!! 1%nat = yv !!! 1%nat)
      by (apply list_lookup_total_insert_ne; lia).
    rewrite E1.
    destruct Htype as [-> | ->];
      destruct (primordial_inflation_potential ppm (yv !!! 1%nat))
        as [[[V dV] ddV] | e |]; simpl; rewrite ?E0; reflexivity.
  - intros tau yv dyv dyv'. unfold primordial_inflation_derivs.
    rewrite Ha, Hp, Hd.
    assert (Hback : integrate pipaw = backward) by reflexivity.
    rewrite Hback.
    destruct (decide (pipaw_N pipaw <= in_bg_size ppm)%nat) as [_ | Hgt];
      [| exfalso; lia].
    destruct Htype as [-> | ->];
      destruct (primordial_inflation_potential ppm (yv !!! 1%nat))
        as [[[V dV] ddV] | e |]; simpl; try discriminate;
      intros [= <-]; rewrite !list_lookup_total_insert_ne by lia; reflexivity.
  - intros fuel target stop check_epsilon s.
    apply (preserves_evolve_background Hframe HV Hidx
             (y s !!! index_in_dphi ppm) fuel target stop check_epsilon time s).
    reflexivity.
Qed.

End RunningVector.

Example spectra_init_background_stale_dphi :
  spectra_init_background ppm_inflation_V [1; 2; 3]
    {| y := [7; 8; 9]; dy := [0; 0; 0] |}
  = (Ok tt, {| y := [1; 2; 9]; dy := [0; 0; 0] |}).
Proof. reflexivity. Qed.

Lemma background_initialisation_skips_dphi_witness :
  y (snd (spectra_init_background ppm_inflation_V [1; 2; 3]
            {| y := [7; 8; 9]; dy := [0; 0; 0] |})) !!! 2%nat = 9
  /\ solve_inflation_check_after_pivot euler_integrator ppm_inflation_V
       ppr_default 3 1 5 {| y := [7; 8; 9]; dy := [0; 0; 0] |}
     = solve_inflation_check_after_pivot euler_integrator ppm_inflation_V
         ppr_default 3 1 6 {| y := [7; 8; 9]; dy := [0; 0; 0] |}.
Proof.
  destruct (background_initialisation_skips_dphi euler_integrator
              ppm_inflation_V ppr_default [1; 2; 3]
              {| y := [7; 8; 9]; dy := [0; 0; 0] |})
    as [H1 H2]; [simpl; lia | simpl; lia |].
  split; [exact H1 | exact (H2 3%nat 1 5 6)].
Defined.

Lemma euler_integrator_frame :
  forall derivs N x_start x_end yv tol minimum_variation i,
    (N <= i)%nat ->
    snd (euler_integrator derivs N x_start x_end yv tol minimum_variation)
      !!! i = yv !!! i.
Proof.
  intros derivs N x_start x_end yv tol mv i Hle. unfold euler_integrator.
  destruct (derivs x_start yv (replicate (length yv) 0)) as [d | e |];
    simpl; try reflexivity.
  assert (Hgen : forall (ks : list nat) (acc : list R),
             (forall j, In j ks -> j <> i) ->
             fold_left
               (fun acc j => <[j := yv !!! j + (x_end - x_start) * d !!! j]> acc)
               ks acc !!! i = acc !!! i).
  { induction ks as [| j ks IH]; intros acc Hks; simpl; [reflexivity |].
    rewrite IH by (intros j' Hj'; apply Hks; right; exact Hj').
    apply list_lookup_total_insert_ne. apply Hks. left; reflexivity. }
  apply Hgen. intros j Hj. apply in_seq in Hj. lia.
Qed.

Lemma backward_drops_field_momentum_witness :
  y (snd (primordial_inflation_evolve_background euler_integrator
            ppm_inflation_V ppr_default 5 _aH_ 1 true backward conformal
            {| y := [1; 0; 9]; dy := [0; 0; 0] |})) !!! 2%nat = 9.
Proof.
  exact (proj2 (proj2 (proj2
           (backward_drops_field_momentum euler_integrator ppm_inflation_V
              ppr_default euler_integrator_frame eq_refl eq_refl conformal)))
           5%nat _aH_ 1 true {| y := [1; 0; 9]; dy := [0; 0; 0] |}).
Defined.

(** ** Errors raised by the background evolver *)

Lemma M_bind_unfold {A B : Type} (m : M A) (f : A -> M B) (s : vectors) :
  (m ≫= f) s
  = match m s with
    | (Ok a, s') => f a s'
    | (Err e, s') => (Err e, s')
    | (Timeout, s') => (Timeout, s')
    end.
Proof. reflexivity. Qed.

Lemma never_bind {A B : Type} (e : error) (m : M A) (f : A -> M B) :
  never e m -> (forall a, never e (f a)) -> never e (m ≫= f).
Proof.
  intros Hm Hf s. rewrite M_bind_unfold.
  specialize (Hm s). destruct (m s) as [[a | e' |] s']; simpl in *.
  - apply Hf.
  - intros [= ->]. apply Hm. reflexivity.
  - discriminate.
Qed.

Lemma never_ret {A : Type} (e : error) (a : A) : never e (mret a).
Proof. intros s; discriminate. Qed.

Lemma never_get_vectors e : never e get_vectors.
Proof. intros s; discriminate. Qed.

Lemma never_get_y e i : never e (get_y i).
Proof. intros s; discriminate. Qed.

Lemma never_get_dy e i : never e (get_dy i).
Proof. intros s; discriminate. Qed.

Lemma never_set_y e i v : never e (set_y i v).
Proof. intros s; discriminate. Qed.

Lemma never_lift {A : Type} (e : error) (r : result A) :
  r <> Err e -> never e (lift r).
Proof. intros Hr s; exact Hr. Qed.

Lemma potential_errors ppm phi e :
  primordial_inflation_potential ppm phi = Err e -> e = UnknownPotential.
Proof.
  unfold primordial_inflation_potential.
  destruct (potential ppm); intros [= <-]; reflexivity.
Qed.

Lemma check_potential_errors ppm phi e :
  primordial_inflation_check_potential ppm phi = Err e ->
  e = UnknownPotential \/ e = NegativePotential \/ e = PositiveSlope.
Proof.
  unfold primordial_inflation_check_potential.
  destruct (primordial_inflation_potential ppm phi)
    as [[[V dV] ddV] | e' |] eqn:E; simpl; try discriminate.
  - unfold class_test.
    destruct (bool_decide (V <= 0)); simpl; [intros [= <-]; auto |].
    destruct (bool_decide (dV >= 0)); simpl; [intros [= <-]; auto |].
    discriminate.
  - intros [= <-]. left. eapply potential_errors; eassumption.
Qed.

Lemma check_hubble_errors ppm phi e :
  primordial_inflation_check_hubble ppm phi = Err e ->
  e = UnphysicalHubble \/ e = IncreasingHubble.
Proof.
  unfold primordial_inflation_check_hubble.
  destruct (primordial_inflation_hubble ppm phi) as [[[H dH] ddH] dddH].
  unfold class_test.
  destruct (bool_decide (H < 0)); simpl; [intros [= <-]; auto |].
  destruct (bool_decide (dH > 0)); simpl; [intros [= <-]; auto |].
  discriminate.
Qed.

Lemma get_epsilon_errors ppm phi e :
  primordial_inflation_get_epsilon ppm phi = Err e ->
  e = UnknownPotential \/ e = UnknownSpecType.
Proof.
  unfold primordial_inflation_get_epsilon.
  destruct (primordial_spec_type ppm); try (intros [= <-]; auto);
    try (destruct (primordial_inflation_potential ppm phi)
           as [[[V dV] ddV] | e' |] eqn:E; simpl; try discriminate;
         intros [= <-]; left; eapply potential_errors; eassumption).
Qed.

Lemma derivs_errors ppm pipaw tau yv dyv e :
  primordial_inflation_derivs ppm pipaw tau yv dyv = Err e ->
  e = UnknownPotential \/ e = UnknownSpecType.
Proof.
  unfold primordial_inflation_derivs.
  destruct (decide (pipaw_N pipaw <= in_bg_size ppm)%nat);
    destruct (primordial_spec_type ppm); simpl;
    try (intros [= <-]; auto);
    try (destruct (primordial_inflation_hubble ppm _) as [[[H dH] ddH] dddH];
         simpl; discriminate);
    destruct (primordial_inflation_potential ppm _)
      as [[[V dV] ddV] | e' |] eqn:E; simpl;
    try (intros [= <-]; left; eapply potential_errors; eassumption);
    destruct (integrate pipaw); simpl; discriminate.
Qed.

Lemma never_call_derivs e ppm pipaw tau :
  background_error e = false -> never e (call_derivs ppm pipaw tau).
Proof.
  intros Hb s. unfold call_derivs.
  destruct (primordial_inflation_derivs ppm pipaw tau (y s) (dy s))
    as [d | e' |] eqn:E; simpl; try discriminate.
  intros [= ->]. apply derivs_errors in E.
  destruct E as [-> | ->]; discriminate Hb.
Qed.

Lemma never_check_potential e ppm phi :
  background_error e = false ->
  primordial_inflation_check_potential ppm phi <> Err e.
Proof.
  intros Hb E. apply check_potential_errors in E.
  destruct E as [-> | [-> | ->]]; discriminate Hb.
Qed.

Lemma never_get_epsilon e ppm phi :
  background_error e = false ->
  primordial_inflation_get_epsilon ppm phi <> Err e.
Proof.
  intros Hb E. apply get_epsilon_errors in E.
  destruct E as [-> | ->]; discriminate Hb.
Qed.

Section SlowRoll.

Variable generic_integrator :
  (R -> list R -> list R -> result (list R)) -> nat -> R -> R -> list R ->
  R -> R -> result unit * list R.

Variable ppm : primordial.
Variable ppr : precision.

Local Abbreviation evolve_step' := (evolve_step generic_integrator ppm ppr).
Local Abbreviation take_step' := (take_step generic_integrator ppm ppr).
Local Abbreviation accepted' := (accepted generic_integrator ppm ppr).

Lemma never_call_integrator e pipaw x_start x_end :
  background_error e = false ->
  never e (call_integrator generic_integrator ppm ppr pipaw x_start x_end).
Proof.
  intros Hb s. unfold call_integrator.
  destruct (generic_integrator _ _ _ _ _ _ _) as [[u | e' |] y']; simpl;
    try discriminate.
  intros [= <-]. discriminate Hb.
Qed.

Lemma never_take_step e pipaw l :
  background_error e = false -> never e (take_step' pipaw l).
Proof.
  intros Hb. unfold take_step.
  apply never_bind; [apply never_get_y | intros phi].
  apply never_bind.
  { apply never_lift. destruct (is_inflation_V ppm).
    - pose proof (never_check_potential e ppm phi Hb) as Hc.
      destruct (primordial_inflation_check_potential ppm phi);
        simpl; congruence.
    - destruct (primordial_inflation_check_hubble ppm phi) eqn:E;
        simpl; try discriminate.
      apply check_hubble_errors in E. intros [= ->].
      destruct E as [-> | ->]; discriminate Hb. }
  intros _. apply never_bind.
  { apply never_lift. unfold class_test.
    destruct (step_below_precision ppr (dtau l) (tau_end l));
      [intros [= <-]; discriminate Hb | discriminate]. }
  intros _. apply never_bind; [| intros _; apply never_ret].
  apply never_call_integrator. exact Hb.
Qed.

(** The part of a turn that follows the check of epsilon. *)
Lemma never_after_epsilon e pipaw target sign_dtau direction t eps :
  background_error e = false ->
  never e
    (_ ← call_derivs ppm pipaw t;
     s ← get_vectors;
     let aH := dy s !!! index_in_a ppm / y s !!! index_in_a ppm in
     let dtau := new_dtau ppm ppr direction sign_dtau aH s in
     let quantity := new_quantity ppm target aH dtau s in
     mret {| tau_end := t; dtau := dtau; epsilon := eps;
             aH := aH; quantity := quantity |}).
Proof.
  intros Hb.
  apply never_bind; [apply never_call_derivs; exact Hb | intros _].
  apply never_bind; [apply never_get_vectors | intros s].
  apply never_ret.
Qed.

(** With [check_epsilon] set, a turn entered with [epsilon = e_old] fails
    with the slow-roll error exactly when its time step is taken and epsilon
    at the new field value is greater than 1 while [e_old <= 1]. *)
Lemma evolve_step_slow_roll pipaw target sign_dtau direction l s :
  fst (evolve_step' pipaw target sign_dtau true direction l s)
  = Err SlowRollViolated
  <-> exists t s_next e_new,
      take_step' pipaw l s = (Ok t, s_next)
      /\ epsilon_at ppm s_next = Ok e_new
      /\ epsilon l <= 1 /\ e_new > 1.
Proof.
  unfold evolve_step. rewrite M_bind_unfold.
  pose proof (never_take_step SlowRollViolated pipaw l eq_refl s) as Hts.
  destruct (take_step' pipaw l s) as [[t | e |] s1] eqn:Et; simpl in Hts.
  2: { simpl. split; [intros H; congruence |].
       intros (t & s2 & e2 & H & _); discriminate. }
  2: { simpl. split; [discriminate |].
       intros (t & s2 & e2 & H & _); discriminate. }
  rewrite M_bind_unfold. unfold check_epsilon_step.
  rewrite M_bind_unfold. unfold get_y at 1. cbv beta iota.
  rewrite M_bind_unfold. unfold lift at 1. unfold epsilon_at.
  destruct (primordial_inflation_get_epsilon ppm (y s1 !!! index_in_phi ppm))
    as [eps | e |] eqn:Ee.
  2: { simpl. pose proof (get_epsilon_errors _ _ _ Ee) as Hk. split.
       - intros [= ->]. destruct Hk; discriminate.
       - intros (t' & s2 & e2 & [= <- <-] & H & _). congruence. }
  2: { simpl. split; [discriminate |].
       intros (t' & s2 & e2 & [= <- <-] & H & _). congruence. }
  rewrite M_bind_unfold. unfold lift at 1, class_test.
  destruct (bool_decide (eps > 1)) eqn:E1;
    destruct (bool_decide (epsilon l <= 1)) eqn:E2; simpl andb; cbv iota.
  - simpl. split; [intros _ | reflexivity].
    apply bool_decide_eq_true_1 in E1. apply bool_decide_eq_true_1 in E2.
    exists t, s1, eps. rewrite Ee. auto.
  - split.
    + intros H. exfalso.
      apply (never_after_epsilon SlowRollViolated pipaw target sign_dtau
               direction t eps eq_refl s1).
      exact H.
    + intros (t' & s2 & e2 & [= <- <-] & H & Hle & Hgt).
      apply bool_decide_eq_false_1 in E2. contradiction.
  - split.
    + intros H. exfalso.
      apply (never_after_epsilon SlowRollViolated pipaw target sign_dtau
               direction t eps eq_refl s1).
      exact H.
    + intros (t' & s2 & e2 & [= <- <-] & H & Hle & Hgt).
      apply bool_decide_eq_false_1 in E1. rewrite Ee in H.
      injection H as ->. contradiction.
  - split.
    + intros H. exfalso.
      apply (never_after_epsilon SlowRollViolated pipaw target sign_dtau
               direction t eps eq_refl s1).
      exact H.
    + intros (t' & s2 & e2 & [= <- <-] & H & Hle & Hgt).
      apply bool_decide_eq_false_1 in E2. contradiction.
Qed.

(** After a completed turn, [epsilon] is the value of epsilon at the field
    value that the running vector holds. *)
Lemma evolve_step_epsilon pipaw target sign_dtau direction l s l1 s1 :
  evolve_step' pipaw target sign_dtau true direction l s = (Ok l1, s1) ->
  epsilon_at ppm s1 = Ok (epsilon l1).
Proof.
  unfold evolve_step. rewrite M_bind_unfold.
  destruct (take_step' pipaw l s) as [[t | e |] s2]; try discriminate.
  rewrite M_bind_unfold. unfold check_epsilon_step.
  rewrite M_bind_unfold. unfold get_y at 1. cbv beta iota.
  rewrite M_bind_unfold. unfold lift at 1.
  destruct (primordial_inflation_get_epsilon ppm (y s2 !!! index_in_phi ppm))
    as [eps | e |] eqn:Ee; try discriminate.
  rewrite M_bind_unfold. unfold lift at 1, class_test.
  destruct (bool_decide (eps > 1) && bool_decide (epsilon l <= 1));
    try discriminate.
  cbv iota beta. unfold mret at 1, M_ret at 1. cbv iota beta.
  rewrite M_bind_unfold. unfold call_derivs.
  destruct (primordial_inflation_derivs ppm pipaw t (y s2) (dy s2))
    as [d | e |]; try discriminate.
  cbv iota beta. intros [= <- <-]. unfold epsilon_at. simpl. exact Ee.
Qed.

Lemma evolve_start_epsilon pipaw target direction s l0 s0 :
  evolve_start ppm ppr pipaw target true direction s = (Ok l0, s0) ->
  epsilon_at ppm s = Ok (epsilon l0) /\ epsilon_at ppm s0 = Ok (epsilon l0).
Proof.
  unfold evolve_start. cbv zeta.
  rewrite M_bind_unfold. rewrite M_bind_unfold. unfold get_y at 1.
  cbv beta iota. unfold lift at 1.
  destruct (primordial_inflation_get_epsilon ppm (y s !!! index_in_phi ppm))
    as [eps | e |] eqn:Ee; try discriminate.
  rewrite M_bind_unfold. unfold call_derivs.
  destruct (primordial_inflation_derivs ppm pipaw 0 (y s) (dy s))
    as [d | e |]; try discriminate.
  cbv iota beta. rewrite M_bind_unfold. unfold get_vectors at 1.
  cbv iota beta. rewrite M_bind_unfold. unfold lift at 1.
  match goal with
  | |- context [match ?r with Ok _ => _ | Err _ => _ | Timeout => _ end] =>
      destruct r; try discriminate
  end.
  intros [= <- <-]. unfold epsilon_at. simpl. auto.
Qed.

Lemma accepted_epsilon pipaw target stop sign_dtau direction n l s l' s' :
  accepted' pipaw target stop sign_dtau true direction n l s l' s' ->
  epsilon_at ppm s = Ok (epsilon l) -> epsilon_at ppm s' = Ok (epsilon l').
Proof.
  induction 1 as [| n l s l1 s1 l' s' Hc Hs Hacc IH]; intros Hinv;
    [exact Hinv |].
  apply IH. eapply evolve_step_epsilon; eassumption.
Qed.

(** The loop fails with the slow-roll error exactly when, after some number
    of completed turns, a further turn is entered and fails with it. *)
Lemma evolve_loop_slow_roll pipaw target stop sign_dtau direction fuel :
  forall l s,
    fst (evolve_loop generic_integrator ppm ppr fuel pipaw target stop
           sign_dtau true direction l s) = Err SlowRollViolated
    <-> exists n l_n s_n,
        (n < fuel)%nat
        /\ accepted' pipaw target stop sign_dtau true direction n l s l_n s_n
        /\ sign_dtau * (quantity l_n - stop) < 0
        /\ fst (evolve_step' pipaw target sign_dtau true direction l_n s_n)
           = Err SlowRollViolated.
Proof.
  induction fuel as [| fuel IH]; intros l s; simpl.
  - split.
    + destruct (decide (sign_dtau * (quantity l - stop) < 0)); discriminate.
    + intros (n & _ & _ & Hn & _). lia.
  - destruct (decide (sign_dtau * (quantity l - stop) < 0)) as [Hc | Hc].
    + rewrite M_bind_unfold.
      destruct (evolve_step' pipaw target sign_dtau true direction l s)
        as [[l1 | e |] s1] eqn:Es.
      * rewrite IH. split.
        -- intros (n & l_n & s_n & Hn & Hacc & Hcn & Hf).
           exists (S n), l_n, s_n. split; [lia |]. split; [| auto].
           econstructor; eassumption.
        -- intros (n & l_n & s_n & Hn & Hacc & Hcn & Hf).
           inversion Hacc; subst.
           ++ rewrite Es in Hf. discriminate.
           ++ match goal with
              | H : evolve_step' _ _ _ _ _ l s = _ |- _ =>
                  rewrite Es in H; injection H as <- <-
              end.
              exists n0, l_n, s_n. split; [lia | auto].
      * simpl. split.
        -- intros He. exists 0%nat, l, s. split; [lia |].
           split; [constructor |]. split; [exact Hc |].
           rewrite Es. exact He.
        -- intros (n & l_n & s_n & Hn & Hacc & Hcn & Hf).
           inversion Hacc; subst.
           ++ rewrite Es in Hf. exact Hf.
           ++ match goal with
              | H : evolve_step' _ _ _ _ _ l s = _ |- _ =>
                  rewrite Es in H; discriminate
              end.
      * simpl. split; [discriminate |].
        intros (n & l_n & s_n & Hn & Hacc & Hcn & Hf).
        inversion Hacc; subst.
        -- rewrite Es in Hf. discriminate.
        -- match goal with
           | H : evolve_step' _ _ _ _ _ l s = _ |- _ =>
               rewrite Es in H; discriminate
           end.
    + split; [discriminate |].
      intros (n & l_n & s_n & Hn & Hacc & Hcn & Hf).
      inversion Hacc; subst; contradiction.
Qed.

Lemma never_evolve_start e pipaw target check_epsilon direction :
  background_error e = false ->
  never e (evolve_start ppm ppr pipaw target check_epsilon direction).
Proof.
  intros Hb. unfold evolve_start. cbv zeta.
  apply never_bind.
  { destruct check_epsilon; [| apply never_ret].
    apply never_bind; [apply never_get_y | intros phi].
    apply never_lift. apply never_get_epsilon. exact Hb. }
  intros eps. apply never_bind; [apply never_call_derivs; exact Hb |].
  intros _. apply never_bind; [apply never_get_vectors | intros s].
  apply never_bind; [| intros _; apply never_ret].
  apply never_lift. destruct target; try discriminate.
  unfold class_test.
  destruct (bool_decide _); [intros [= <-]; discriminate Hb | discriminate].
Qed.

Lemma never_evolve_finish e pipaw target stop direction l :
  background_error e = false ->
  never e (evolve_finish ppm pipaw target stop direction l).
Proof.
  intros Hb. unfold evolve_finish.
  apply never_bind.
  { destruct target.
    - apply never_ret.
    - apply never_bind; [apply never_get_vectors | intros s; apply never_ret].
    - apply never_bind; [apply never_get_y | intros phi].
      apply never_bind.
      + apply never_lift. apply never_check_potential. exact Hb.
      + intros _. apply never_bind; [apply never_get_vectors |].
        intros s; apply never_ret. }
  intros dtau.
  repeat (apply never_bind;
          [first [apply never_get_y | apply never_get_dy | apply never_set_y]
          | intros ?]).
  apply never_bind.
  { destruct (_ && _); [| apply never_ret].
    repeat (apply never_bind;
            [first [apply never_get_y | apply never_get_dy] | intros ?]).
    apply never_set_y. }
  intros _. apply never_call_derivs; exact Hb.
Qed.

Lemma never_evolve_step e pipaw target sign_dtau check_epsilon direction l :
  background_error e = false -> e <> SlowRollViolated ->
  never e (evolve_step' pipaw target sign_dtau check_epsilon direction l).
Proof.
  intros Hb Hsr. unfold evolve_step.
  apply never_bind; [apply never_take_step; exact Hb | intros t].
  apply never_bind; [| intros eps; apply never_after_epsilon; exact Hb].
  unfold check_epsilon_step. destruct check_epsilon; [| apply never_ret].
  apply never_bind; [apply never_get_y | intros phi].
  apply never_bind;
    [apply never_lift; apply never_get_epsilon; exact Hb | intros eps].
  apply never_bind; [| intros _; apply never_ret].
  apply never_lift. unfold class_test.
  destruct (_ && _); [congruence | discriminate].
Qed.

Lemma never_evolve_loop e pipaw target stop sign_dtau check_epsilon direction
    fuel :
  background_error e = false -> e <> SlowRollViolated ->
  forall l,
    never e (evolve_loop generic_integrator ppm ppr fuel pipaw target stop
               sign_dtau check_epsilon direction l).
Proof.
  intros Hb Hsr.
  induction fuel as [| fuel IH]; intros l; simpl;
    destruct (decide (sign_dtau * (quantity l - stop) < 0));
    try apply never_ret; try (apply never_lift; discriminate).
  apply never_bind; [apply never_evolve_step; assumption | exact IH].
Qed.

Lemma never_evolve_background e fuel target stop check_epsilon direction time :
  background_error e = false -> e <> SlowRollViolated ->
  never e (primordial_inflation_evolve_background generic_integrator ppm ppr
             fuel target stop check_epsilon direction time).
Proof.
  intros Hb Hsr. unfold primordial_inflation_evolve_background. cbv zeta.
  apply never_bind; [apply never_evolve_start; exact Hb | intros l0].
  apply never_bind; [apply never_evolve_loop; assumption | intros l].
  apply never_evolve_finish. exact Hb.
Qed.

(** C5.  With [check_epsilon] set, a call of
    [primordial_inflation_evolve_background] fails with the slow-roll error
    exactly when there are two consecutive points of the integration (the
    starting point or the end of a completed turn of the loop, and the end
    of the next time step, taken within the given fuel) such that epsilon is
    at most 1 at the first and greater than 1 at the second.  In
    particular, when epsilon is greater than 1 at the starting point the
    first turn does not raise the error. *)
Theorem slow_roll_violation_iff_crossing :
  forall (fuel : nat) (target : target_quantity) (stop : R)
         (direction : integration_direction) (time : time_definition)
         (s : vectors),
    let pipaw := evolve_workspace ppm direction time in
    let stop' := match target with _end_inflation_ => 0 | _ => stop end in
    (fst (primordial_inflation_evolve_background generic_integrator ppm ppr
            fuel target stop true direction time s) = Err SlowRollViolated
     <-> exists l0 s0 n l s_n t s_next e_old e_new,
         evolve_start ppm ppr pipaw target true direction s = (Ok l0, s0)
         /\ (n < fuel)%nat
         /\ accepted' pipaw target stop' (sign_of direction) true direction
              n l0 s0 l s_n
         /\ sign_of direction * (quantity l - stop') < 0
         /\ take_step' pipaw l s_n = (Ok t, s_next)
         /\ epsilon_at ppm s_n = Ok e_old
         /\ epsilon_at ppm s_next = Ok e_new
         /\ e_old <= 1 /\ e_new > 1)
    /\ (forall l0 s0,
          evolve_start ppm ppr pipaw target true direction s = (Ok l0, s0) ->
          epsilon_at ppm s = Ok (epsilon l0)
          /\ (epsilon l0 > 1 ->
              fst (evolve_step' pipaw target (sign_of direction) true
                     direction l0 s0) <> Err SlowRollViolated)).
Proof.
  intros fuel target stop direction time s pipaw stop'. split.
  - unfold primordial_inflation_evolve_background. cbv zeta.
    fold pipaw. fold stop'. rewrite M_bind_unfold.
    pose proof (never_evolve_start SlowRollViolated pipaw target true
                  direction eq_refl s) as Hstart.
    destruct (evolve_start ppm ppr pipaw target true direction s)
      as [[l0 | e |] s0] eqn:Es; simpl in Hstart.
    2: { simpl. split; [intros H; congruence |].
         intros (l0 & s1 & n & l & s_n & t & s_next & e_old & e_new & H & _).
         discriminate. }
    2: { simpl. split; [discriminate |].
         intros (l0 & s1 & n & l & s_n & t & s_next & e_old & e_new & H & _).
         discriminate. }
    destruct (evolve_start_epsilon _ _ _ _ _ _ Es) as [_ Hinv].
    rewrite M_bind_unfold.
    pose proof (evolve_loop_slow_roll pipaw target stop' (sign_of direction)
                  direction fuel l0 s0) as Hloop.
    destruct (evolve_loop generic_integrator ppm ppr fuel pipaw target stop'
                (sign_of direction) true direction l0 s0)
      as [[l | e |] s1] eqn:El; simpl in Hloop.
    + split.
      * intros H. exfalso.
        exact (never_evolve_finish SlowRollViolated pipaw target stop'
                 direction l eq_refl s1 H).
      * intros (l0' & s0' & n & l' & s_n & t & s_next & e_old & e_new
                & [= <- <-] & Hn & Hacc & Hc & Ht & Ho & Hnw & Hle & Hgt).
        assert (Hf : @Ok bg_locals l = Err SlowRollViolated);
          [| discriminate].
        apply Hloop. exists n, l', s_n. repeat split; try assumption.
        apply evolve_step_slow_roll. exists t, s_next, e_new.
        repeat split; try assumption.
        pose proof (accepted_epsilon _ _ _ _ _ _ _ _ _ _ Hacc Hinv) as Hi.
        rewrite Hi in Ho. injection Ho as ->. exact Hle.
    + simpl. split.
      * intros [= ->].
        destruct (proj1 Hloop eq_refl) as (n & l_n & s_n & Hn & Hacc & Hc & Hf).
        apply evolve_step_slow_roll in Hf.
        destruct Hf as (t & s_next & e_new & Ht & Hnw & Hle & Hgt).
        exists l0, s0, n, l_n, s_n, t, s_next, (epsilon l_n), e_new.
        repeat split; try assumption.
        eapply accepted_epsilon; eassumption.
      * intros (l0' & s0' & n & l' & s_n & t & s_next & e_old & e_new
                & [= <- <-] & Hn & Hacc & Hc & Ht & Ho & Hnw & Hle & Hgt).
        assert (Hf : @Err bg_locals e = Err SlowRollViolated);
          [| injection Hf as ->; reflexivity].
        apply Hloop. exists n, l', s_n. repeat split; try assumption.
        apply evolve_step_slow_roll. exists t, s_next, e_new.
        repeat split; try assumption.
        pose proof (accepted_epsilon _ _ _ _ _ _ _ _ _ _ Hacc Hinv) as Hi.
        rewrite Hi in Ho. injection Ho as ->. exact Hle.
    + simpl. split; [discriminate |].
      intros (l0' & s0' & n & l' & s_n & t & s_next & e_old & e_new
              & [= <- <-] & Hn & Hacc & Hc & Ht & Ho & Hnw & Hle & Hgt).
      assert (Hf : @Timeout bg_locals = Err SlowRollViolated);
        [| discriminate].
      apply Hloop. exists n, l', s_n. repeat split; try assumption.
      apply evolve_step_slow_roll. exists t, s_next, e_new.
      repeat split; try assumption.
      pose proof (accepted_epsilon _ _ _ _ _ _ _ _ _ _ Hacc Hinv) as Hi.
      rewrite Hi in Ho. injection Ho as ->. exact Hle.
  - intros l0 s0 Es.
    destruct (evolve_start_epsilon _ _ _ _ _ _ Es) as [H1 H2].
    split; [exact H1 |].
    intros Hgt Hf. apply evolve_step_slow_roll in Hf.
    destruct Hf as (t & s_next & e_new & _ & _ & Hle & _). lra.
Qed.

End SlowRoll.

(** ** The target [_phi_] of the background evolver *)

Section PhiTarget.

Variable generic_integrator :
  (R -> list R -> list R -> result (list R)) -> nat -> R -> R -> list R ->
  R -> R -> result unit * list R.

Variable ppm : primordial.
Variable ppr : precision.

(** A successful call is a successful start-up, a successful loop and a
    successful last step. *)
Lemma evolve_background_split fuel target stop check_epsilon direction time
    s s' :
  primordial_inflation_evolve_background generic_integrator ppm ppr fuel
    target stop check_epsilon direction time s = (Ok tt, s') ->
  let pipaw := evolve_workspace ppm direction time in
  let stop' := match target with _end_inflation_ => 0 | _ => stop end in
  exists l0 s0 l s1,
    evolve_start ppm ppr pipaw target check_epsilon direction s = (Ok l0, s0)
    /\ evolve_loop generic_integrator ppm ppr fuel pipaw target stop'
         (sign_of direction) check_epsilon direction l0 s0 = (Ok l, s1)
    /\ evolve_finish ppm pipaw target stop' direction l s1 = (Ok tt, s').
Proof.
  intros Hrun pipaw stop'.
  unfold primordial_inflation_evolve_background in Hrun. cbv zeta in Hrun.
  fold pipaw stop' in Hrun. rewrite M_bind_unfold in Hrun.
  destruct (evolve_start ppm ppr pipaw target check_epsilon direction s)
    as [[l0 | e |] s0]; try discriminate.
  rewrite M_bind_unfold in Hrun.
  destruct (evolve_loop generic_integrator ppm ppr fuel pipaw target stop'
              (sign_of direction) check_epsilon direction l0 s0)
    as [[l | e |] s1] eqn:Hloop; try discriminate.
  exists l0, s0, l, s1. split; [reflexivity |]. split; [exact Hloop |].
  exact Hrun.
Qed.

(** The locals hold the value of the target quantity expected after the
    next step from the running vectors: when the start-up returns, when a
    turn of the loop returns and when the loop is left. *)
Lemma evolve_start_quantity pipaw target check_epsilon direction s l0 s0 :
  evolve_start ppm ppr pipaw target check_epsilon direction s = (Ok l0, s0) ->
  quantity l0 = new_quantity ppm target (aH l0) (dtau l0) s0.
Proof.
  unfold evolve_start. cbv zeta. rewrite M_bind_unfold.
  match goal with
  | |- context [let (r, s1) := ?m s in _] => destruct (m s) as [[eps | e |] sa]
  end; try discriminate.
  rewrite M_bind_unfold.
  destruct (call_derivs ppm pipaw 0 sa) as [[[] | e |] sb]; try discriminate.
  rewrite M_bind_unfold. unfold get_vectors at 1. cbv iota beta.
  rewrite M_bind_unfold. unfold lift at 1.
  match goal with
  | |- context [match ?t with Ok _ => _ | Err _ => _ | Timeout => _ end] =>
      destruct t as [[] | e |]
  end; try discriminate.
  intros [= <- <-]. reflexivity.
Qed.

Lemma evolve_step_quantity pipaw target sign_dtau check_epsilon direction
    l s l1 s1 :
  evolve_step generic_integrator ppm ppr pipaw target sign_dtau check_epsilon
    direction l s = (Ok l1, s1) ->
  quantity l1 = new_quantity ppm target (aH l1) (dtau l1) s1.
Proof.
  unfold evolve_step. rewrite M_bind_unfold.
  destruct (take_step generic_integrator ppm ppr pipaw l s)
    as [[t | e |] sa]; try discriminate.
  rewrite M_bind_unfold.
  destruct (check_epsilon_step ppm check_epsilon l sa)
    as [[eps | e |] sb]; try discriminate.
  rewrite M_bind_unfold.
  destruct (call_derivs ppm pipaw t sb) as [[[] | e |] sc]; try discriminate.
  rewrite M_bind_unfold. unfold get_vectors at 1. cbv iota beta zeta.
  intros [= <- <-]. reflexivity.
Qed.

Lemma evolve_loop_exit fuel pipaw target stop sign_dtau check_epsilon
    direction :
  forall l0 s0 l s1,
    evolve_loop generic_integrator ppm ppr fuel pipaw target stop sign_dtau
      check_epsilon direction l0 s0 = (Ok l, s1) ->
    quantity l0 = new_quantity ppm target (aH l0) (dtau l0) s0 ->
    ~ sign_dtau * (quantity l - stop) < 0 /\ quantity l = new_quantity ppm target (aH l) (dtau l) s1.
Proof.
  induction fuel as [| fuel IH]; intros l0 s0 l s1; simpl;
    destruct (decide (sign_dtau * (quantity l0 - stop) < 0)) as [Hlt | Hge];
    try discriminate;
    try (intros [= <- <-] Hq; split; assumption).
  rewrite M_bind_unfold.
  destruct (evolve_step generic_integrator ppm ppr pipaw target sign_dtau
              check_epsilon direction l0 s0) as [[l1 | e |] s2] eqn:Hs;
    try discriminate.
  intros Hl _. apply (IH _ _ _ _ Hl).
  exact (evolve_step_quantity _ _ _ _ _ _ _ _ _ Hs).
Qed.

(** The last step towards a field value: [dtau = (stop - phi)/phi'] brings
    [y[index_in_phi]] to [stop]. *)
Lemma evolve_finish_phi pipaw stop direction l s1 s' :
  evolve_finish ppm pipaw _phi_ stop direction l s1 = (Ok tt, s') ->
  index_in_phi ppm <> index_in_a ppm ->
  index_in_phi ppm <> index_in_dphi ppm ->
  (index_in_phi ppm < length (y s1))%nat ->
  dy s1 !!! index_in_phi ppm <> 0 ->
  y s' !!! index_in_phi ppm = stop.
Proof.
  intros Hrun Ha Hd Hlen Hdy.
  unfold evolve_finish in Hrun.
  unfold mbind, M_bind, get_vectors, mret, M_ret, get_y, get_dy, set_y
    in Hrun.
  cbn [y dy] in Hrun.
  set (dtau := (stop - y s1 !!! index_in_phi ppm)
               / dy s1 !!! index_in_phi ppm) in Hrun.
  assert (Hphi : forall sf : vectors,
             y sf = <[index_in_phi ppm :=
                        y s1 !!! index_in_phi ppm
                        + dy s1 !!! index_in_phi ppm * dtau]>
                      (<[index_in_a ppm :=
                           y s1 !!! index_in_a ppm
                           + dy s1 !!! index_in_a ppm * dtau]> (y s1))
             \/ (exists v,
                   y sf = <[index_in_dphi ppm := v]>
                           (<[index_in_phi ppm :=
                                y s1 !!! index_in_phi ppm
                                + dy s1 !!! index_in_phi ppm * dtau]>
                              (<[index_in_a ppm :=
                                   y s1 !!! index_in_a ppm
                                   + dy s1 !!! index_in_a ppm * dtau]>
                                 (y s1)))) ->
             y sf !!! index_in_phi ppm = stop).
  { intros sf [-> | [v ->]];
      rewrite ?(list_lookup_total_insert_ne _ (index_in_dphi ppm)) by congruence;
      rewrite list_lookup_total_insert_eq
        by (rewrite length_insert; exact Hlen);
      unfold dtau; field; exact Hdy. }
  rewrite (list_lookup_total_insert_ne _ (index_in_a ppm)) in Hrun
    by congruence.
  destruct (bool_decide (direction = forward) && is_inflation_V ppm);
    unfold call_derivs in Hrun; cbn [y dy] in Hrun;
    match type of Hrun with
    | context [primordial_inflation_derivs ?a ?b ?c ?d ?e] =>
        destruct (primordial_inflation_derivs a b c d e); try discriminate
    end;
    injection Hrun as <-; apply Hphi; cbn [y]; eauto.
Qed.

End PhiTarget.

(** ** The attractor solver *)

Section Attractor.

Variable generic_integrator :
  (R -> list R -> list R -> result (list R)) -> nat -> R -> R -> list R ->
  R -> R -> result unit * list R.

Variable ppm : primordial.
Variable ppr : precision.

Local Abbreviation maxit := (primordial_inflation_attractor_maxit ppr).
Local Abbreviation evolve_background' :=
  (primordial_inflation_evolve_background generic_integrator ppm ppr).
Local Abbreviation attractor_step' :=
  (attractor_step generic_integrator ppm ppr).
Local Abbreviation attractor_loop' :=
  (attractor_loop generic_integrator ppm ppr).
Local Abbreviation attractor_accepted' :=
  (attractor_accepted generic_integrator ppm ppr).
Local Abbreviation find_attractor' :=
  (primordial_inflation_find_attractor generic_integrator ppm ppr).
Local Abbreviation attractor_initial_vector' := (attractor_initial_vector ppm).

(** What follows the counter test in a turn of the loop. *)
Lemma never_attractor_body fuel phi_0 l phi' c' :
  never AttractorNotFound
    ('(V, dV, ddV) ← lift (primordial_inflation_check_potential ppm phi');
     let a := 1 in
     let dphidt := - dV / 3 / sqrt (8 * PI / 3 * V) in
     _ ← set_y (index_in_a ppm) a;
     _ ← set_y (index_in_phi ppm) phi';
     _ ← set_y (index_in_dphi ppm) (a * dphidt);
     _ ← evolve_background' fuel _phi_ phi_0 true forward conformal;
     ydphi ← get_y (index_in_dphi ppm);
     ya ← get_y (index_in_a ppm);
     mret {| counter := c'; phi := phi'; dphidt_0new := ydphi / ya;
             dphidt_0old := dphidt_0new l |}).
Proof.
  apply never_bind;
    [apply never_lift; apply never_check_potential; reflexivity |].
  intros [[V dV] ddV]. cbv zeta.
  repeat (apply never_bind; [apply never_set_y | intros _]).
  apply never_bind;
    [apply never_evolve_background; [reflexivity | discriminate] | intros _].
  repeat (apply never_bind; [apply never_get_y | intros ?]).
  apply never_ret.
Qed.

Lemma attractor_step_not_found fuel phi_0 V_0 dV_0 l s :
  fst (attractor_step' fuel phi_0 V_0 dV_0 l s) = Err AttractorNotFound
  <-> (counter l + 1 >= maxit)%Z.
Proof.
  unfold attractor_step. cbv zeta. rewrite M_bind_unfold.
  unfold lift at 1, class_test.
  destruct (bool_decide (counter l + 1 >= maxit)%Z) eqn:E.
  - apply bool_decide_eq_true_1 in E. simpl. tauto.
  - apply bool_decide_eq_false_1 in E. split; [| intros; contradiction].
    intros H. exfalso.
    exact (never_attractor_body fuel phi_0 l _ _ s H).
Qed.

Lemma attractor_step_ok fuel phi_0 V_0 dV_0 l s l1 s1 :
  attractor_step' fuel phi_0 V_0 dV_0 l s = (Ok l1, s1) ->
  (counter l + 1 < maxit)%Z
  /\ counter l1 = (counter l + 1)%Z
  /\ phi l1 = phi l + dV_0 / V_0 / 16 / PI
  /\ dphidt_0old l1 = dphidt_0new l
  /\ dphidt_0new l1 = y s1 !!! index_in_dphi ppm / y s1 !!! index_in_a ppm
  /\ exists V dV ddV,
      primordial_inflation_check_potential ppm (phi l1) = Ok (V, dV, ddV)
      /\ evolve_background' fuel _phi_ phi_0 true forward conformal
           (attractor_initial_vector' (phi l1) V dV s) = (Ok tt, s1).
Proof.
  unfold attractor_step. cbv zeta. rewrite M_bind_unfold.
  unfold lift at 1, class_test.
  destruct (bool_decide (counter l + 1 >= maxit)%Z) eqn:E; [discriminate |].
  apply bool_decide_eq_false_1 in E. cbv iota beta.
  rewrite M_bind_unfold. unfold lift at 1.
  destruct (primordial_inflation_check_potential ppm
              (phi l + dV_0 / V_0 / 16 / PI))
    as [[[V dV] ddV] | e |] eqn:Ec; try discriminate.
  cbv iota beta.
  rewrite M_bind_unfold. unfold set_y at 1. cbv iota beta.
  rewrite M_bind_unfold. unfold set_y at 1. cbv iota beta.
  rewrite M_bind_unfold. unfold set_y at 1. cbv iota beta.
  rewrite M_bind_unfold. simpl y. simpl dy.
  fold (attractor_initial_vector' (phi l + dV_0 / V_0 / 16 / PI) V dV s).
  destruct (evolve_background' fuel _phi_ phi_0 true forward conformal
              (attractor_initial_vector' (phi l + dV_0 / V_0 / 16 / PI) V dV s))
    as [[[] | e |] s2] eqn:Ev; try discriminate.
  cbv iota beta.
  intros [= <- <-]. simpl.
  repeat split; try reflexivity; try lia.
  exists V, dV, ddV. split; [exact Ec | exact Ev].
Qed.

Lemma attractor_loop_not_found fuel phi_0 precision V_0 dV_0 n :
  forall l s,
    fst (attractor_loop' n fuel phi_0 precision V_0 dV_0 l s)
    = Err AttractorNotFound
    <-> exists m l_m s_m,
        (m < n)%nat
        /\ attractor_accepted' fuel phi_0 precision V_0 dV_0 m l s l_m s_m
        /\ not_converged precision l_m
        /\ (counter l_m + 1 >= maxit)%Z.
Proof.
  induction n as [| n IH]; intros l s; simpl.
  - split.
    + destruct (decide (not_converged precision l)); discriminate.
    + intros (m & _ & _ & Hm & _). lia.
  - destruct (decide (not_converged precision l)) as [Hc | Hc].
    + rewrite M_bind_unfold.
      pose proof (attractor_step_not_found fuel phi_0 V_0 dV_0 l s) as Hnf.
      destruct (attractor_step' fuel phi_0 V_0 dV_0 l s)
        as [[l1 | e |] s1] eqn:Es.
      * rewrite IH. split.
        -- intros (m & l_m & s_m & Hm & Hacc & Hcm & Hf).
           exists (S m), l_m, s_m. split; [lia |]. split; [| auto].
           econstructor; eassumption.
        -- intros (m & l_m & s_m & Hm & Hacc & Hcm & Hf).
           inversion Hacc; subst.
           ++ simpl in Hnf. apply Hnf in Hf. discriminate.
           ++ match goal with
              | H : attractor_step' _ _ _ _ l s = _ |- _ =>
                  rewrite Es in H; injection H as <- <-
              end.
              exists n0, l_m, s_m. split; [lia | auto].
      * simpl in *. split.
        -- intros He. exists 0%nat, l, s. split; [lia |].
           split; [constructor |]. split; [exact Hc |].
           apply Hnf. exact He.
        -- intros (m & l_m & s_m & Hm & Hacc & Hcm & Hf).
           inversion Hacc; subst.
           ++ apply Hnf. exact Hf.
           ++ match goal with
              | H : attractor_step' _ _ _ _ l s = _ |- _ =>
                  rewrite Es in H; discriminate
              end.
      * simpl in *. split; [discriminate |].
        intros (m & l_m & s_m & Hm & Hacc & Hcm & Hf).
        inversion Hacc; subst.
        -- apply Hnf in Hf. discriminate.
        -- match goal with
           | H : attractor_step' _ _ _ _ l s = _ |- _ =>
               rewrite Es in H; discriminate
           end.
    + split; [discriminate |].
      intros (m & l_m & s_m & Hm & Hacc & Hcm & Hf).
      inversion Hacc; subst; contradiction.
Qed.

Lemma attractor_loop_ok fuel phi_0 precision V_0 dV_0 n :
  forall l s l' s',
    attractor_loop' n fuel phi_0 precision V_0 dV_0 l s = (Ok l', s') ->
    exists m,
      attractor_accepted' fuel phi_0 precision V_0 dV_0 m l s l' s'
      /\ ~ not_converged precision l'.
Proof.
  induction n as [| n IH]; intros l s l' s'; simpl;
    destruct (decide (not_converged precision l)) as [Hc | Hc];
    try discriminate;
    try (intros [= <- <-]; exists 0%nat; split; [constructor | exact Hc]).
  rewrite M_bind_unfold.
  destruct (attractor_step' fuel phi_0 V_0 dV_0 l s)
    as [[l1 | e |] s1] eqn:Es; try discriminate.
  intros Hl. destruct (IH _ _ _ _ Hl) as (m & Hacc & Hnc).
  exists (S m). split; [econstructor; eassumption | exact Hnc].
Qed.

(** The counter counts the completed turns, and stays below the maximum. *)
Lemma attractor_accepted_counter fuel phi_0 precision V_0 dV_0 m l s l' s' :
  attractor_accepted' fuel phi_0 precision V_0 dV_0 m l s l' s' ->
  counter l' = (counter l + Z.of_nat m)%Z
  /\ phi l' = phi l + INR m * (dV_0 / V_0 / 16 / PI)
  /\ ((0 < m)%nat ->
      (counter l' < maxit)%Z
      /\ dphidt_0new l' = y s' !!! index_in_dphi ppm / y s' !!! index_in_a ppm).
Proof.
  induction 1 as [| m l s l1 s1 l' s' Hc Hs Hacc IH].
  - split; [lia |]. split; [simpl; lra | lia].
  - apply attractor_step_ok in Hs.
    destruct Hs as (Hlt & Hcnt & Hphi & Hold & Hnew & _).
    destruct IH as (IHc & IHp & IHm).
    split; [lia |]. split.
    + rewrite IHp, Hphi, S_INR. lra.
    + intros _. destruct m as [| m].
      * inversion Hacc; subst. split; [lia | exact Hnew].
      * apply IHm. lia.
Qed.

Lemma attractor_start_not_converged phi_0 precision V_0 dV_0 :
  0 < V_0 -> dV_0 < 0 ->
  not_converged precision (attractor_start phi_0 precision dV_0 V_0).
Proof.
  intros HV HdV. unfold not_converged, attractor_start. simpl.
  set (new := - dV_0 / 3 / sqrt (8 * PI / 3 * V_0)).
  assert (Hs : 0 < sqrt (8 * PI / 3 * V_0)).
  { apply sqrt_lt_R0. pose proof PI_RGT_0. nra. }
  assert (Hnew : 0 < new).
  { unfold new. apply Rdiv_lt_0_compat; [lra | exact Hs]. }
  destruct (Req_dec (precision + 2) 0) as [Hz | Hnz].
  - pose proof (Rabs_pos (new / (new / (precision + 2)) - 1)). lra.
  - replace (new / (new / (precision + 2)) - 1) with (precision + 1)
      by (field; split; lra).
    pose proof (Rle_abs (precision + 1)). lra.
Qed.

Lemma check_potential_ok phi V dV ddV :
  primordial_inflation_check_potential ppm phi = Ok (V, dV, ddV) ->
  0 < V /\ dV < 0
  /\ primordial_inflation_potential ppm phi = Ok (V, dV, ddV).
Proof.
  unfold primordial_inflation_check_potential.
  destruct (primordial_inflation_potential ppm phi)
    as [[[V' dV'] ddV'] | e |]; simpl; try discriminate.
  unfold class_test.
  destruct (bool_decide (V' <= 0)) eqn:E1; simpl; try discriminate.
  destruct (bool_decide (dV' >= 0)) eqn:E2; simpl; try discriminate.
  apply bool_decide_eq_false_1 in E1. apply bool_decide_eq_false_1 in E2.
  intros [= <- <- <-]. repeat split; lra.
Qed.

Lemma attractor_accepted_bound fuel phi_0 precision V_0 dV_0 m s l s' :
  attractor_accepted' fuel phi_0 precision V_0 dV_0 m
    (attractor_start phi_0 precision dV_0 V_0) s l s' ->
  counter l = Z.of_nat m /\ (m < S (Z.to_nat maxit))%nat.
Proof.
  intros Hacc. apply attractor_accepted_counter in Hacc.
  destruct Hacc as (Hc & _ & Hm). simpl in Hc. split; [lia |].
  destruct m as [| m]; [lia |].
  destruct (Hm ltac:(lia)) as [Hlt _]. lia.
Qed.

(** C6.  [primordial_inflation_find_attractor] fails with the
    attractor-not-found error exactly when, after some number [n] of
    completed turns of its loop, the relative change is still at least
    [precision] and the counter, incremented to [n + 1], has reached
    [primordial_inflation_attractor_maxit].  The loop condition holds when
    the loop is reached.  Each completed turn has kept the former iterate
    in [dphidt_0old], so that the loop condition compares the new iterate
    with the previous one, has moved the starting field by
    [dV_0/V_0/16/pi], has checked the potential there and has integrated
    the background forward to [phi_0] from [a = 1] and the slow-roll
    velocity: the evolver has left its loop and its last step has brought
    [y[index_in_phi]] to [phi_0], provided [phi'] is not zero there and the
    index of the field is within the vector and distinct from the indices of
    [a] and [phi'].  On success at least one turn was completed, [dphidt_0]
    is the last iterate [y[index_in_dphi]/y[index_in_a]] and
    [H_0 = sqrt((8 pi/3)(dphidt_0^2/2 + V(phi_0)))]. *)
Theorem find_attractor_spec :
  forall (fuel : nat) (phi_0 precision : R) (s : vectors),
    (fst (find_attractor' fuel phi_0 precision s) = Err AttractorNotFound
     <-> exists V_0 dV_0 ddV_0 n l s',
         primordial_inflation_check_potential ppm phi_0
         = Ok (V_0, dV_0, ddV_0)
         /\ attractor_accepted' fuel phi_0 precision V_0 dV_0 n
              (attractor_start phi_0 precision dV_0 V_0) s l s'
         /\ not_converged precision l
         /\ counter l = Z.of_nat n
         /\ (Z.of_nat n + 1 >= maxit)%Z)
    /\ (forall V_0 dV_0 ddV_0,
          primordial_inflation_check_potential ppm phi_0
          = Ok (V_0, dV_0, ddV_0) ->
          not_converged precision (attractor_start phi_0 precision dV_0 V_0))
    /\ (forall V_0 dV_0 l s0 l1 s1,
          attractor_step' fuel phi_0 V_0 dV_0 l s0 = (Ok l1, s1) ->
          phi l1 = phi l + dV_0 / V_0 / 16 / PI
          /\ dphidt_0old l1 = dphidt_0new l
          /\ dphidt_0new l1
             = y s1 !!! index_in_dphi ppm / y s1 !!! index_in_a ppm
          /\ exists V dV ddV,
              primordial_inflation_check_potential ppm (phi l1)
              = Ok (V, dV, ddV)
              /\ evolve_background' fuel _phi_ phi_0 true forward conformal
                   (attractor_initial_vector' (phi l1) V dV s0) = (Ok tt, s1)
              /\ exists b0 sb b sl,
                  let pipaw := evolve_workspace ppm forward conformal in
                  evolve_start ppm ppr pipaw _phi_ true forward
                    (attractor_initial_vector' (phi l1) V dV s0)
                  = (Ok b0, sb)
                  /\ evolve_loop generic_integrator ppm ppr fuel pipaw _phi_
                       phi_0 (sign_of forward) true forward b0 sb
                     = (Ok b, sl)
                  /\ (index_in_phi ppm <> index_in_a ppm ->
                      index_in_phi ppm <> index_in_dphi ppm ->
                      (index_in_phi ppm < length (y sl))%nat ->
                      dy sl !!! index_in_phi ppm <> 0 ->
                      y s1 !!! index_in_phi ppm = phi_0))
    /\ (forall H_0 dphidt_0 s',
          find_attractor' fuel phi_0 precision s = (Ok (H_0, dphidt_0), s') ->
          exists V_0 dV_0 ddV_0 n l,
            primordial_inflation_potential ppm phi_0 = Ok (V_0, dV_0, ddV_0)
            /\ (0 < n)%nat
            /\ attractor_accepted' fuel phi_0 precision V_0 dV_0 n
                 (attractor_start phi_0 precision dV_0 V_0) s l s'
            /\ ~ not_converged precision l
            /\ dphidt_0 = dphidt_0new l
            /\ dphidt_0
               = y s' !!! index_in_dphi ppm / y s' !!! index_in_a ppm
            /\ H_0 = sqrt (8 * PI / 3 * (0.5 * dphidt_0 * dphidt_0 + V_0))).
Proof.
  intros fuel phi_0 precision s. split; [| split; [| split]].
  - unfold primordial_inflation_find_attractor.
    rewrite M_bind_unfold. unfold lift at 1.
    pose proof (never_check_potential AttractorNotFound ppm phi_0 eq_refl)
      as Hcp.
    destruct (primordial_inflation_check_potential ppm phi_0)
      as [[[V_0 dV_0] ddV_0] | e |] eqn:Ec.
    2: { simpl. split; [intros [= ->]; contradiction |].
         intros (? & ? & ? & ? & ? & ? & H & _). discriminate. }
    2: { simpl. split; [discriminate |].
         intros (? & ? & ? & ? & ? & ? & H & _). discriminate. }
    cbv iota beta. rewrite M_bind_unfold.
    pose proof (attractor_loop_not_found fuel phi_0 precision V_0 dV_0
                  (S (Z.to_nat maxit))
                  (attractor_start phi_0 precision dV_0 V_0) s) as Hloop.
    assert (Hrhs :
      (exists V_0' dV_0' ddV_0' n l s',
          Ok (V_0, dV_0, ddV_0) = Ok (V_0', dV_0', ddV_0')
          /\ attractor_accepted' fuel phi_0 precision V_0' dV_0' n
               (attractor_start phi_0 precision dV_0' V_0') s l s'
          /\ not_converged precision l
          /\ counter l = Z.of_nat n
          /\ (Z.of_nat n + 1 >= maxit)%Z)
      <-> fst (attractor_loop' (S (Z.to_nat maxit)) fuel phi_0 precision V_0
                dV_0 (attractor_start phi_0 precision dV_0 V_0) s)
          = Err AttractorNotFound).
    { rewrite Hloop. split.
      - intros (V' & dV' & ddV' & n & l & s' & [= <- <- <-] & Hacc & Hnc
                & Hcnt & Hge).
        exists n, l, s'.
        destruct (attractor_accepted_bound _ _ _ _ _ _ _ _ _ Hacc) as [_ Hb].
        repeat split; try assumption. lia.
      - intros (n & l & s' & Hn & Hacc & Hnc & Hge).
        destruct (attractor_accepted_bound _ _ _ _ _ _ _ _ _ Hacc) as [Hc _].
        exists V_0, dV_0, ddV_0, n, l, s'.
        repeat split; try assumption. lia. }
    rewrite Hrhs.
    destruct (attractor_loop' (S (Z.to_nat maxit)) fuel phi_0 precision V_0
                dV_0 (attractor_start phi_0 precision dV_0 V_0) s)
      as [[l | e |] s1]; simpl; split; congruence.
  - intros V_0 dV_0 ddV_0 Hc.
    apply check_potential_ok in Hc. destruct Hc as (HV & HdV & _).
    apply attractor_start_not_converged; assumption.
  - intros V_0 dV_0 l s0 l1 s1 Hs.
    apply attractor_step_ok in Hs.
    destruct Hs as (_ & _ & Hphi & Hold & Hnew & V & dV & ddV & Hc & Hev).
    split; [exact Hphi |]. split; [exact Hold |]. split; [exact Hnew |].
    exists V, dV, ddV. split; [exact Hc |]. split; [exact Hev |].
    destruct (evolve_background_split generic_integrator ppm ppr _ _ _ _ _ _
                _ _ Hev) as (b0 & sb & b & sl & Hstart & Hloop & Hfin).
    exists b0, sb, b, sl. cbv zeta.
    split; [exact Hstart |]. split; [exact Hloop |].
    intros Ha Hd Hlen Hdy.
    exact (evolve_finish_phi ppm _ _ _ _ _ _ Hfin Ha Hd Hlen Hdy).
  - intros H_0 dphidt_0 s'. unfold primordial_inflation_find_attractor.
    rewrite M_bind_unfold. unfold lift at 1.
    destruct (primordial_inflation_check_potential ppm phi_0)
      as [[[V_0 dV_0] ddV_0] | e |] eqn:Ec; try discriminate.
    cbv iota beta. rewrite M_bind_unfold.
    destruct (attractor_loop' (S (Z.to_nat maxit)) fuel phi_0 precision V_0
                dV_0 (attractor_start phi_0 precision dV_0 V_0) s)
      as [[l | e |] s1] eqn:El; try discriminate.
    cbv iota beta. intros [= <- <- <-].
    apply attractor_loop_ok in El. destruct El as (n & Hacc & Hnc).
    apply check_potential_ok in Ec. destruct Ec as (HV & HdV & Hpot).
    assert (Hn : (0 < n)%nat).
    { destruct n as [| n]; [| lia]. inversion Hacc; subst.
      exfalso. apply Hnc. apply attractor_start_not_converged; assumption. }
    destruct (attractor_accepted_counter _ _ _ _ _ _ _ _ _ _ Hacc)
      as (_ & _ & Hlast).
    destruct (Hlast Hn) as [_ Hy].
    exists V_0, dV_0, ddV_0, n, l. repeat split; assumption.
Qed.

End Attractor.

(** ** The analytic spectrum *)

Section ForEach.

Context {S K V : Type} (body : S -> K -> result S) (key : K -> nat)
        (view : S -> nat -> V) (I : S -> Prop).

Hypothesis body_frame :
  forall s k s' n, I s -> body s k = Ok s' -> n <> key k ->
                   view s' n = view s n.
Hypothesis body_inv : forall s k s', I s -> body s k = Ok s' -> I s'.

Lemma for_each_inv (ks : list K) :
  forall s s', for_each body ks s = Ok s' -> I s -> I s'.
Proof.
  induction ks as [| k ks IH]; intros s s'; simpl.
  - intros [= <-]. auto.
  - destruct (body s k) as [s1 | e |] eqn:E; simpl; try discriminate.
    intros Hf Hs. eapply IH; [exact Hf |]. eapply body_inv; eassumption.
Qed.

Lemma for_each_frame (ks : list K) :
  forall s s' n,
    for_each body ks s = Ok s' -> I s -> n ∉ key <$> ks ->
    view s' n = view s n.
Proof.
  induction ks as [| k ks IH]; intros s s' n; simpl.
  - intros [= <-]. reflexivity.
  - destruct (body s k) as [s1 | e |] eqn:E; simpl; try discriminate.
    intros Hf Hs Hn. apply not_elem_of_cons in Hn. destruct Hn as [H1 H2].
    rewrite (IH s1 s' n Hf (body_inv _ _ _ Hs E) H2).
    eapply body_frame; eassumption.
Qed.

(** The turn of [k0]: it starts from a state that agrees with the initial
    one outside the cells written by the loop, and what it leaves in the
    cell of [k0] is still there when the loop ends. *)
Lemma for_each_at (ks : list K) :
  forall s s' k0,
    NoDup (key <$> ks) -> k0 ∈ ks ->
    for_each body ks s = Ok s' -> I s ->
    exists s1 s2,
      I s1 /\ body s1 k0 = Ok s2
      /\ (forall n, n ∉ key <$> ks -> view s1 n = view s n)
      /\ view s' (key k0) = view s2 (key k0).
Proof.
  induction ks as [| k ks IH]; intros s s' k0 Hnd Hin Hf Hs.
  - apply elem_of_nil in Hin. contradiction.
  - rewrite fmap_cons in Hnd. apply NoDup_cons in Hnd.
    destruct Hnd as [Hk Hnd]. cbn [for_each] in Hf.
    destruct (body s k) as [s1 | e |] eqn:E; simpl in Hf; try discriminate.
    apply elem_of_cons in Hin. destruct Hin as [-> | Hin].
    + exists s, s1. repeat split; try assumption; try reflexivity.
      eapply for_each_frame; [exact Hf | eapply body_inv; eassumption | exact Hk].
    + destruct (IH s1 s' k0 Hnd Hin Hf (body_inv _ _ _ Hs E))
        as (sa & sb & Hia & Hb & Hout & Hval).
      exists sa, sb. repeat split; try assumption.
      intros n Hn. rewrite fmap_cons in Hn.
      apply not_elem_of_cons in Hn. destruct Hn as [H1 H2].
      rewrite (Hout n H2). eapply body_frame; eassumption.
Qed.

End ForEach.

Lemma read2_write2_eq {A : Type} `{Inhabited A} (t : list (list A)) m i (v : A) :
  (m < length t)%nat -> (i < length (t !!! m))%nat ->
  read2 (write2 t m i v) m i = v.
Proof.
  intros Hm Hi. unfold read2, write2.
  rewrite list_lookup_total_insert_eq by exact Hm.
  apply list_lookup_total_insert_eq. exact Hi.
Qed.

Lemma read2_write2_ne {A : Type} `{Inhabited A} (t : list (list A))
    m i (v : A) m' i' :
  (m, i) <> (m', i') -> read2 (write2 t m i v) m' i' = read2 t m' i'.
Proof.
  intros Hne. unfold read2, write2.
  destruct (decide (m = m')) as [<- | Hm].
  - destruct (decide (m < length t)%nat) as [Hlt | Hge].
    + rewrite list_lookup_total_insert_eq by exact Hlt.
      apply list_lookup_total_insert_ne. congruence.
    + rewrite list_insert_ge by lia. reflexivity.
  - rewrite list_lookup_total_insert_ne by exact Hm. reflexivity.
Qed.

Lemma table_sized_write2 {A : Type} `{Inhabited A} ppm (t : list (list A))
    m i (v : A) :
  table_sized ppm t -> table_sized ppm (write2 t m i v).
Proof.
  intros Ht m' Hm'. destruct (Ht m' Hm') as [H1 H2]. unfold write2.
  split; [rewrite length_insert; exact H1 |].
  destruct (decide (m = m')) as [<- | Hne].
  - rewrite list_lookup_total_insert_eq by exact H1.
    rewrite length_insert. exact H2.
  - rewrite list_lookup_total_insert_ne by exact Hne. exact H2.
Qed.

Lemma state_sized_store ppm m c b a t rn st :
  state_sized ppm st -> state_sized ppm (store m c b a t rn st).
Proof.
  intros (H1 & H2 & H3 & H4). unfold state_sized, store; simpl.
  split; [| split; [| split]]; apply table_sized_write2; assumption.
Qed.

Lemma cell_of_store_eq ppm m c b a t rn st :
  state_sized ppm st -> (m < md_size ppm)%nat ->
  (c < (ic_size ppm !!! m) * (ic_size ppm !!! m + 1) / 2)%nat ->
  cell_of (store m c b a t rn st) m c = (b, a, t, rn).
Proof.
  intros (H1 & H2 & H3 & H4) Hm Hc. unfold cell_of, store; simpl.
  destruct (H1 m Hm), (H2 m Hm), (H3 m Hm), (H4 m Hm).
  rewrite !read2_write2_eq by (simpl in *; lia). reflexivity.
Qed.

Lemma cell_of_store_ne m c b a t rn st m' c' :
  (m, c) <> (m', c') ->
  cell_of (store m c b a t rn st) m' c' = cell_of st m' c'.
Proof.
  intros Hne. unfold cell_of, store; simpl.
  rewrite !read2_write2_ne by exact Hne. reflexivity.
Qed.

Lemma cell_of_row st1 st2 m c :
  row_of st1 m = row_of st2 m -> cell_of st1 m c = cell_of st2 m c.
Proof.
  unfold row_of, cell_of, read2. intros [= -> -> -> ->]. reflexivity.
Qed.

Lemma row_of_tables st1 st2 m :
  tables_of st1 = tables_of st2 -> row_of st1 m = row_of st2 m.
Proof. unfold tables_of, row_of. intros [= -> -> -> ->]. reflexivity. Qed.

Lemma state_sized_tables ppm st1 st2 :
  tables_of st1 = tables_of st2 -> state_sized ppm st1 -> state_sized ppm st2.
Proof. unfold tables_of, state_sized. intros [= -> -> -> ->]. auto. Qed.

Lemma row_of_store_ne m c b a t rn st m' :
  m <> m' -> row_of (store m c b a t rn st) m' = row_of st m'.
Proof.
  intros Hne. unfold row_of, store, write2; simpl.
  rewrite !list_lookup_total_insert_ne by exact Hne. reflexivity.
Qed.

Section AnalyticInit.

Variable ppt : perturbs.
Variable ppm : primordial.

Lemma diag_select_tables index_md index_ic1 st :
  tables_of (diag_select ppt ppm index_md index_ic1 st) = tables_of st.
Proof.
  unfold diag_select.
  destruct (_scalars_ ppt index_md), (_tensors_ ppt index_md);
    repeat match goal with
           | |- context [if ?b then _ else _] => destruct b
           end; reflexivity.
Qed.

Lemma cross_select_tables index_md index_ic1 index_ic2 st :
  tables_of (cross_select ppt ppm index_md index_ic1 index_ic2 st)
  = tables_of st.
Proof.
  unfold cross_select, pair_is.
  destruct (_scalars_ ppt index_md); [| reflexivity].
  destruct (has_ad ppt), (has_bi ppt), (has_cdi ppt), (has_nid ppt),
    (has_niv ppt); simpl;
    repeat match goal with
           | |- context [if ?b then _ else _] => destruct b
           end; reflexivity.
Qed.

Variable index_md : nat.

Local Abbreviation N := (ic_size ppm !!! index_md).
Local Abbreviation idx := (fun i j : nat => index_symmetric_matrix i j N).

Lemma diag_step_ok st i st' :
  diag_step ppt ppm index_md st i = Ok st' ->
  exists sel a t rn,
    0 < a /\ tables_of sel = tables_of st
    /\ st' = store index_md (idx i i) true a t rn sel.
Proof.
  unfold diag_step, class_test.
  destruct (bool_decide (one_amplitude (diag_select ppt ppm index_md i st) <= 0))
    eqn:E; simpl; [discriminate |].
  apply bool_decide_eq_false_1 in E. intros [= <-].
  eexists _, _, _, _. split; [| split; [| reflexivity]].
  - lra.
  - apply diag_select_tables.
Qed.

Lemma cross_step_ok st i j st' :
  cross_step ppt ppm index_md st (i, j) = Ok st' ->
  let sel := cross_select ppt ppm index_md i j st in
  let c := one_correlation sel in
  -1 <= c <= 1
  /\ st' = if decide (c = 0)
           then store index_md (idx i j) false 0 0 0 sel
           else store index_md (idx i j) true
                  (sqrt (read2 (st_amplitude sel) index_md (idx i i)
                         * read2 (st_amplitude sel) index_md (idx j j)) * c)
                  (0.5 * (read2 (st_tilt sel) index_md (idx i i)
                          + read2 (st_tilt sel) index_md (idx j j))
                   + one_tilt sel)
                  (0.5 * (read2 (st_running sel) index_md (idx i i)
                          + read2 (st_running sel) index_md (idx j j))
                   + one_running sel)
                  sel.
Proof.
  unfold cross_step, class_test. cbv zeta.
  set (sel := cross_select ppt ppm index_md i j st).
  destruct (bool_decide (one_correlation sel < -1)) eqn:E1; simpl;
    [discriminate |].
  destruct (bool_decide (one_correlation sel > 1)) eqn:E2; simpl;
    [discriminate |].
  apply bool_decide_eq_false_1 in E1. apply bool_decide_eq_false_1 in E2.
  intros Hst. split; [lra |].
  destruct (decide (one_correlation sel = 0)); injection Hst as <-;
    reflexivity.
Qed.

(** Both kinds of turn keep the sizes of the tables, write one cell of the
    row of the current mode and leave the other rows alone. *)
Lemma diag_step_sized st i st' :
  state_sized ppm st -> diag_step ppt ppm index_md st i = Ok st' ->
  state_sized ppm st'.
Proof.
  intros Hs Hd. apply diag_step_ok in Hd.
  destruct Hd as (sel & a & t & rn & _ & Ht & ->).
  apply state_sized_store. eapply state_sized_tables; [symmetry |]; eassumption.
Qed.

Lemma diag_step_frame st i st' n :
  diag_step ppt ppm index_md st i = Ok st' -> n <> idx i i ->
  cell_of st' index_md n = cell_of st index_md n.
Proof.
  intros Hd Hn. apply diag_step_ok in Hd.
  destruct Hd as (sel & a & t & rn & _ & Ht & ->).
  rewrite cell_of_store_ne by congruence.
  apply cell_of_row, row_of_tables, Ht.
Qed.

Lemma diag_step_other_row st i st' m :
  diag_step ppt ppm index_md st i = Ok st' -> m <> index_md ->
  row_of st' m = row_of st m.
Proof.
  intros Hd Hm. apply diag_step_ok in Hd.
  destruct Hd as (sel & a & t & rn & _ & Ht & ->).
  rewrite row_of_store_ne by congruence. apply row_of_tables, Ht.
Qed.

Lemma cross_step_sized st p st' :
  state_sized ppm st -> cross_step ppt ppm index_md st p = Ok st' ->
  state_sized ppm st'.
Proof.
  destruct p as [i j]. intros Hs Hc. apply cross_step_ok in Hc.
  destruct Hc as [_ ->].
  assert (state_sized ppm (cross_select ppt ppm index_md i j st))
    by (eapply state_sized_tables;
        [symmetry; apply cross_select_tables | exact Hs]).
  destruct (decide _); apply state_sized_store; assumption.
Qed.

Lemma cross_step_frame st p st' n :
  cross_step ppt ppm index_md st p = Ok st' -> n <> idx p.1 p.2 ->
  cell_of st' index_md n = cell_of st index_md n.
Proof.
  destruct p as [i j]. simpl. intros Hc Hn. apply cross_step_ok in Hc.
  destruct Hc as [_ ->].
  destruct (decide _); rewrite cell_of_store_ne by congruence;
    apply cell_of_row, row_of_tables, cross_select_tables.
Qed.

Lemma cross_step_other_row st p st' m :
  cross_step ppt ppm index_md st p = Ok st' -> m <> index_md ->
  row_of st' m = row_of st m.
Proof.
  destruct p as [i j]. intros Hc Hm. apply cross_step_ok in Hc.
  destruct Hc as [_ ->].
  destruct (decide _); rewrite row_of_store_ne by congruence;
    apply row_of_tables, cross_select_tables.
Qed.

Hypothesis mode_in_range : (index_md < md_size ppm)%nat.

(** After the loop over diagonal coefficients every diagonal cell is
    flagged non-zero and holds a positive amplitude. *)
Lemma diag_loop_cells st st' i :
  state_sized ppm st ->
  for_each (diag_step ppt ppm index_md) (seq 0 N) st = Ok st' ->
  (i < N)%nat ->
  exists a t rn, 0 < a /\ cell_of st' index_md (idx i i) = (true, a, t, rn).
Proof.
  intros Hs Hf Hi.
  destruct (for_each_at (diag_step ppt ppm index_md) (fun i => idx i i)
              (fun s n => cell_of s index_md n) (state_sized ppm)
              (fun s k s' n _ H Hn => diag_step_frame s k s' n H Hn)
              diag_step_sized
              (seq 0 N) st st' i (NoDup_cells_diag N)
              ltac:(apply elem_of_seq; lia) Hf Hs)
    as (s1 & s2 & Hs1 & Hb & _ & Hval).
  cbn beta in Hval. rewrite Hval.
  apply diag_step_ok in Hb. destruct Hb as (sel & a & t & rn & Ha & Ht & ->).
  exists a, t, rn. split; [exact Ha |].
  apply (cell_of_store_eq ppm).
  - eapply state_sized_tables; [symmetry |]; eassumption.
  - exact mode_in_range.
  - apply index_symmetric_matrix_bound; lia.
Qed.

Lemma diag_loop_sized st st' :
  state_sized ppm st ->
  for_each (diag_step ppt ppm index_md) (seq 0 N) st = Ok st' ->
  state_sized ppm st'.
Proof.
  intros Hs Hf.
  exact (for_each_inv (diag_step ppt ppm index_md) (state_sized ppm)
           diag_step_sized (seq 0 N) st st' Hf Hs).
Qed.

Lemma diag_loop_other_row st st' m :
  for_each (diag_step ppt ppm index_md) (seq 0 N) st = Ok st' ->
  m <> index_md -> row_of st' m = row_of st m.
Proof.
  intros Hf Hm.
  apply (for_each_inv (diag_step ppt ppm index_md)
           (fun s => row_of s m = row_of st m)
           (fun s k s' Hi Hb =>
              eq_trans (diag_step_other_row s k s' m Hb Hm) Hi)
           (seq 0 N) st st' Hf eq_refl).
Qed.

Lemma cross_loop_sized st st' :
  state_sized ppm st ->
  for_each (cross_step ppt ppm index_md) (ic_pairs_offdiag N) st = Ok st' ->
  state_sized ppm st'.
Proof.
  intros Hs Hf.
  exact (for_each_inv (cross_step ppt ppm index_md) (state_sized ppm)
           cross_step_sized (ic_pairs_offdiag N) st st' Hf Hs).
Qed.

Lemma cross_loop_other_row st st' m :
  for_each (cross_step ppt ppm index_md) (ic_pairs_offdiag N) st = Ok st' ->
  m <> index_md -> row_of st' m = row_of st m.
Proof.
  intros Hf Hm.
  apply (for_each_inv (cross_step ppt ppm index_md)
           (fun s => row_of s m = row_of st m)
           (fun s k s' Hi Hb =>
              eq_trans (cross_step_other_row s k s' m Hb Hm) Hi)
           (ic_pairs_offdiag N) st st' Hf eq_refl).
Qed.

(** The loop over non-diagonal coefficients leaves the diagonal cells as
    they are. *)
Lemma cross_loop_diag st st' i :
  state_sized ppm st ->
  for_each (cross_step ppt ppm index_md) (ic_pairs_offdiag N) st = Ok st' ->
  (i < N)%nat ->
  cell_of st' index_md (idx i i) = cell_of st index_md (idx i i).
Proof.
  intros Hs Hf Hi.
  apply (for_each_frame (cross_step ppt ppm index_md)
           (fun p => idx p.1 p.2) (fun s n => cell_of s index_md n)
           (state_sized ppm)
           (fun s k s' n _ H Hn => cross_step_frame s k s' n H Hn)
           cross_step_sized (ic_pairs_offdiag N) st st' (idx i i) Hf Hs).
  apply (diag_not_offdiag ppm index_md i Hi).
Qed.

(** The turn of the pair [(i, j)]: the cell it writes, in terms of the
    diagonal cells and of the values selected for the pair. *)
Lemma cross_loop_pair st st' i j bi ai ti ri bj aj tj rj :
  state_sized ppm st ->
  for_each (cross_step ppt ppm index_md) (ic_pairs_offdiag N) st = Ok st' ->
  (i < j)%nat -> (j < N)%nat ->
  cell_of st index_md (idx i i) = (bi, ai, ti, ri) ->
  cell_of st index_md (idx j j) = (bj, aj, tj, rj) ->
  exists s1,
    let sel := cross_select ppt ppm index_md i j s1 in
    let c := one_correlation sel in
    -1 <= c <= 1
    /\ cell_of st' index_md (idx i j)
       = if decide (c = 0) then (false, 0, 0, 0)
         else (true, sqrt (ai * aj) * c, 0.5 * (ti + tj) + one_tilt sel,
               0.5 * (ri + rj) + one_running sel).
Proof.
  intros Hs Hf Hij Hj Hci Hcj.
  destruct (for_each_at (cross_step ppt ppm index_md)
              (fun p => idx p.1 p.2) (fun s n => cell_of s index_md n)
              (state_sized ppm)
              (fun s k s' n _ H Hn => cross_step_frame s k s' n H Hn)
              cross_step_sized
              (ic_pairs_offdiag N) st st' (i, j)
              (NoDup_cells_ic_pairs_offdiag N)
              ltac:(apply elem_of_ic_pairs_offdiag; lia) Hf Hs)
    as (s1 & s2 & Hs1 & Hb & Hout & Hval).
  cbn beta iota delta [fst snd] in Hval.
  exists s1. cbv zeta. apply cross_step_ok in Hb. cbv zeta in Hb.
  destruct Hb as [Hc ->]. split; [exact Hc |].
  rewrite Hval.
  set (sel := cross_select ppt ppm index_md i j s1) in *.
  assert (Hsel : tables_of sel = tables_of s1) by apply cross_select_tables.
  assert (Hsz : state_sized ppm sel)
    by (eapply state_sized_tables; [symmetry; exact Hsel | exact Hs1]).
  assert (Hdi : cell_of sel index_md (idx i i) = (bi, ai, ti, ri)).
  { rewrite (cell_of_row sel s1) by (apply row_of_tables, Hsel).
    rewrite <- Hci. apply Hout. apply (diag_not_offdiag ppm index_md i). lia. }
  assert (Hdj : cell_of sel index_md (idx j j) = (bj, aj, tj, rj)).
  { rewrite (cell_of_row sel s1) by (apply row_of_tables, Hsel).
    rewrite <- Hcj. apply Hout. apply (diag_not_offdiag ppm index_md j). lia. }
  unfold cell_of in Hdi, Hdj.
  injection Hdi as _ Hai Hti Hri. injection Hdj as _ Haj Htj Hrj.
  pose proof (index_symmetric_matrix_bound i j N ltac:(lia) Hj) as Hb.
  destruct (decide (one_correlation sel = 0)).
  - apply (cell_of_store_eq ppm); assumption.
  - rewrite (cell_of_store_eq ppm) by assumption.
    cbn beta in *. rewrite Hai, Hti, Hri, Haj, Htj, Hrj. reflexivity.
Qed.

(** The body of the loop over modes, for the row of its mode. *)
Lemma md_step_pair st st' i j :
  state_sized ppm st ->
  analytic_md_step ppt ppm st index_md = Ok st' ->
  (i < j)%nat -> (j < N)%nat ->
  exists s1 ai ti ri aj tj rj,
    0 < ai /\ 0 < aj
    /\ cell_of st' index_md (idx i i) = (true, ai, ti, ri)
    /\ cell_of st' index_md (idx j j) = (true, aj, tj, rj)
    /\ let sel := cross_select ppt ppm index_md i j s1 in
       let c := one_correlation sel in
       -1 <= c <= 1
       /\ cell_of st' index_md (idx i j)
          = if decide (c = 0) then (false, 0, 0, 0)
            else (true, sqrt (ai * aj) * c, 0.5 * (ti + tj) + one_tilt sel,
                  0.5 * (ri + rj) + one_running sel).
Proof.
  intros Hs Hstep Hij Hj. unfold analytic_md_step in Hstep.
  destruct (for_each (diag_step ppt ppm index_md) (seq 0 N) st)
    as [sd | e |] eqn:Hd; simpl in Hstep; try discriminate.
  pose proof (diag_loop_sized st sd Hs Hd) as Hsd.
  destruct (diag_loop_cells st sd i Hs Hd ltac:(lia))
    as (ai & ti & ri & Hai & Hci).
  destruct (diag_loop_cells st sd j Hs Hd Hj) as (aj & tj & rj & Haj & Hcj).
  destruct (cross_loop_pair sd st' i j _ _ _ _ _ _ _ _ Hsd Hstep Hij Hj
              Hci Hcj) as (s1 & Hpair).
  exists s1, ai, ti, ri, aj, tj, rj.
  split; [exact Hai |]. split; [exact Haj |].
  split; [rewrite (cross_loop_diag sd st' i Hsd Hstep ltac:(lia)); exact Hci |].
  split; [rewrite (cross_loop_diag sd st' j Hsd Hstep Hj); exact Hcj |].
  exact Hpair.
Qed.

End AnalyticInit.

Lemma md_step_sized ppt ppm st m st' :
  state_sized ppm st -> analytic_md_step ppt ppm st m = Ok st' ->
  state_sized ppm st'.
Proof.
  intros Hs Hstep. unfold analytic_md_step in Hstep.
  destruct (for_each (diag_step ppt ppm m) _ st) as [sd | e |] eqn:Hd;
    simpl in Hstep; try discriminate.
  eapply cross_loop_sized; [| exact Hstep].
  eapply diag_loop_sized; eassumption.
Qed.

Lemma md_step_other_row ppt ppm st m st' m' :
  analytic_md_step ppt ppm st m = Ok st' -> m' <> m ->
  row_of st' m' = row_of st m'.
Proof.
  intros Hstep Hm. unfold analytic_md_step in Hstep.
  destruct (for_each (diag_step ppt ppm m) _ st) as [sd | e |] eqn:Hd;
    simpl in Hstep; try discriminate.
  rewrite (cross_loop_other_row ppt ppm m sd st' m' Hstep Hm).
  apply (diag_loop_other_row ppt ppm m st sd m' Hd Hm).
Qed.

Lemma alloc_table_sized ppm :
  tables_allocated ppm -> table_sized ppm (alloc_table ppm).
Proof.
  intros [_ Hsize] m Hm. unfold alloc_table.
  split; [rewrite length_fmap, length_seq; exact Hm |].
  rewrite (@list_lookup_total_fmap nat (list R) _ _ _ (seq 0 (md_size ppm)) m)
    by (rewrite length_seq; exact Hm).
  rewrite lookup_total_seq_lt by exact Hm. simpl.
  rewrite length_replicate, (Hsize m Hm). reflexivity.
Qed.

(** The square root of a product of two analytic spectra. *)
Lemma sqrt_exp_product a b x y :
  0 < a -> 0 < b ->
  sqrt (a * exp x * (b * exp y)) = sqrt (a * b) * exp ((x + y) / 2).
Proof.
  intros Ha Hb.
  replace (a * exp x * (b * exp y)) with (a * b * (exp x * exp y)) by ring.
  rewrite <- exp_plus.
  rewrite sqrt_mult; [| nra | left; apply exp_pos].
  f_equal.
  replace (x + y) with ((x + y) / 2 + (x + y) / 2) at 1 by field.
  rewrite exp_plus. apply sqrt_square. left. apply exp_pos.
Qed.

(** The row of a mode in the initialised structure is the one left by the
    turn of that mode. *)
Lemma init_row ppt ppm ppm' m :
  tables_allocated ppm ->
  primordial_analytic_spectrum_init ppt ppm = Ok ppm' ->
  (m < md_size ppm)%nat ->
  exists sa sb,
    state_sized ppm sa
    /\ analytic_md_step ppt ppm sa m = Ok sb
    /\ k_pivot ppm' = k_pivot ppm
    /\ forall c,
        (read2 (is_non_zero ppm') m c, read2 (amplitude ppm') m c,
         read2 (tilt ppm') m c, read2 (running ppm') m c)
        = cell_of sb m c.
Proof.
  intros Halloc Hinit Hm. unfold primordial_analytic_spectrum_init in Hinit.
  match type of Hinit with
  | context [for_each ?b ?ks ?s0] =>
      destruct (for_each b ks s0) as [stf | e |] eqn:Hf; simpl in Hinit;
        try discriminate;
      assert (Hs0 : state_sized ppm s0)
  end.
  { destruct Halloc as [Hnz Hsz].
    split; [exact Hnz |]. simpl.
    split; [| split]; apply alloc_table_sized; split; assumption. }
  injection Hinit as <-.
  destruct (for_each_at (analytic_md_step ppt ppm) (fun m => m)
              (fun s m => row_of s m) (state_sized ppm)
              (fun s k s' n _ H Hn => md_step_other_row ppt ppm s k s' n H Hn)
              (md_step_sized ppt ppm)
              (seq 0 (md_size ppm)) _ stf m
              ltac:(rewrite list_fmap_id; apply NoDup_seq)
              ltac:(apply elem_of_seq; lia) Hf Hs0)
    as (sa & sb & Hsa & Hb & _ & Hval).
  exists sa, sb. split; [exact Hsa |]. split; [exact Hb |].
  split; [reflexivity |].
  intros c. cbn beta in Hval. symmetry. apply cell_of_row. symmetry. exact Hval.
Qed.

(** C3 (as the code behaves).  After
    [primordial_analytic_spectrum_init], at a wavenumber [k > 0] and with a
    pivot scale [k_pivot > 0], for a pair [i < j] of initial conditions of
    a mode, with [c], [n_x] and [alpha_x] the correlation, the cross tilt
    and the cross running selected for the pair: [c] is in [-1, 1] and
    [P_ij(k) = c sqrt(P_ii(k) P_jj(k)) exp(n_x ln(k/k_pivot)
                                           + alpha_x/2 ln^2(k/k_pivot))];
    so [P_ij = c sqrt(P_ii P_jj)] when the cross tilt and the cross running
    are zero. *)
Theorem analytic_cross_spectrum :
  forall (ppt : perturbs) (ppm ppm' : primordial) (index_md i j : nat) (k : R),
    tables_allocated ppm ->
    primordial_analytic_spectrum_init ppt ppm = Ok ppm' ->
    (index_md < md_size ppm)%nat ->
    (i < j)%nat -> (j < ic_size ppm !!! index_md)%nat ->
    0 < k -> 0 < k_pivot ppm ->
    let N := ic_size ppm !!! index_md in
    let P := fun a b =>
      primordial_analytic_spectrum ppm' index_md
        (index_symmetric_matrix a b N) k in
    let L := ln (k / k_pivot ppm) in
    exists st,
      let sel := cross_select ppt ppm index_md i j st in
      let c := one_correlation sel in
      -1 <= c <= 1
      /\ P i j = c * sqrt (P i i * P j j)
                 * exp (one_tilt sel * L + 0.5 * one_running sel * L ^ 2)
      /\ (one_tilt sel = 0 -> one_running sel = 0 ->
          P i j = c * sqrt (P i i * P j j)).
Proof.
  intros ppt ppm ppm' index_md i j k Halloc Hinit Hm Hij Hj _ _ N P L.
  destruct (init_row ppt ppm ppm' index_md Halloc Hinit Hm)
    as (sa & sb & Hsa & Hstep & Hkp & Hcells).
  destruct (md_step_pair ppt ppm index_md Hm sa sb i j Hsa Hstep Hij Hj)
    as (s1 & ai & ti & ri & aj & tj & rj & Hai & Haj & Hci & Hcj & Hc & Hcij).
  cbv zeta in Hc, Hcij.
  exists s1. cbv zeta.
  set (sel := cross_select ppt ppm index_md i j s1) in *.
  set (c := one_correlation sel) in *.
  fold N in Hci, Hcj, Hcij.
  rewrite <- Hcells in Hci, Hcj, Hcij.
  injection Hci as Hnzi Hami Htii Hrui.
  injection Hcj as Hnzj Hamj Htij Hruj.
  assert (HPi : P i i = ai * exp ((ti - 1) * L + 0.5 * ri * L ^ 2)).
  { unfold P, primordial_analytic_spectrum, L.
    rewrite Hnzi, Hami, Htii, Hrui, Hkp. reflexivity. }
  assert (HPj : P j j = aj * exp ((tj - 1) * L + 0.5 * rj * L ^ 2)).
  { unfold P, primordial_analytic_spectrum, L.
    rewrite Hnzj, Hamj, Htij, Hruj, Hkp. reflexivity. }
  assert (Hmain : P i j = c * sqrt (P i i * P j j)
                  * exp (one_tilt sel * L + 0.5 * one_running sel * L ^ 2)).
  { rewrite HPi, HPj, sqrt_exp_product by assumption.
    unfold P, primordial_analytic_spectrum. fold L.
    destruct (decide (c = 0)) as [Hz | Hnz];
      injection Hcij as Hnzij Hamij Htiij Hruij;
      rewrite Hnzij.
    - rewrite Hz. ring.
    - rewrite Hamij, Htiij, Hruij, Hkp. fold L.
      replace ((0.5 * (ti + tj) + one_tilt sel - 1) * L
               + 0.5 * (0.5 * (ri + rj) + one_running sel) * L ^ 2) with
        (((ti - 1) * L + 0.5 * ri * L ^ 2
          + ((tj - 1) * L + 0.5 * rj * L ^ 2)) / 2
         + (one_tilt sel * L + 0.5 * one_running sel * L ^ 2))
        by (replace 0.5 with (1 / 2) by lra; field).
      rewrite exp_plus. ring. }
  split; [exact Hc |].
  split; [exact Hmain |].
  intros Ht Hr. rewrite Hmain, Ht, Hr.
  replace (0 * L + 0.5 * 0 * L ^ 2) with 0 by ring.
  rewrite exp_0. ring.
Qed.

(** ** Evaluation on the example inputs *)

Ltac decide_real :=
  match goal with
  | |- context [bool_decide ?P] =>
      first [ rewrite (bool_decide_eq_true_2 P) by lra
            | rewrite (bool_decide_eq_false_2 P) by lra ]
  | |- context [decide ?P] =>
      let H := fresh in
      destruct (decide P) as [H | H]; try (exfalso; first [lra | congruence])
  end.

Ltac eval_model :=
  cbn -[Rle Rlt Rgt Rge bool_decide decide sqrt exp ln
        primordial_analytic_spectrum];
  change (index_symmetric_matrix 0 0 2) with 0%nat;
  change (index_symmetric_matrix 0 1 2) with 1%nat;
  change (index_symmetric_matrix 1 1 2) with 2%nat;
  cbn -[Rle Rlt Rgt Rge bool_decide decide sqrt exp ln
        primordial_analytic_spectrum].

Ltac eval_init :=
  unfold primordial_analytic_spectrum_init, for_each, analytic_md_step;
  eval_model; unfold diag_step; eval_model;
  repeat decide_real; eval_model; repeat decide_real;
  unfold cross_step; eval_model; repeat decide_real; eval_model.

Lemma init_full_correlation :
  primordial_analytic_spectrum_init ppt_ad_cdi ppm_full_correlation
  = Ok tables_full_correlation.
Proof.
  eval_init. unfold tables_full_correlation, set_analytic_tables. eval_model.
  replace (3 * (3 * 1 * 1)) with (3 * 3) by lra.
  rewrite sqrt_square by lra.
  repeat f_equal; lra.
Qed.

Lemma init_cross_tilt :
  primordial_analytic_spectrum_init ppt_ad_cdi ppm_cross_tilt
  = Ok tables_cross_tilt.
Proof.
  eval_init. unfold tables_cross_tilt, set_analytic_tables. eval_model.
  replace (1 * (1 * 1 * 1)) with 1 by lra.
  rewrite sqrt_1.
  repeat f_equal; lra.
Qed.

Lemma tables_allocated_cross_tilt : tables_allocated ppm_cross_tilt.
Proof.
  split.
  - intros m Hm. simpl in Hm. assert (m = 0%nat) as -> by lia.
    simpl. lia.
  - intros m Hm. simpl in Hm. assert (m = 0%nat) as -> by lia.
    reflexivity.
Qed.

(** The analytic spectra of the example with a cross tilt, one e-fold above
    the pivot scale. *)
Lemma spectra_cross_tilt :
  primordial_analytic_spectrum tables_cross_tilt 0 0 (exp 1) = 1
  /\ primordial_analytic_spectrum tables_cross_tilt 0 1 (exp 1) = exp 1 / 2
  /\ primordial_analytic_spectrum tables_cross_tilt 0 2 (exp 1) = 1.
Proof.
  unfold primordial_analytic_spectrum. cbn -[exp ln].
  replace (exp 1 / 1) with (exp 1) by field. rewrite ln_exp.
  repeat split.
  - replace ((1 - 1) * 1 + 0.5 * 0 * (1 * (1 * 1))) with 0 by lra.
    rewrite exp_0. lra.
  - replace ((2 - 1) * 1 + 0.5 * 0 * (1 * (1 * 1))) with 1 by lra. lra.
  - replace ((1 - 1) * 1 + 0.5 * 0 * (1 * (1 * 1))) with 0 by lra.
    rewrite exp_0. lra.
Qed.

(** C3 as stated fails: with correlation 1/2 and cross tilt 1, one e-fold
    above the pivot the off-diagonal spectrum is [e/2], not
    [1/2 * sqrt(1 * 1)]. *)
Lemma analytic_cross_spectrum_counterexample :
  exists ppm',
    primordial_analytic_spectrum_init ppt_ad_cdi ppm_cross_tilt = Ok ppm'
    /\ c_ad_cdi ppm_cross_tilt = 1 / 2
    /\ 0 < exp 1
    /\ primordial_analytic_spectrum ppm' 0 (index_symmetric_matrix 0 1 2)
         (exp 1)
       <> c_ad_cdi ppm_cross_tilt
          * sqrt (primordial_analytic_spectrum ppm' 0
                    (index_symmetric_matrix 0 0 2) (exp 1)
                  * primordial_analytic_spectrum ppm' 0
                      (index_symmetric_matrix 1 1 2) (exp 1)).
Proof.
  exists tables_cross_tilt. split; [exact init_cross_tilt |].
  split; [reflexivity |]. split; [apply exp_pos |].
  change (index_symmetric_matrix 0 0 2) with 0%nat.
  change (index_symmetric_matrix 0 1 2) with 1%nat.
  change (index_symmetric_matrix 1 1 2) with 2%nat.
  destruct spectra_cross_tilt as (-> & -> & ->).
  replace (1 * 1) with 1 by lra. rewrite sqrt_1.
  change (c_ad_cdi ppm_cross_tilt) with (1 / 2).
  pose proof (exp_ineq1 1 ltac:(lra)). lra.
Qed.

Lemma analytic_cross_spectrum_witness :
  let P := fun a b =>
    primordial_analytic_spectrum tables_cross_tilt 0
      (index_symmetric_matrix a b (ic_size ppm_cross_tilt !!! 0%nat)) (exp 1) in
  let L := ln (exp 1 / k_pivot ppm_cross_tilt) in
  exists st,
    let sel := cross_select ppt_ad_cdi ppm_cross_tilt 0 0 1 st in
    let c := one_correlation sel in
    -1 <= c <= 1
    /\ P 0%nat 1%nat
       = c * sqrt (P 0%nat 0%nat * P 1%nat 1%nat)
         * exp (one_tilt sel * L + 0.5 * one_running sel * L ^ 2)
    /\ (one_tilt sel = 0 -> one_running sel = 0 ->
        P 0%nat 1%nat = c * sqrt (P 0%nat 0%nat * P 1%nat 1%nat)).
Proof.
  apply (analytic_cross_spectrum ppt_ad_cdi ppm_cross_tilt tables_cross_tilt
           0 0 1 (exp 1) tables_allocated_cross_tilt init_cross_tilt);
    try (simpl; lia); [apply exp_pos | simpl; lra].
Defined.

(** The spectra of the fully correlated example at the pivot scale. *)
Lemma spectra_full_correlation c :
  (c < 3)%nat ->
  primordial_analytic_spectrum tables_full_correlation 0 c (exp 0) = 3.
Proof.
  intros Hc. unfold primordial_analytic_spectrum.
  assert (Hv : c = 0%nat \/ c = 1%nat \/ c = 2%nat) by lia.
  destruct Hv as [-> | [-> | ->]]; cbn -[exp ln];
    rewrite exp_0; replace (1 / 1) with 1 by field; rewrite ln_1;
    replace ((1 - 1) * 0 + 0.5 * 0 * (0 * (0 * 1))) with 0 by lra;
    rewrite exp_0; lra.
Qed.

Lemma ln_3_bounds : 0 < ln 3 < 3.
Proof.
  split.
  - rewrite <- ln_1. apply ln_increasing; lra.
  - rewrite <- (ln_exp 3) at 2. apply ln_increasing; [lra |].
    pose proof (exp_ineq1 3 ltac:(lra)). lra.
Qed.

(** What [primordial_init] stores for a pair of initial conditions is a
    cosine: it lies in [[-1, 1]] whenever the two diagonal spectra are
    positive. *)
Lemma primordial_init_entry_clamped ppm index_md i j k :
  i <> j ->
  let N := ic_size ppm !!! index_md in
  0 < primordial_analytic_spectrum ppm index_md (index_symmetric_matrix i i N) k ->
  0 < primordial_analytic_spectrum ppm index_md (index_symmetric_matrix j j N) k ->
  -1 <= primordial_init_entry ppm index_md i j k <= 1.
Proof.
  intros Hne N H1 H2. unfold primordial_init_entry. fold N.
  destruct (read2 (is_non_zero ppm) index_md (index_symmetric_matrix i j N));
    [| lra].
  destruct (decide (i = j)); [contradiction |].
  set (pk := primordial_analytic_spectrum ppm index_md
               (index_symmetric_matrix i j N) k).
  set (s := sqrt _).
  assert (Hs : 0 < s) by (apply sqrt_lt_R0; nra).
  destruct (decide (pk > s)); [lra |].
  destruct (decide (pk < - s)); [lra |].
  split.
  - apply Rmult_le_reg_r with s; [exact Hs |].
    unfold Rdiv. rewrite Rmult_assoc, Rinv_l by lra. lra.
  - apply Rmult_le_reg_r with s; [exact Hs |].
    unfold Rdiv. rewrite Rmult_assoc, Rinv_l by lra. lra.
Qed.

(** C2.  The cross-correlation delivered in logarithmic mode is not always
    in [[-1, 1]].  For the analytic spectrum with amplitude 3 for both
    initial conditions and correlation 1, [primordial_init] stores the
    cosine 1 for a wavenumber of the table, but a query below the table, at
    [ln k = 0], succeeds and delivers [3 / ln 3], which exceeds 1: the direct
    computation divides by the square root of the product of the logarithms
    of the diagonal spectra and does not clamp. *)
Theorem out_of_range_correlation_not_clamped :
  forall array_interpolate_spline,
    primordial_analytic_spectrum_init ppt_ad_cdi ppm_full_correlation
    = Ok tables_full_correlation
    /\ primordial_init_entry tables_full_correlation 0 0 1 (exp 0) = 1
    /\ exists out,
         primordial_spectrum_at_k array_interpolate_spline
           tables_full_correlation 0 logarithmic 0 [0; 0; 0] = (Ok tt, out)
         /\ out !!! index_symmetric_matrix 0 1 2 = 3 / ln 3
         /\ 1 < out !!! index_symmetric_matrix 0 1 2.
Proof.
  intros spline. split; [exact init_full_correlation |]. split.
  - unfold primordial_init_entry.
    change (ic_size tables_full_correlation !!! 0%nat) with 2%nat.
    change (index_symmetric_matrix 0 0 2) with 0%nat.
    change (index_symmetric_matrix 0 1 2) with 1%nat.
    change (index_symmetric_matrix 1 1 2) with 2%nat.
    change (read2 (is_non_zero tables_full_correlation) 0 1) with true.
    cbv iota. rewrite !spectra_full_correlation by lia.
    destruct (decide (0%nat = 1%nat)); [discriminate |].
    replace (3 * 3) with (Rsqr 3) by (unfold Rsqr; lra).
    rewrite sqrt_Rsqr by lra.
    repeat decide_real. field.
  - eexists. split.
    + unfold primordial_spectrum_at_k, spectrum_at_lnk.
      change (lnk tables_full_correlation !!! (lnk_size tables_full_correlation - 1)%nat)
        with 2.
      change (lnk tables_full_correlation !!! 0%nat) with 1.
      rewrite (bool_decide_eq_false_2 (0 > 2)) by lra.
      rewrite (bool_decide_eq_true_2 (0 < 1)) by lra.
      cbn [orb].
      destruct (decide (primordial_spec_type tables_full_correlation
                        <> analytic_Pk)) as [Hne | _];
        [exfalso; apply Hne; reflexivity | reflexivity].
    + pose proof (direct_computation_log_cross tables_full_correlation 0 0
                    [0; 0; 0] 0 1 ltac:(lia) ltac:(simpl; lia)
                    ltac:(simpl; lia)) as Hc.
      cbn beta iota delta [fst snd] in Hc.
      change (ic_size tables_full_correlation !!! 0%nat) with 2%nat in Hc.
      rewrite Hc.
      change (index_symmetric_matrix 0 0 2) with 0%nat.
      change (index_symmetric_matrix 0 1 2) with 1%nat.
      change (index_symmetric_matrix 1 1 2) with 2%nat.
      change (read2 (is_non_zero tables_full_correlation) 0 1) with true.
      cbv iota. rewrite !spectra_full_correlation by lia.
      pose proof ln_3_bounds as [Hl0 Hl3].
      replace (ln 3 * ln 3) with (Rsqr (ln 3)) by (unfold Rsqr; lra).
      rewrite sqrt_Rsqr by lra.
      split; [reflexivity |].
      apply Rmult_lt_reg_r with (ln 3); [exact Hl0 |].
      unfold Rdiv. rewrite Rmult_assoc, Rinv_l by lra. lra.
Qed.

(** The fully correlated example queried in linear mode at [k = 1], below
    the table. *)
Lemma spectrum_at_k_table_range_witness :
  exists out,
    primordial_spectrum_at_k first_line_interpolation tables_full_correlation
      0 linear 1 [0; 0; 0] = (Ok tt, out)
    /\ out !!! 0%nat = 3.
Proof.
  pose proof (spectrum_at_k_table_range first_line_interpolation
                tables_full_correlation 0 linear 1 [0; 0; 0]
                (fun _ => Rlt_0_1) ltac:(simpl; lia)) as (_ & Hout & _).
  cbv zeta in Hout.
  destruct Hout as (out & Hcall & Hdiag & _).
  - right. change (lnk tables_full_correlation !!! 0%nat) with 1.
    rewrite ln_1. lra.
  - reflexivity.
  - exists out. split; [exact Hcall |].
    specialize (Hdiag 0%nat ltac:(simpl; lia) eq_refl).
    change (index_symmetric_matrix 0 0 (ic_size tables_full_correlation !!! 0%nat))
      with 0%nat in Hdiag.
    rewrite Hdiag. cbn -[exp ln].
    rewrite ln_1, exp_0. replace (1 / 1) with 1 by field. rewrite ln_1.
    replace ((1 - 1) * 0 + 0.5 * 0 * (0 * (0 * 1))) with 0 by lra.
    rewrite exp_0. lra.
Defined.

(** With [primordial_inflation_attractor_maxit = 1] the first turn of the
    loop of the attractor solver already reaches the maximum: the search
    started at the pivot of the linear potential fails, whatever the
    integrator. *)
Example find_attractor_maxit_1 :
  forall generic_integrator fuel s,
    fst (primordial_inflation_find_attractor generic_integrator
           ppm_inflation_V
           {| primordial_inflation_ratio_min := 100;
              primordial_inflation_ratio_max := 1 / 50;
              primordial_inflation_attractor_maxit := 1;
              primordial_inflation_bg_stepsize := 1 / 200;
              primordial_inflation_pt_stepsize := 1 / 100;
              primordial_inflation_tol_integration := 1 / 1000;
              primordial_inflation_tol_curvature := 1 / 1000;
              smallest_allowed_variation := 1 / 1000000 |}
           fuel 0 (1 / 100) s)
    = Err AttractorNotFound.
Proof.
  intros integrator fuel s.
  unfold primordial_inflation_find_attractor. rewrite M_bind_unfold.
  assert (Hc : primordial_inflation_check_potential ppm_inflation_V 0
               = Ok (1, -1, 0)).
  { unfold primordial_inflation_check_potential,
      primordial_inflation_potential.
    cbn -[Rle Rge bool_decide].
    rewrite (bool_decide_eq_false_2 (_ <= 0)) by lra.
    cbn -[Rle Rge bool_decide].
    rewrite (bool_decide_eq_false_2 (_ >= 0)) by lra.
    cbn -[Rle Rge bool_decide]. repeat f_equal; lra. }
  unfold lift at 1. rewrite Hc. cbv iota beta. rewrite M_bind_unfold.
  cbn [Z.to_nat Pos.to_nat Pos.iter_op Nat.add
       primordial_inflation_attractor_maxit attractor_loop].
  destruct (decide (not_converged (1 / 100) (attractor_start 0 (1 / 100) (-1) 1)))
    as [_ | Hn].
  2: { exfalso. apply Hn. apply attractor_start_not_converged; lra. }
  rewrite M_bind_unfold. unfold attractor_step. rewrite M_bind_unfold.
  reflexivity.
Qed.

(** After [primordial_analytic_spectrum_init] every diagonal entry is
    flagged non-zero: the entries flagged zero that
    [primordial_spectrum_at_k] meets for an analytic spectrum are
    cross-correlations. *)
Lemma init_flags_diagonal ppt ppm ppm' m i :
  tables_allocated ppm ->
  primordial_analytic_spectrum_init ppt ppm = Ok ppm' ->
  (m < md_size ppm)%nat -> (i < ic_size ppm !!! m)%nat ->
  read2 (is_non_zero ppm') m
    (index_symmetric_matrix i i (ic_size ppm !!! m)) = true.
Proof.
  intros Halloc Hinit Hm Hi.
  destruct (init_row ppt ppm ppm' m Halloc Hinit Hm)
    as (sa & sb & Hsa & Hstep & _ & Hcells).
  unfold analytic_md_step in Hstep.
  destruct (for_each (diag_step ppt ppm m) (seq 0 (ic_size ppm !!! m)) sa)
    as [sd | e |] eqn:Hd; simpl in Hstep; try discriminate.
  pose proof (diag_loop_sized ppt ppm m sa sd Hsa Hd) as Hsd.
  destruct (diag_loop_cells ppt ppm m Hm sa sd i Hsa Hd Hi)
    as (a & t & rn & _ & Hc).
  rewrite <- (cross_loop_diag ppt ppm m sd sb i Hsd Hstep Hi) in Hc.
  rewrite <- Hcells in Hc. injection Hc as Hnz _ _ _. exact Hnz.
Qed.

(** The parameters selected for the pair (ad, cdi) do not depend on what
    the previous turns of the loop left in the local variables. *)
Example cross_select_ad_cdi :
  forall st,
    let sel := cross_select ppt_ad_cdi ppm_cross_tilt 0 0 1 st in
    one_correlation sel = 1 / 2 /\ one_tilt sel = 1 /\ one_running sel = 0.
Proof. intros st. repeat split. Qed.

(** * Further properties of the energy injection functions *)

(** X1.  The three deposition fractions add up to 1 and the excitation
    fraction equals the ionisation fraction, for every [xe]; for an
    ionisation fraction [0 <= xe <= 1] each of them is a fraction in
    [[0, 1]], and at [xe = 1] all the energy goes into heat. *)
Theorem deposition_fractions :
  forall xe : R,
    chi_heat xe + chi_ion xe + chi_exc xe = 1
    /\ chi_exc xe = chi_ion xe
    /\ (0 <= xe <= 1 ->
        1 / 3 <= chi_heat xe <= 1 /\ 0 <= chi_ion xe <= 1 / 3
        /\ 0 <= chi_exc xe <= 1 / 3)
    /\ (xe = 1 -> chi_heat xe = 1 /\ chi_ion xe = 0 /\ chi_exc xe = 0).
Proof.
  intros xe. unfold chi_exc, chi_ion, chi_heat.
  repeat split; try intros; subst; lra.
Qed.

(** The factor that multiplies [pann]: the three branches on [z] are one
    formula in which [1 + z] is clamped to [[1 + ann_zmin, 1 + ann_zmax]]. *)
Lemma pann_variation_clamped (var zp1 zp1_ann zp1_max zp1_min p : R) :
  zp1_min <= zp1_max -> zp1_max <> 0 ->
  (if decide (zp1 > zp1_max) then
     p * exp (- var * square (ln (zp1_ann / zp1_max)))
   else if decide (zp1 > zp1_min) then
     p * exp (var * (- square (ln (zp1_ann / zp1_max))
                     + square (ln (zp1 / zp1_max))))
   else
     p * exp (var * (- square (ln (zp1_ann / zp1_max))
                     + square (ln (zp1_min / zp1_max)))))
  = p * exp (var * (- square (ln (zp1_ann / zp1_max))
                    + square (ln (Rmax zp1_min (Rmin zp1 zp1_max) / zp1_max)))).
Proof.
  intros Hle Hnz.
  destruct (decide (zp1 > zp1_max)) as [H1 | H1].
  - rewrite Rmin_right by lra. rewrite Rmax_right by lra.
    replace (zp1_max / zp1_max) with 1 by (field; exact Hnz).
    rewrite ln_1. unfold square. f_equal. f_equal. ring.
  - rewrite Rmin_left by lra.
    destruct (decide (zp1 > zp1_min)) as [H2 | H2].
    + rewrite Rmax_right by lra. reflexivity.
    + rewrite Rmax_left by lra. reflexivity.
Qed.

(** X2.  The annihilation rate is the prefactor
    [square(10537.4 odmh2) (1+z)^3 1e-9] times the sum of the smooth
    contribution, present when [pann > 0], and of the halo contribution,
    present when [pann_halo > 0].  The smooth contribution is
    [pann (1+z)^3 exp(var (-ln^2((1+ann_z)/(1+ann_zmax))
    + ln^2(c/(1+ann_zmax))))] where [c] is [1+z] clamped to
    [[1+ann_zmin, 1+ann_zmax]]: the three branches of the code join
    continuously and the variation is frozen outside that interval. *)
Theorem dEdtdV_DM_ann_clamped :
  forall (z : R) (params : INJ_PARAMS),
    ann_zmin params <= ann_zmax params ->
    ann_zmax params + 1 <> 0 ->
    let zp1 := z + 1 in
    let zp1_max := ann_zmax params + 1 in
    let c := Rmax (ann_zmin params + 1) (Rmin zp1 zp1_max) in
    let u := zp1 / (ann_z_halo params + 1) in
    let smooth :=
      if decide (pann params > 0) then
        pann params
        * exp (ann_var params
               * (- square (ln ((ann_z params + 1) / zp1_max))
                  + square (ln (c / zp1_max))))
        * zp1 ^ 3
      else 0 in
    let halo :=
      if decide (pann_halo params > 0) then
        pann_halo params
        / (1 + 0.278393 * u + 0.230389 * u ^ 2 + 0.000972 * u ^ 3
           + 0.078108 * u ^ 4) ^ 4
      else 0 in
    dEdtdV_DM_ann z params
    = square (10537.4 * odmh2 params) * zp1 ^ 3 * 1e-9 * (smooth + halo).
Proof.
  intros z params Hle Hnz zp1 zp1_max c u smooth halo.
  unfold dEdtdV_DM_ann. cbv zeta.
  rewrite (pann_variation_clamped (ann_var params) (z + 1)
             (ann_z params + 1) (ann_zmax params + 1) (ann_zmin params + 1)
             (pann params)) by lra.
  fold zp1 zp1_max c. unfold smooth, halo.
  destruct (decide (pann params > 0)); destruct (decide (pann_halo params > 0));
    fold u; unfold Rdiv;
    try replace (1 + 0.278393 * u + 0.230389 * u * u + 0.000972 * u * u * u
                 + 0.078108 * u * u * u * u)
      with (1 + 0.278393 * u + 0.230389 * u ^ 2 + 0.000972 * u ^ 3
            + 0.078108 * u ^ 4) by ring;
    ring.
Qed.

Lemma dEdtdV_DM_ann_clamped_witness :
  dEdtdV_DM_ann 1000
    {| odmh2 := 0.12; pann := 1; pann_halo := 0; ann_z := 600;
       ann_zmax := 1000; ann_zmin := 30; ann_var := 1; ann_z_halo := 30;
       on_the_spot := 1; Mpbh := 1; fpbh := 0; coll_ion := 0 |}
  = square (10537.4 * 0.12) * (1000 + 1) ^ 3 * 1e-9
    * (1 * exp (1 * (- square (ln ((600 + 1) / (1000 + 1)))
                     + square (ln (Rmax (30 + 1) (Rmin (1000 + 1) (1000 + 1))
                                   / (1000 + 1)))))
       * (1000 + 1) ^ 3 + 0).
Proof.
  pose proof (dEdtdV_DM_ann_clamped 1000
    {| odmh2 := 0.12; pann := 1; pann_halo := 0; ann_z := 600;
       ann_zmax := 1000; ann_zmin := 30; ann_var := 1; ann_z_halo := 30;
       on_the_spot := 1; Mpbh := 1; fpbh := 0; coll_ion := 0 |}
    ltac:(simpl; lra) ltac:(simpl; lra)) as H.
  cbv zeta in H. cbn [pann pann_halo ann_var ann_z ann_zmax ann_zmin odmh2] in H.
  destruct (decide (1 > 0)) as [_ | Hn]; [| exfalso; lra].
  destruct (decide (0 > 0)) as [Hp | _]; [exfalso; lra |].
  exact H.
Defined.

(** X3.  The annihilation rate is never negative when the redshift [z]
    and the four redshift parameters [ann_z], [ann_zmax], [ann_zmin] and
    [ann_z_halo] are above [-1], so that every logarithm is taken of a
    positive ratio and the halo term divides by a number that is at least
    1: a channel contributes only when its parameter is positive, and it
    then contributes a non-negative amount. *)
Theorem dEdtdV_DM_ann_nonneg :
  forall (z : R) (params : INJ_PARAMS),
    -1 < z -> -1 < ann_z params -> -1 < ann_zmax params ->
    -1 < ann_zmin params -> -1 < ann_z_halo params ->
    0 <= dEdtdV_DM_ann z params.
Proof.
  intros z params Hz' _ _ _ Hhalo.
  assert (Hz : -1 <= z) by lra.
  unfold dEdtdV_DM_ann. cbv zeta.
  set (zp1 := z + 1). assert (Hzp : 0 <= zp1) by (unfold zp1; lra).
  set (k := square (10537.4 * odmh2 params)).
  assert (Hk : 0 <= k) by (unfold k, square; nra).
  assert (Hz3 : 0 <= zp1 * zp1 * zp1) by (apply Rmult_le_pos; nra).
  set (smooth := if decide (pann params > 0) then _ else 0).
  assert (Hs : 0 <= smooth).
  { unfold smooth. destruct (decide (pann params > 0)) as [Hp | _]; [| lra].
    apply Rmult_le_pos; [| exact Hz3].
    destruct (decide (zp1 > _)); [| destruct (decide (zp1 > _))];
      apply Rmult_le_pos; try lra; left; apply exp_pos. }
  set (tot := if decide (pann_halo params > 0) then _ else smooth).
  assert (Ht : 0 <= tot).
  { unfold tot. destruct (decide (pann_halo params > 0)) as [Hp | _];
      [| exact Hs].
    set (u := zp1 / (ann_z_halo params + 1)).
    assert (Hu : 0 <= u).
    { unfold u, Rdiv. apply Rmult_le_pos; [exact Hzp |].
      left. apply Rinv_0_lt_compat. lra. }
    set (q := 1 + _ + _ + _ + _).
    assert (Hq1 : 1 <= q).
    { unfold q. assert (0 <= u * u) by nra.
      assert (0 <= u * u * u) by nra. assert (0 <= u * u * u * u) by nra.
      lra. }
    assert (Hq : 0 < / q ^ 4).
    { apply Rinv_0_lt_compat. apply pow_lt. lra. }
    nra. }
  assert (0 <= k * zp1 * zp1 * zp1) by nra.
  assert (0 <= k * zp1 * zp1 * zp1 * 1e-9) by nra.
  nra.
Qed.

Lemma dEdtdV_DM_ann_nonneg_witness :
  0 <= dEdtdV_DM_ann 1000
         {| odmh2 := 0.12; pann := 1; pann_halo := 1; ann_z := 600;
            ann_zmax := 1000; ann_zmin := 30; ann_var := 1; ann_z_halo := 30;
            on_the_spot := 1; Mpbh := 1; fpbh := 0; coll_ion := 0 |}.
Proof. apply dEdtdV_DM_ann_nonneg; simpl; lra. Defined.

(** X4.  Outside the on-the-spot mode, with [H] non-zero and a
    non-negative coefficient [2e-15 dlna nH/H], the new deposition rate is a weighted mean of the old
    one damped by [exp(-7 dlna)] and of the injection rate: it lies between
    the two; and a step [dlna = 0] leaves the deposition rate as it was. *)
Theorem update_dEdtdV_dep_mean :
  forall (z_out dlna xe Tgas nH H : R) (params : INJ_PARAMS) (dep_old : R),
    on_the_spot params <> 1%Z ->
    H <> 0 -> 0 <= 2e-15 * dlna * nH / H ->
    let inj := dEdtdV_inj z_out xe Tgas params in
    let damped := dep_old * exp (- 7 * dlna) in
    let dep_new := update_dEdtdV_dep z_out dlna xe Tgas nH H params dep_old in
    Rmin damped inj <= dep_new <= Rmax damped inj
    /\ (dlna = 0 -> dep_new = dep_old).
Proof.
  intros z_out dlna xe Tgas nH H params dep_old Hspot HH Hc inj damped dep_new.
  unfold dep_new, update_dEdtdV_dep. fold inj.
  destruct (decide (on_the_spot params = 1%Z)); [contradiction |].
  fold damped. set (c := 2e-15 * dlna * nH / H) in *.
  assert (H1 : 0 < 1 + c) by lra.
  pose proof (Rmin_l damped inj). pose proof (Rmin_r damped inj).
  pose proof (Rmax_l damped inj). pose proof (Rmax_r damped inj).
  split; [split |].
  - apply Rmult_le_reg_r with (1 + c); [exact H1 |].
    unfold Rdiv. rewrite Rmult_assoc, Rinv_l by lra. nra.
  - apply Rmult_le_reg_r with (1 + c); [exact H1 |].
    unfold Rdiv. rewrite Rmult_assoc, Rinv_l by lra. nra.
  - intros ->. unfold damped, c.
    replace (- 7 * 0) with 0 by ring. rewrite exp_0.
    unfold Rdiv. rewrite !Rmult_0_r, !Rmult_0_l, Rplus_0_r, Rplus_0_r.
    rewrite Rinv_1. ring.
Qed.

Lemma update_dEdtdV_dep_mean_witness :
  let params :=
    {| odmh2 := 0.12; pann := 0; pann_halo := 0; ann_z := 600;
       ann_zmax := 1000; ann_zmin := 30; ann_var := 1; ann_z_halo := 30;
       on_the_spot := 0; Mpbh := 1; fpbh := 0; coll_ion := 0 |} in
  Rmin (5 * exp (- 7 * 1)) (dEdtdV_inj 1000 1 3000 params)
  <= update_dEdtdV_dep 1000 1 1 3000 1 1 params 5
  <= Rmax (5 * exp (- 7 * 1)) (dEdtdV_inj 1000 1 3000 params).
Proof.
  exact (proj1 (update_dEdtdV_dep_mean 1000 1 1 3000 1 1
    {| odmh2 := 0.12; pann := 0; pann_halo := 0; ann_z := 600;
       ann_zmax := 1000; ann_zmin := 30; ann_var := 1; ann_z_halo := 30;
       on_the_spot := 0; Mpbh := 1; fpbh := 0; coll_ion := 0 |} 5
    ltac:(simpl; lia) ltac:(lra) ltac:(lra))).
Defined.

(** At [xe = 1] the collisional-ionisation factor [((1+xe)/2)^8] is 1. *)
Lemma TS_over_me_pbh_full_ionisation Mpbh z Teff c1 c2 :
  TS_over_me_pbh Mpbh z 1 Teff c1 = TS_over_me_pbh Mpbh z 1 Teff c2.
Proof.
  unfold TS_over_me_pbh. cbv zeta.
  replace (((1 + 1) / 2) ^ 8) with 1 by field.
  destruct (decide (c1 = 1%Z)); destruct (decide (c2 = 1%Z));
    rewrite ?Rmult_1_r; reflexivity.
Qed.

Lemma L_pbh_full_ionisation Mpbh z Teff c1 c2 :
  L_pbh Mpbh z 1 Teff c1 = L_pbh Mpbh z 1 Teff c2.
Proof.
  unfold L_pbh, eps_over_mdot_pbh. cbv zeta.
  rewrite (TS_over_me_pbh_full_ionisation Mpbh z Teff c1 c2). reflexivity.
Qed.

Lemma L_pbh_av_full_ionisation Mpbh z Tgas c1 c2 :
  L_pbh_av Mpbh z 1 Tgas c1 = L_pbh_av Mpbh z 1 Tgas c2.
Proof.
  unfold L_pbh_av. cbv zeta.
  assert (Hstep : forall acc i,
             L_pbh_av_step Mpbh z 1 Tgas c1 (vbc_rms_func z)
               (5 * vbc_rms_func z) 50 acc i
             = L_pbh_av_step Mpbh z 1 Tgas c2 (vbc_rms_func z)
                 (5 * vbc_rms_func z) 50 acc i).
  { intros [num denom] i. unfold L_pbh_av_step. cbv zeta.
    rewrite (L_pbh_full_ionisation Mpbh z _ c1 c2). reflexivity. }
  assert (Hfold : forall l acc,
             fold_left (L_pbh_av_step Mpbh z 1 Tgas c1 (vbc_rms_func z)
                          (5 * vbc_rms_func z) 50) l acc
             = fold_left (L_pbh_av_step Mpbh z 1 Tgas c2 (vbc_rms_func z)
                            (5 * vbc_rms_func z) 50) l acc).
  { induction l as [| i l IH]; intros acc; simpl; [reflexivity |].
    rewrite Hstep. apply IH. }
  rewrite Hfold. reflexivity.
Qed.

(** X5.  The ionisation fraction is capped at 1 before it is used, and at
    [xe = 1] collisional ionisation and photoionisation give the same
    temperature: for [xe >= 1] the injection rate of the black holes is its
    value at [xe = 1] and does not depend on [coll_ion]. *)
Theorem dEdtdV_pbh_saturates :
  forall (fpbh Mpbh z xe Tgas : R) (c1 c2 : Z),
    1 <= xe ->
    dEdtdV_pbh fpbh Mpbh z xe Tgas c1 = dEdtdV_pbh fpbh Mpbh z 1 Tgas c2.
Proof.
  intros fpbh Mpbh z xe Tgas c1 c2 Hxe. unfold dEdtdV_pbh. cbv zeta.
  destruct (decide (xe < 1)) as [Hlt | _]; [lra |].
  destruct (decide (1 < 1)) as [Hlt | _]; [lra |].
  destruct (decide (fpbh > 0)); [| reflexivity].
  rewrite (L_pbh_av_full_ionisation Mpbh z Tgas c1 c2). reflexivity.
Qed.

Lemma dEdtdV_pbh_saturates_witness :
  dEdtdV_pbh (1 / 10) 100 500 2 3000 1%Z
  = dEdtdV_pbh (1 / 10) 100 500 1 3000 0%Z.
Proof. apply dEdtdV_pbh_saturates. lra. Defined.

(** The weights of the quadrature are non-negative and the sampled
    effective temperatures are at least [Tgas], so the two sums keep
    [lo * denom <= num] when [lo] is a lower bound of the luminosity there,
    and [num <= hi * denom] when [hi] is an upper bound. *)
Lemma L_pbh_av_fold_bounds Mpbh z xe Tgas coll_ion vbc_rms vbc_max Nvbc :
  -1 < xe ->
  forall l num denom,
    let '(num', denom') :=
      fold_left (L_pbh_av_step Mpbh z xe Tgas coll_ion vbc_rms vbc_max Nvbc)
                l (num, denom) in
    (0 <= denom -> denom <= denom')
    /\ (forall lo, (forall Teff, Tgas <= Teff ->
                                 lo <= L_pbh Mpbh z xe Teff coll_ion) ->
                   0 <= denom -> lo * denom <= num -> lo * denom' <= num')
    /\ (forall hi, (forall Teff, Tgas <= Teff ->
                                 L_pbh Mpbh z xe Teff coll_ion <= hi) ->
                   0 <= denom -> num <= hi * denom -> num' <= hi * denom').
Proof.
  intros Hxe. induction l as [| i l IH]; intros num denom; simpl.
  - repeat split; intros; lra.
  - set (vbc := INR i * vbc_max / (INR Nvbc - 1)).
    set (x := vbc / vbc_rms).
    set (P := x * x * exp (- 1.5 * x * x)).
    assert (HP : 0 <= P).
    { unfold P. apply Rmult_le_pos; [nra | left; apply exp_pos]. }
    assert (HT : Tgas <= Tgas + 1.21e-8 * vbc * vbc / (1 + xe)).
    { assert (0 <= 1.21e-8 * vbc * vbc / (1 + xe)); [| lra].
      unfold Rdiv. apply Rmult_le_pos; [nra |].
      left. apply Rinv_0_lt_compat. lra. }
    set (L := L_pbh Mpbh z xe (Tgas + 1.21e-8 * vbc * vbc / (1 + xe)) coll_ion).
    specialize (IH (num + L * P) (denom + P)).
    destruct (fold_left _ l _) as [num' denom'].
    destruct IH as (Hd & Hlo & Hhi). split; [| split].
    + intros H0. specialize (Hd ltac:(lra)). lra.
    + intros lo HL H0 Hn. apply (Hlo lo HL); [lra |].
      specialize (HL (Tgas + 1.21e-8 * vbc * vbc / (1 + xe)) HT).
      fold L in HL.
      nra.
    + intros hi HL H0 Hn. apply (Hhi hi HL); [lra |].
      specialize (HL (Tgas + 1.21e-8 * vbc * vbc / (1 + xe)) HT).
      fold L in HL.
      nra.
Qed.

(** After the first two turns the total weight is positive. *)
Lemma L_pbh_av_first_turns Mpbh z xe Tgas coll_ion :
  z <> -1 -> -1 < xe ->
  let rms := vbc_rms_func z in
  let step := L_pbh_av_step Mpbh z xe Tgas coll_ion rms (5 * rms) 50 in
  let '(n1, d1) := step (step (0, 0) 0%nat) 1%nat in
  0 < d1
  /\ (forall lo, (forall Teff, Tgas <= Teff ->
                                 lo <= L_pbh Mpbh z xe Teff coll_ion) ->
                 lo * d1 <= n1)
  /\ (forall hi, (forall Teff, Tgas <= Teff ->
                                 L_pbh Mpbh z xe Teff coll_ion <= hi) ->
                 n1 <= hi * d1).
Proof.
  intros Hz Hxe rms step.
  assert (Hv : rms <> 0).
  { unfold rms, vbc_rms_func. destruct (decide (z < 1e3)); [| lra].
    intros H0. apply Hz.
    assert (3e6 * (1 + z) = 0).
    { apply Rmult_eq_reg_r with (/ 1e3); [| apply Rinv_neq_0_compat; lra].
      rewrite Rmult_0_l. exact H0. }
    lra. }
  unfold step, L_pbh_av_step. cbv zeta. cbv beta iota.
  set (x1 := INR 1 * (5 * rms) / (INR 50 - 1) / rms).
  assert (Hx1 : x1 = 5 / 49).
  { unfold x1. replace (INR 50) with 50 by (simpl; lra).
    replace (INR 1) with 1 by (simpl; lra). field. exact Hv. }
  set (x0 := INR 0 * (5 * rms) / (INR 50 - 1) / rms).
  assert (Hx0 : x0 = 0).
  { unfold x0. simpl INR at 1. unfold Rdiv. ring. }
  set (P0 := x0 * x0 * exp (- 1.5 * x0 * x0)).
  set (P1 := x1 * x1 * exp (- 1.5 * x1 * x1)).
  assert (HP0 : P0 = 0) by (unfold P0; rewrite Hx0; ring).
  assert (HP1 : 0 < P1).
  { unfold P1. rewrite Hx1. apply Rmult_lt_0_compat; [lra | apply exp_pos]. }
  rewrite HP0.
  match goal with
  | |- _ /\ (forall lo, _ -> lo * _ <= _ + _ * 0 + L_pbh _ _ _ ?T _ * P1)
       /\ _ =>
      set (T1 := T); assert (HT : Tgas <= T1)
  end.
  { unfold T1.
    match goal with
    | |- _ <= _ + 1.21e-8 * ?v * ?v / _ =>
        assert (0 <= 1.21e-8 * v * v / (1 + xe)); [| lra];
        unfold Rdiv; apply Rmult_le_pos; [nra |];
        left; apply Rinv_0_lt_compat; lra
    end. }
  split; [lra |]. split.
  - intros lo HL. specialize (HL T1 HT). nra.
  - intros hi HL. specialize (HL T1 HT). nra.
Qed.

(** X6.  With the three channels disabled ([pann <= 0], [pann_halo <= 0],
    [fpbh <= 0]) nothing is injected; the deposition rate is then 0 in the
    on-the-spot mode and otherwise decays by
    [exp(-7 dlna) / (1 + 2e-15 dlna nH/H)] in one step. *)
Theorem no_injection_when_disabled :
  forall (z dlna xe Tgas nH H : R) (params : INJ_PARAMS) (dep_old : R),
    pann params <= 0 -> pann_halo params <= 0 -> fpbh params <= 0 ->
    dEdtdV_DM_ann z params = 0
    /\ dEdtdV_inj z xe Tgas params = 0
    /\ update_dEdtdV_dep z dlna xe Tgas nH H params dep_old
       = if decide (on_the_spot params = 1%Z) then 0
         else dep_old * exp (- 7 * dlna) / (1 + 2e-15 * dlna * nH / H).
Proof.
  intros z dlna xe Tgas nH H params dep_old Hp Hh Hf.
  assert (HDM : dEdtdV_DM_ann z params = 0).
  { unfold dEdtdV_DM_ann. cbv zeta.
    destruct (decide (pann params > 0)); [lra |].
    destruct (decide (pann_halo params > 0)); [lra |]. ring. }
  assert (Hinj : dEdtdV_inj z xe Tgas params = 0).
  { unfold dEdtdV_inj, dEdtdV_pbh. rewrite HDM.
    destruct (decide (fpbh params > 0)); [lra |]. ring. }
  split; [exact HDM |]. split; [exact Hinj |].
  unfold update_dEdtdV_dep. rewrite Hinj.
  destruct (decide (on_the_spot params = 1%Z)); [reflexivity |].
  rewrite Rmult_0_r, Rplus_0_r. reflexivity.
Qed.

Lemma no_injection_when_disabled_witness :
  dEdtdV_inj 1000 1 3000
    {| odmh2 := 0.12; pann := 0; pann_halo := 0; ann_z := 600;
       ann_zmax := 1000; ann_zmin := 30; ann_var := 1; ann_z_halo := 30;
       on_the_spot := 1; Mpbh := 1; fpbh := 0; coll_ion := 0 |} = 0.
Proof.
  refine (proj1 (proj2 (no_injection_when_disabled 1000 0 1 3000 1 1
    {| odmh2 := 0.12; pann := 0; pann_halo := 0; ann_z := 600;
       ann_zmax := 1000; ann_zmin := 30; ann_var := 1; ann_z_halo := 30;
       on_the_spot := 1; Mpbh := 1; fpbh := 0; coll_ion := 0 |} 0 _ _ _)));
    simpl; lra.
Defined.

Lemma Rinv_nonneg (x : R) : 0 <= x -> 0 <= / x.
Proof.
  intros [Hx | <-]; [left; apply Rinv_0_lt_compat; exact Hx |].
  rewrite Rinv_0. lra.
Qed.

Lemma Rdiv_nonneg (x y : R) : 0 <= x -> 0 <= y -> 0 <= x / y.
Proof.
  intros Hx Hy. unfold Rdiv. apply Rmult_le_pos; [exact Hx |].
  apply Rinv_nonneg. exact Hy.
Qed.

Lemma c_pow_nonneg (x y : R) : 0 <= c_pow x y.
Proof.
  unfold c_pow. destruct (decide (0 < x)); [| lra].
  left. unfold Rpower. apply exp_pos.
Qed.

Lemma TS_over_me_pbh_nonneg Mpbh z xe Teff coll_ion :
  -1 < xe -> 0 <= TS_over_me_pbh Mpbh z xe Teff coll_ion.
Proof.
  intros Hxe. unfold TS_over_me_pbh. cbv zeta.
  set (gamma := gamma_pbh Mpbh z xe Teff).
  set (tau := 1.5 / (5 + c_pow gamma (2 / 3))).
  assert (Htau : 0 <= tau).
  { unfold tau. apply Rdiv_nonneg; [lra |].
    pose proof (c_pow_nonneg gamma (2 / 3)). lra. }
  set (YS := 2 / (1 + xe) * tau / 4 * c_pow (1 - 2.5 * tau) (1 / 3) * 1836).
  assert (HYS : 0 <= YS).
  { unfold YS. pose proof (c_pow_nonneg (1 - 2.5 * tau) (1 / 3)).
    assert (0 <= 2 / (1 + xe)) by (apply Rdiv_nonneg; lra).
    assert (0 <= 2 / (1 + xe) * tau) by nra.
    assert (0 <= 2 / (1 + xe) * tau / 4) by lra.
    nra. }
  set (YS' := if decide (coll_ion = 1%Z) then _ else YS).
  assert (HYS' : 0 <= YS').
  { unfold YS'. destruct (decide (coll_ion = 1%Z)); [| exact HYS].
    apply Rmult_le_pos; [exact HYS |].
    apply pow_le. apply Rdiv_nonneg; lra. }
  apply Rdiv_nonneg; [exact HYS' | apply c_pow_nonneg].
Qed.

Lemma eps_over_mdot_pbh_nonneg Mpbh z xe Teff coll_ion :
  -1 < xe -> 0 <= eps_over_mdot_pbh Mpbh z xe Teff coll_ion.
Proof.
  intros Hxe. unfold eps_over_mdot_pbh. cbv zeta.
  pose proof (TS_over_me_pbh_nonneg Mpbh z xe Teff coll_ion Hxe) as HX.
  set (X := TS_over_me_pbh Mpbh z xe Teff coll_ion) in *.
  pose proof PI_RGT_0 as Hpi.
  assert (HG : 0 <= if decide (X < 1)
                    then 4 / PI * sqrt (2 / PI / X) * (1 + 5.5 * c_pow X 1.25)
                    else 13.5 / PI * (ln (2 * X * 0.56146 + 0.08) + 4 / 3)).
  { destruct (decide (X < 1)) as [Hlt | Hge].
    - pose proof (c_pow_nonneg X 1.25). pose proof (sqrt_pos (2 / PI / X)).
      assert (0 <= 4 / PI) by (apply Rdiv_nonneg; lra).
      assert (0 <= 4 / PI * sqrt (2 / PI / X)) by nra.
      nra.
    - assert (0 < ln (2 * X * 0.56146 + 0.08)).
      { rewrite <- ln_1. apply ln_increasing; lra. }
      assert (0 <= 13.5 / PI) by (apply Rdiv_nonneg; lra).
      nra. }
  assert (0 <= X / 1836 / 137) by lra.
  nra.
Qed.

Lemma L_pbh_nonneg Mpbh z xe Teff coll_ion :
  0 < Mpbh -> -1 < xe -> 0 <= L_pbh Mpbh z xe Teff coll_ion.
Proof.
  intros HM Hxe. unfold L_pbh. cbv zeta.
  pose proof (eps_over_mdot_pbh_nonneg Mpbh z xe Teff coll_ion Hxe) as He.
  set (eps := eps_over_mdot_pbh Mpbh z xe Teff coll_ion) in *.
  set (Mdot := Mdot_pbh Mpbh z xe Teff).
  replace (Mdot / (1.4e17 * Mpbh) * eps * Mdot * 9e20)
    with (Mdot * Mdot * eps * 9e20 / (1.4e17 * Mpbh))
    by (field; lra).
  apply Rdiv_nonneg; [| nra].
  assert (0 <= Mdot * Mdot) by nra. nra.
Qed.

(** X7.  [L_pbh_av] is a weighted mean of the luminosity over the sampled
    relative velocities, with a positive total weight when [z <> -1], and
    for [xe > -1] the effective temperatures sampled are at least [Tgas]: a
    lower bound of [L_pbh] over the effective temperatures above [Tgas] is a
    lower bound of the average, and the same for an upper bound. *)
Theorem L_pbh_av_between :
  forall (Mpbh z xe Tgas : R) (coll_ion : Z),
    z <> -1 -> -1 < xe ->
    (forall lo, (forall Teff, Tgas <= Teff ->
                              lo <= L_pbh Mpbh z xe Teff coll_ion) ->
                lo <= L_pbh_av Mpbh z xe Tgas coll_ion)
    /\ (forall hi, (forall Teff, Tgas <= Teff ->
                                 L_pbh Mpbh z xe Teff coll_ion <= hi) ->
                   L_pbh_av Mpbh z xe Tgas coll_ion <= hi).
Proof.
  intros Mpbh z xe Tgas coll_ion Hz Hxe.
  pose proof (L_pbh_av_first_turns Mpbh z xe Tgas coll_ion Hz Hxe) as H1.
  cbv zeta in H1.
  unfold L_pbh_av. cbv zeta.
  change (seq 0 50) with (0%nat :: 1%nat :: seq 2 48).
  cbn [fold_left].
  set (rms := vbc_rms_func z) in *.
  set (step := L_pbh_av_step Mpbh z xe Tgas coll_ion rms (5 * rms) 50) in *.
  destruct (step (step (0, 0) 0%nat) 1%nat) as [n1 d1].
  destruct H1 as (Hd1 & Hlo1 & Hhi1).
  pose proof (L_pbh_av_fold_bounds Mpbh z xe Tgas coll_ion rms (5 * rms) 50
                Hxe (seq 2 48) n1 d1) as Hfold.
  fold step in Hfold.
  destruct (fold_left step (seq 2 48) (n1, d1)) as [num denom].
  destruct Hfold as (Hd & Hlo & Hhi).
  assert (Hpos : 0 < denom) by (specialize (Hd ltac:(lra)); lra).
  split.
  - intros lo HL. specialize (Hlo lo HL ltac:(lra) (Hlo1 lo HL)).
    apply Rmult_le_reg_r with denom; [exact Hpos |].
    unfold Rdiv. rewrite Rmult_assoc, Rinv_l by lra. lra.
  - intros hi HL. specialize (Hhi hi HL ltac:(lra) (Hhi1 hi HL)).
    apply Rmult_le_reg_r with denom; [exact Hpos |].
    unfold Rdiv. rewrite Rmult_assoc, Rinv_l by lra. lra.
Qed.

Lemma L_pbh_av_between_witness :
  0 <= L_pbh_av 100 500 (1 / 2) 3000 0%Z.
Proof.
  apply (proj1 (L_pbh_av_between 100 500 (1 / 2) 3000 0%Z ltac:(lra)
                  ltac:(lra))).
  intros Teff _. apply L_pbh_nonneg; lra.
Defined.

(** The drag and cooling rates are not negative for a non-negative
    ionisation fraction. *)
Lemma beta_gamma_pbh_nonneg Mpbh z xe Teff :
  0 < Mpbh -> -1 < z -> 0 <= xe -> 0 < Teff ->
  0 <= beta_pbh Mpbh z xe Teff /\ 0 <= gamma_pbh Mpbh z xe Teff.
Proof.
  intros HM Hz Hxe HT.
  assert (Hb : 0 <= beta_pbh Mpbh z xe Teff).
  { unfold beta_pbh. cbv zeta.
    set (a := 1 / (1 + z)).
    assert (Ha : 0 < a) by (apply Rdiv_lt_0_compat; lra).
    set (vB := 9.09e3 * sqrt ((1 + xe) * Teff)).
    assert (HvB : 0 < vB).
    { unfold vB. apply Rmult_lt_0_compat; [lra |].
      apply sqrt_lt_R0. nra. }
    assert (HtB : 0 <= 1.33e26 * Mpbh / vB / vB / vB)
      by (repeat apply Rdiv_nonneg; nra).
    apply Rmult_le_pos; [| exact HtB].
    repeat apply Rdiv_nonneg; nra. }
  split; [exact Hb |].
  unfold gamma_pbh. apply Rmult_le_pos; [| exact Hb].
  apply Rdiv_nonneg; lra.
Qed.

(** X8.  For a positive mass, [z > -1], an ionisation fraction [xe >= 0]
    and a positive gas temperature, the drag rate [beta_pbh] and the
    cooling rate [gamma_pbh] are not negative at a positive effective
    temperature, so that every power is taken of a non-negative base, and
    the luminosity of a black hole is not negative there; so neither is its
    average over the relative velocities, nor the injection rate of the
    black holes. *)
Theorem dEdtdV_pbh_nonneg :
  forall (fpbh Mpbh z xe Tgas : R) (coll_ion : Z),
    0 < Mpbh -> -1 < z -> 0 <= xe -> 0 < Tgas ->
    (forall Teff, 0 < Teff ->
       0 <= beta_pbh Mpbh z xe Teff /\ 0 <= gamma_pbh Mpbh z xe Teff
       /\ 0 <= L_pbh Mpbh z xe Teff coll_ion)
    /\ 0 <= L_pbh_av Mpbh z xe Tgas coll_ion
    /\ 0 <= dEdtdV_pbh fpbh Mpbh z xe Tgas coll_ion.
Proof.
  intros fpbh Mpbh z xe Tgas coll_ion HM Hz Hxe0 HT.
  assert (Hxe : -1 < xe) by lra.
  assert (Hav : forall xe', -1 < xe' ->
                            0 <= L_pbh_av Mpbh z xe' Tgas coll_ion).
  { intros xe' Hxe'.
    pose proof (L_pbh_av_first_turns Mpbh z xe' Tgas coll_ion ltac:(lra)
                  Hxe') as H1.
    cbv zeta in H1. unfold L_pbh_av. cbv zeta.
    change (seq 0 50) with (0%nat :: 1%nat :: seq 2 48).
    cbn [fold_left].
    set (rms := vbc_rms_func z) in *.
    set (step := L_pbh_av_step Mpbh z xe' Tgas coll_ion rms (5 * rms) 50) in *.
    destruct (step (step (0, 0) 0%nat) 1%nat) as [n1 d1].
    destruct H1 as (Hd1 & Hlo1 & _).
    pose proof (L_pbh_av_fold_bounds Mpbh z xe' Tgas coll_ion rms (5 * rms)
                  50 Hxe' (seq 2 48) n1 d1) as Hfold.
    fold step in Hfold.
    destruct (fold_left step (seq 2 48) (n1, d1)) as [num denom].
    destruct Hfold as (Hd & Hlo & _).
    assert (HL : forall Teff, Tgas <= Teff ->
                              0 <= L_pbh Mpbh z xe' Teff coll_ion)
      by (intros Teff _; apply L_pbh_nonneg; assumption).
    specialize (Hlo 0 HL ltac:(lra) ltac:(apply (Hlo1 0 HL))).
    specialize (Hd ltac:(lra)).
    apply Rdiv_nonneg; lra. }
  split.
  { intros Teff HTeff.
    destruct (beta_gamma_pbh_nonneg Mpbh z xe Teff HM Hz Hxe0 HTeff)
      as [Hb Hg].
    split; [exact Hb |]. split; [exact Hg |].
    apply L_pbh_nonneg; assumption. }
  split; [apply Hav; exact Hxe |].
  unfold dEdtdV_pbh. cbv zeta.
  destruct (decide (fpbh > 0)) as [Hf | _]; [| lra].
  assert (HL : 0 <= L_pbh_av Mpbh z (if decide (xe < 1) then xe else 1) Tgas
                      coll_ion).
  { apply Hav. destruct (decide (xe < 1)); lra. }
  assert (0 <= 7.07e-52 / Mpbh) by (apply Rdiv_nonneg; lra).
  assert (0 <= cube (1 + z)).
  { unfold cube. assert (0 <= (1 + z) * (1 + z)) by nra. nra. }
  assert (0 <= 7.07e-52 / Mpbh * cube (1 + z)) by nra.
  assert (0 <= 7.07e-52 / Mpbh * cube (1 + z) * fpbh) by nra.
  nra.
Qed.

Lemma dEdtdV_pbh_nonneg_witness :
  0 <= dEdtdV_pbh (1 / 10) 100 500 (1 / 2) 3000 0%Z.
Proof.
  apply (dEdtdV_pbh_nonneg (1 / 10) 100 500 (1 / 2) 3000 0%Z); lra.
Defined.

(** * Further properties of the inflation model *)

Lemma shifted_power_derivative (a p : R) (n : nat) (x : R) :
  derivable_pt_lim (fun x => a * (x - p) ^ n) x
                   (a * (INR n * (x - p) ^ pred n)).
Proof.
  assert (Hs : derivable_pt_lim (fun x => x - p) x 1).
  { replace 1 with (1 - 0) by ring.
    apply (derivable_pt_lim_minus id (fct_cte p)).
    - apply derivable_pt_lim_id.
    - apply derivable_pt_lim_const. }
  pose proof (derivable_pt_lim_comp (fun x => x - p) (fun y => y ^ n) x 1
                (INR n * (x - p) ^ pred n) Hs
                (derivable_pt_lim_pow (x - p) n)) as Hc.
  pose proof (derivable_pt_lim_scal _ a x _ Hc) as Ha.
  rewrite Rmult_1_r in Ha. exact Ha.
Qed.

(** The derivative of a polynomial of degree 4 written in the way of the
    source, with the coefficients [c_n] of [(x - p)^n / n!]. *)
Lemma quartic_derivative (c0 c1 c2 c3 c4 p x : R) :
  derivable_pt_lim
    (fun x => c0 + (x - p) * c1 + (x - p) ^ 2 / 2 * c2 + (x - p) ^ 3 / 6 * c3
              + (x - p) ^ 4 / 24 * c4) x
    (c1 + (x - p) * c2 + (x - p) ^ 2 / 2 * c3 + (x - p) ^ 3 / 6 * c4).
Proof.
  pose proof (derivable_pt_lim_const c0 x) as D0.
  pose proof (shifted_power_derivative c1 p 1 x) as D1.
  pose proof (shifted_power_derivative (c2 / 2) p 2 x) as D2.
  pose proof (shifted_power_derivative (c3 / 6) p 3 x) as D3.
  pose proof (shifted_power_derivative (c4 / 24) p 4 x) as D4.
  pose proof (derivable_pt_lim_plus _ _ _ _ _
                (derivable_pt_lim_plus _ _ _ _ _
                   (derivable_pt_lim_plus _ _ _ _ _
                      (derivable_pt_lim_plus _ _ _ _ _ D0 D1) D2) D3) D4)
    as D.
  eapply derivable_pt_lim_ext; [| replace (c1 + (x - p) * c2
       + (x - p) ^ 2 / 2 * c3 + (x - p) ^ 3 / 6 * c4)
     with (0 + c1 * (INR 1 * (x - p) ^ pred 1)
           + c2 / 2 * (INR 2 * (x - p) ^ pred 2)
           + c3 / 6 * (INR 3 * (x - p) ^ pred 3)
           + c4 / 24 * (INR 4 * (x - p) ^ pred 4)); [exact D |]].
  - intros t. unfold plus_fct, fct_cte. cbv beta. field.
  - simpl. field.
Qed.

(** X9.  The three outputs of [primordial_inflation_potential] are
    consistent: for a polynomial potential, and for a natural-inflation
    potential with [V1] non-zero, the call succeeds at every field value,
    [dV] is the derivative of [V] with respect to the field and [ddV] the
    derivative of [dV]. *)
Theorem potential_derivatives :
  forall ppm : primordial,
    potential ppm <> unknown_shape ->
    (potential ppm = natural -> V1 ppm <> 0) ->
    exists V dV ddV : R -> R,
      (forall phi, primordial_inflation_potential ppm phi
                   = Ok (V phi, dV phi, ddV phi))
      /\ forall phi,
          derivable_pt_lim V phi (dV phi)
          /\ derivable_pt_lim dV phi (ddV phi).
Proof.
  intros ppm Hknown Hnat. unfold primordial_inflation_potential.
  destruct (potential ppm) eqn:Hshape; [| | contradiction].
  - eexists _, _, _. split; [intros phi; reflexivity |].
    intros phi. cbv beta. split.
    + apply quartic_derivative.
    + eapply derivable_pt_lim_ext;
        [| replace (V2 ppm + (phi - phi_pivot ppm) * V3 ppm
                    + (phi - phi_pivot ppm) ^ 2 / 2 * V4 ppm)
             with (V2 ppm + (phi - phi_pivot ppm) * V3 ppm
                   + (phi - phi_pivot ppm) ^ 2 / 2 * V4 ppm
                   + (phi - phi_pivot ppm) ^ 3 / 6 * 0) by field;
           apply (quartic_derivative (V1 ppm) (V2 ppm) (V3 ppm) (V4 ppm) 0
                    (phi_pivot ppm) phi)].
      intros t. cbv beta. field.
  - specialize (Hnat eq_refl).
    eexists _, _, _. split; [intros phi; reflexivity |].
    intros phi. cbv beta.
    assert (Hs : derivable_pt_lim (fun x => x / V1 ppm) phi (/ V1 ppm)).
    { eapply derivable_pt_lim_ext;
        [| replace (/ V1 ppm) with (/ V1 ppm * 1) by ring;
           apply (derivable_pt_lim_scal id (/ V1 ppm) phi 1);
           apply derivable_pt_lim_id].
      intros t. unfold mult_real_fct, id. field. exact Hnat. }
    pose proof (derivable_pt_lim_comp _ cos phi _ _ Hs
                  (derivable_pt_lim_cos (phi / V1 ppm))) as Hcos.
    pose proof (derivable_pt_lim_comp _ sin phi _ _ Hs
                  (derivable_pt_lim_sin (phi / V1 ppm))) as Hsin.
    split.
    + eapply derivable_pt_lim_ext;
        [| replace (- V0 ppm / V1 ppm * sin (phi / V1 ppm))
             with (0 + V0 ppm * (- sin (phi / V1 ppm) * / V1 ppm))
             by (field; exact Hnat);
           apply (derivable_pt_lim_plus (fct_cte (V0 ppm)) _ phi 0 _
                    (derivable_pt_lim_const (V0 ppm) phi)
                    (derivable_pt_lim_scal _ (V0 ppm) phi _ Hcos))].
      intros t. unfold plus_fct, mult_real_fct, fct_cte, comp. ring.
    + eapply derivable_pt_lim_ext;
        [| replace (- V0 ppm / V1 ppm / V1 ppm * cos (phi / V1 ppm))
             with (- V0 ppm / V1 ppm * (cos (phi / V1 ppm) * / V1 ppm))
             by (field; exact Hnat);
           apply (derivable_pt_lim_scal _ (- V0 ppm / V1 ppm) phi _ Hsin)].
      intros t. unfold mult_real_fct, comp. ring.
Qed.

Lemma potential_derivatives_witness :
  exists V dV ddV : R -> R,
    (forall phi, primordial_inflation_potential ppm_inflation_V phi
                 = Ok (V phi, dV phi, ddV phi))
    /\ forall phi,
        derivable_pt_lim V phi (dV phi)
        /\ derivable_pt_lim dV phi (ddV phi).
Proof.
  apply (potential_derivatives ppm_inflation_V); simpl; discriminate.
Defined.

(** X10.  The four outputs of [primordial_inflation_hubble] are consistent:
    [dH], [ddH] and [dddH] are the first, second and third derivative of
    [H] with respect to the field, at every field value. *)
Theorem hubble_derivatives :
  forall ppm : primordial,
    exists H dH ddH dddH : R -> R,
      (forall phi, primordial_inflation_hubble ppm phi
                   = (H phi, dH phi, ddH phi, dddH phi))
      /\ forall phi,
          derivable_pt_lim H phi (dH phi)
          /\ derivable_pt_lim dH phi (ddH phi)
          /\ derivable_pt_lim ddH phi (dddH phi).
Proof.
  intros ppm. unfold primordial_inflation_hubble.
  eexists _, _, _, _. split; [intros phi; reflexivity |].
  intros phi. cbv beta. split; [| split].
  - eapply derivable_pt_lim_ext;
      [| replace (H1 ppm + phi * H2 ppm + phi ^ 2 / 2 * H3 ppm
                  + phi ^ 3 / 6 * H4 ppm)
           with (H1 ppm + (phi - 0) * H2 ppm + (phi - 0) ^ 2 / 2 * H3 ppm
                 + (phi - 0) ^ 3 / 6 * H4 ppm) by field;
         apply (quartic_derivative (H0 ppm) (H1 ppm) (H2 ppm) (H3 ppm)
                  (H4 ppm) 0 phi)].
    intros t. cbv beta. field.
  - eapply derivable_pt_lim_ext;
      [| replace (H2 ppm + phi * H3 ppm + phi ^ 2 / 2 * H4 ppm)
           with (H2 ppm + (phi - 0) * H3 ppm + (phi - 0) ^ 2 / 2 * H4 ppm
                 + (phi - 0) ^ 3 / 6 * 0) by field;
         apply (quartic_derivative (H1 ppm) (H2 ppm) (H3 ppm) (H4 ppm) 0
                  0 phi)].
    intros t. cbv beta. field.
  - eapply derivable_pt_lim_ext;
      [| replace (H3 ppm + phi * H4 ppm)
           with (H3 ppm + (phi - 0) * H4 ppm + (phi - 0) ^ 2 / 2 * 0
                 + (phi - 0) ^ 3 / 6 * 0) by field;
         apply (quartic_derivative (H2 ppm) (H3 ppm) (H4 ppm) 0 0 0 phi)].
    intros t. cbv beta. field.
Qed.

(** ** The background evolver *)

Section EvolverFacts.

Variable generic_integrator :
  (R -> list R -> list R -> result (list R)) -> nat -> R -> R -> list R ->
  R -> R -> result unit * list R.

Variable ppm : primordial.
Variable ppr : precision.

Local Abbreviation evolve_background'' :=
  (primordial_inflation_evolve_background generic_integrator ppm ppr).

(** What precedes the loop leaves [y] as it was: only [dy] is written. *)
Lemma evolve_start_y pipaw target check_epsilon direction s :
  y (snd (evolve_start ppm ppr pipaw target check_epsilon direction s)) = y s.
Proof.
  assert (H : preserves (fun s' => y s' = y s)
                 (evolve_start ppm ppr pipaw target check_epsilon direction));
    [| exact (H s eq_refl)].
  unfold evolve_start. cbv zeta.
  apply preserves_bind.
  { destruct check_epsilon; [| apply preserves_ret].
    apply preserves_bind; [apply preserves_get_y | intros phi].
    apply preserves_lift. }
  intros eps. apply preserves_bind.
  { intros s' Hs'. unfold call_derivs.
    destruct (primordial_inflation_derivs ppm pipaw 0 (y s') (dy s'));
      exact Hs'. }
  intros _. apply preserves_bind; [apply preserves_get_vectors | intros s1].
  apply preserves_bind; [apply preserves_lift | intros _].
  apply preserves_ret.
Qed.

(** With the target [_end_inflation_] and another spectrum type than
    [inflation_V_end], what precedes the loop fails. *)
Lemma evolve_start_end_inflation pipaw check_epsilon direction s :
  primordial_spec_type ppm <> inflation_V_end ->
  exists e,
    fst (evolve_start ppm ppr pipaw _end_inflation_ check_epsilon direction s)
    = Err e
    /\ (e = EndInflationTarget \/ e = UnknownPotential
        \/ e = UnknownSpecType).
Proof.
  intros Htype. unfold evolve_start. cbv zeta. rewrite M_bind_unfold.
  set (m := if check_epsilon then _ else _).
  assert (Hm : match fst (m s) with
               | Ok _ => snd (m s) = s
               | Err e => e = UnknownPotential \/ e = UnknownSpecType
               | Timeout => False
               end).
  { unfold m. destruct check_epsilon; [| reflexivity].
    rewrite M_bind_unfold. unfold get_y at 1. cbv iota beta. unfold lift.
    cbn [fst snd].
    destruct (primordial_inflation_get_epsilon ppm (y s !!! index_in_phi ppm))
      as [eps | e |] eqn:Ee; [reflexivity | | ].
    - apply get_epsilon_errors in Ee. exact Ee.
    - unfold primordial_inflation_get_epsilon in Ee.
      destruct (primordial_spec_type ppm); try discriminate;
        try (destruct (primordial_inflation_hubble ppm _)
               as [[[H dH] ddH] dddH]; discriminate);
        destruct (primordial_inflation_potential ppm _)
          as [[[V dV] ddV] | e |] eqn:Ep; try discriminate;
        unfold primordial_inflation_potential in Ep;
        destruct (potential ppm); discriminate. }
  destruct (m s) as [[eps | e |] s0]; cbn [fst snd] in Hm.
  - subst s0. rewrite M_bind_unfold. unfold call_derivs.
    destruct (primordial_inflation_derivs ppm pipaw 0 (y s) (dy s))
      as [d | e |] eqn:Ed.
    + cbv iota beta. rewrite M_bind_unfold. unfold get_vectors at 1.
      cbv iota beta. rewrite M_bind_unfold. unfold lift at 1.
      unfold class_test. rewrite bool_decide_eq_true_2 by exact Htype.
      exists EndInflationTarget. split; [reflexivity | left; reflexivity].
    + exists e. split; [reflexivity |].
      right. apply (derivs_errors _ _ _ _ _ _ Ed).
    + exfalso. unfold primordial_inflation_derivs in Ed.
      destruct (primordial_spec_type ppm); try discriminate;
        try (destruct (primordial_inflation_hubble ppm _)
               as [[[H dH] ddH] dddH];
             cbn in Ed; destruct (decide _); discriminate);
        destruct (primordial_inflation_potential ppm _)
          as [[[V dV] ddV] | e |] eqn:Ep; try discriminate;
        try (unfold primordial_inflation_potential in Ep;
             destruct (potential ppm); discriminate);
        cbn in Ed; destruct (integrate pipaw); cbn in Ed;
        destruct (decide _); discriminate.
  - exists e. split; [reflexivity | right; exact Hm].
  - contradiction.
Qed.

(** X11.  The target [_end_inflation_] is refused for every spectrum type
    other than [inflation_V_end]: the call fails before its loop, either on
    the test of the spectrum type or earlier in the evaluation of the
    model, it does not run out of fuel, and it leaves [y] as it was. *)
Theorem end_inflation_target_refused :
  forall (fuel : nat) (stop : R) (check_epsilon : bool)
         (direction : integration_direction) (time : time_definition)
         (s : vectors),
    primordial_spec_type ppm <> inflation_V_end ->
    exists e,
      fst (evolve_background'' fuel _end_inflation_ stop check_epsilon
             direction time s) = Err e
      /\ (e = EndInflationTarget \/ e = UnknownPotential
          \/ e = UnknownSpecType)
      /\ y (snd (evolve_background'' fuel _end_inflation_ stop check_epsilon
                   direction time s)) = y s.
Proof.
  intros fuel stop check_epsilon direction time s Htype.
  unfold primordial_inflation_evolve_background. cbv zeta.
  rewrite M_bind_unfold.
  set (pipaw := evolve_workspace ppm direction time).
  destruct (evolve_start_end_inflation pipaw check_epsilon direction s Htype)
    as (e & He & Hcases).
  pose proof (evolve_start_y pipaw _end_inflation_ check_epsilon direction s)
    as Hy.
  destruct (evolve_start ppm ppr pipaw _end_inflation_ check_epsilon
              direction s) as [[l0 | e0 |] s0]; cbn [fst snd] in *;
    try discriminate.
  injection He as ->. exists e. auto.
Qed.

(** Without the check of epsilon no turn of the loop raises the slow-roll
    error. *)
Lemma never_slow_roll_unchecked fuel target stop direction time :
  never SlowRollViolated
    (evolve_background'' fuel target stop false direction time).
Proof.
  unfold primordial_inflation_evolve_background. cbv zeta.
  apply never_bind; [apply never_evolve_start; reflexivity | intros l0].
  apply never_bind; [| intros l; apply never_evolve_finish; reflexivity].
  set (pipaw := evolve_workspace ppm direction time).
  set (stop' := match target with _end_inflation_ => 0 | _ => stop end).
  clear. generalize l0. clear l0.
  induction fuel as [| fuel IH]; intros l; simpl;
    destruct (decide (sign_of direction * (quantity l - stop') < 0));
    try apply never_ret; try (apply never_lift; discriminate).
  apply never_bind; [| exact IH].
  unfold evolve_step.
  apply never_bind; [apply never_take_step; reflexivity | intros t].
  apply never_bind; [apply never_ret | intros eps].
  apply never_after_epsilon. reflexivity.
Qed.

(** X12.  Whatever its arguments, when
    [primordial_inflation_evolve_background] fails it is with one of the
    errors of its checks of the model, of the step size and of the
    integrator, or, only when [check_epsilon] is set, with the slow-roll
    error. *)
Theorem evolve_background_errors :
  forall (fuel : nat) (target : target_quantity) (stop : R)
         (check_epsilon : bool) (direction : integration_direction)
         (time : time_definition) (s : vectors),
    match fst (evolve_background'' fuel target stop check_epsilon direction
                 time s) with
    | Err e =>
        e = UnknownPotential \/ e = UnknownSpecType \/ e = NegativePotential
        \/ e = PositiveSlope \/ e = UnphysicalHubble \/ e = IncreasingHubble
        \/ e = EndInflationTarget \/ e = StepTooSmall
        \/ e = IntegratorFailure
        \/ (check_epsilon = true /\ e = SlowRollViolated)
    | _ => True
    end.
Proof.
  intros fuel target stop check_epsilon direction time s.
  destruct (fst (evolve_background'' fuel target stop check_epsilon direction
                   time s)) as [u | e |] eqn:E; [exact I | | exact I].
  destruct (background_error e) eqn:Hb.
  - destruct e; try discriminate Hb; tauto.
  - destruct e; try discriminate Hb;
      try (exfalso;
           match type of E with
           | _ = Err ?e0 =>
               exact (never_evolve_background generic_integrator ppm ppr e0
                        fuel target stop check_epsilon direction time eq_refl
                        ltac:(discriminate) s E)
           end).
    destruct check_epsilon; [do 9 right; split; reflexivity |].
    exfalso.
    exact (never_slow_roll_unchecked fuel target stop direction time s E).
Qed.

(** X13.  With the target [_phi_], a call that succeeds has left its loop
    when the value of the field expected after the next step,
    [y[index_in_phi] + dy[index_in_phi] * dtau], was no longer before [stop]
    in the direction of the integration; the test is on that expected
    value, not on the field itself.  The last step
    [dtau = (stop - phi)/phi'] then brings [y[index_in_phi]] to [stop] (in
    exact arithmetic), provided [phi'] is not zero when the loop is left and
    the index of the field is within the vector and distinct from the two
    other background indices. *)
Theorem evolve_background_reaches_phi_stop :
  forall (fuel : nat) (stop : R) (check_epsilon : bool)
         (direction : integration_direction) (time : time_definition)
         (s s' : vectors),
    index_in_phi ppm <> index_in_a ppm ->
    index_in_phi ppm <> index_in_dphi ppm ->
    evolve_background'' fuel _phi_ stop check_epsilon direction time s
    = (Ok tt, s') ->
    let pipaw := evolve_workspace ppm direction time in
    exists l0 s0 l s1,
      evolve_start ppm ppr pipaw _phi_ check_epsilon direction s = (Ok l0, s0)
      /\ evolve_loop generic_integrator ppm ppr fuel pipaw _phi_ stop
           (sign_of direction) check_epsilon direction l0 s0 = (Ok l, s1)
      /\ ~ sign_of direction
            * (y s1 !!! index_in_phi ppm
               + dy s1 !!! index_in_phi ppm * dtau l - stop) < 0
      /\ ((index_in_phi ppm < length (y s1))%nat ->
          dy s1 !!! index_in_phi ppm <> 0 ->
          y s' !!! index_in_phi ppm = stop).
Proof.
  intros fuel stop check_epsilon direction time s s' Ha Hd Hrun pipaw.
  destruct (evolve_background_split generic_integrator ppm ppr _ _ _ _ _ _
              _ _ Hrun) as (l0 & s0 & l & s1 & Hstart & Hloop & Hfin).
  cbv zeta in Hstart, Hloop, Hfin. fold pipaw in Hstart, Hloop, Hfin.
  exists l0, s0, l, s1. split; [exact Hstart |]. split; [exact Hloop |].
  pose proof (evolve_start_quantity ppm ppr _ _ _ _ _ _ _ Hstart) as Hq0.
  destruct (evolve_loop_exit generic_integrator ppm ppr _ _ _ _ _ _ _ _ _ _
              _ Hloop Hq0) as [Hexit Hq].
  split.
  - rewrite Hq in Hexit. exact Hexit.
  - intros Hlen Hdy.
    exact (evolve_finish_phi ppm _ _ _ _ _ _ Hfin Ha Hd Hlen Hdy).
Qed.

End EvolverFacts.

Lemma end_inflation_target_refused_witness :
  exists e,
    fst (primordial_inflation_evolve_background euler_integrator
           ppm_inflation_V ppr_default 5 _end_inflation_ 0 true forward
           conformal {| y := [1; 0; 9]; dy := [0; 0; 0] |}) = Err e
    /\ (e = EndInflationTarget \/ e = UnknownPotential
        \/ e = UnknownSpecType)
    /\ y (snd (primordial_inflation_evolve_background euler_integrator
                 ppm_inflation_V ppr_default 5 _end_inflation_ 0 true forward
                 conformal {| y := [1; 0; 9]; dy := [0; 0; 0] |}))
       = [1; 0; 9].
Proof.
  apply (end_inflation_target_refused euler_integrator ppm_inflation_V
           ppr_default 5 0 true forward conformal
           {| y := [1; 0; 9]; dy := [0; 0; 0] |}).
  discriminate.
Defined.

Lemma MIN_nonneg (a b : R) : 0 <= a -> 0 <= b -> 0 <= MIN a b.
Proof. intros Ha Hb. unfold MIN. destruct (decide (a < b)); assumption. Qed.

(** The derivatives of the background in a forward call on a
    potential-based model whose indices are the ones assigned by
    [primordial_inflation_indices]. *)
Lemma derivs_forward_potential ppm pipaw tau yv dyv V dV ddV :
  is_inflation_V ppm = true ->
  indices ppm = primordial_inflation_indices ppm ->
  integrate pipaw = forward ->
  (pipaw_N pipaw <= in_bg_size ppm)%nat ->
  primordial_inflation_potential ppm (yv !!! 1%nat) = Ok (V, dV, ddV) ->
  let aH :=
    sqrt (8 * PI / 3
          * (0.5 * yv !!! 2%nat * yv !!! 2%nat
             + yv !!! 0%nat * yv !!! 0%nat * V)) in
  primordial_inflation_derivs ppm pipaw tau yv dyv
  = Ok (<[2%nat := - 2 * aH * yv !!! 2%nat - yv !!! 0%nat * yv !!! 0%nat * dV]>
          (<[1%nat := yv !!! 2%nat]> (<[0%nat := yv !!! 0%nat * aH]> dyv))).
Proof.
  intros HV Hidx Hfwd HN Hpot aH.
  destruct (index_values ppm HV Hidx) as (Ha & Hp & Hd & Hsz).
  unfold primordial_inflation_derivs. rewrite Ha, Hp, Hd, Hpot, Hfwd.
  unfold is_inflation_V in HV.
  destruct (decide (pipaw_N pipaw <= in_bg_size ppm)%nat); [| contradiction].
  destruct (primordial_spec_type ppm); try discriminate HV; reflexivity.
Qed.

(** X14.  After a successful check of the potential at the field value
    held by [y], a forward call of the derivative function on the
    background succeeds; [a'/a] is then the positive number
    [sqrt((8 pi/3)(phi'^2/2 + a^2 V))] whenever [a] is not zero, so that the
    scale factor grows when it is positive, and [phi' = y[index_in_dphi]]. *)
Theorem derivs_after_check_potential :
  forall (ppm : primordial) (pipaw : workspace) (tau : R) (yv dyv : list R)
         (V dV ddV : R),
    is_inflation_V ppm = true ->
    indices ppm = primordial_inflation_indices ppm ->
    integrate pipaw = forward ->
    (pipaw_N pipaw <= in_bg_size ppm)%nat ->
    (in_bg_size ppm <= length dyv)%nat ->
    primordial_inflation_check_potential ppm (yv !!! index_in_phi ppm)
    = Ok (V, dV, ddV) ->
    exists dyv',
      primordial_inflation_derivs ppm pipaw tau yv dyv = Ok dyv'
      /\ length dyv' = length dyv
      /\ dyv' !!! index_in_phi ppm = yv !!! index_in_dphi ppm
      /\ (yv !!! index_in_a ppm <> 0 ->
          0 < dyv' !!! index_in_a ppm / yv !!! index_in_a ppm
          /\ (dyv' !!! index_in_a ppm / yv !!! index_in_a ppm) ^ 2
             = 8 * PI / 3
               * (0.5 * (yv !!! index_in_dphi ppm) ^ 2
                  + (yv !!! index_in_a ppm) ^ 2 * V))
      /\ (0 < yv !!! index_in_a ppm -> 0 < dyv' !!! index_in_a ppm).
Proof.
  intros ppm pipaw tau yv dyv V dV ddV HV Hidx Hfwd HN Hlen Hchk.
  destruct (index_values ppm HV Hidx) as (Ha & Hp & Hd & Hsz).
  rewrite Ha, Hp, Hd in *. rewrite Hsz in Hlen.
  destruct (check_potential_ok ppm _ V dV ddV Hchk) as (HVpos & _ & Hpot).
  rewrite (derivs_forward_potential ppm pipaw tau yv dyv V dV ddV HV Hidx
             Hfwd HN Hpot).
  cbv zeta.
  set (aH := sqrt (8 * PI / 3
                   * (0.5 * yv !!! 2%nat * yv !!! 2%nat
                      + yv !!! 0%nat * yv !!! 0%nat * V))).
  eexists. split; [reflexivity |].
  split; [rewrite !length_insert; reflexivity |].
  split.
  { rewrite list_lookup_total_insert_ne by lia.
    rewrite list_lookup_total_insert_eq by (rewrite length_insert; lia).
    reflexivity. }
  rewrite !(list_lookup_total_insert_ne _ _ 0%nat) by lia.
  rewrite list_lookup_total_insert_eq by lia.
  pose proof PI_RGT_0 as Hpi.
  assert (Harg : yv !!! 0%nat <> 0 ->
                 0 < 8 * PI / 3
                     * (0.5 * yv !!! 2%nat * yv !!! 2%nat
                        + yv !!! 0%nat * yv !!! 0%nat * V)).
  { intros Hne.
    assert (0 < yv !!! 0%nat * yv !!! 0%nat) by nra.
    assert (0 <= yv !!! 2%nat * yv !!! 2%nat) by nra.
    assert (0 < yv !!! 0%nat * yv !!! 0%nat * V) by nra.
    assert (0 < 8 * PI / 3) by lra.
    nra. }
  split.
  - intros Hne. specialize (Harg Hne).
    assert (HaH : 0 < aH) by (apply sqrt_lt_R0; exact Harg).
    replace (yv !!! 0%nat * aH / yv !!! 0%nat) with aH by (field; exact Hne).
    split; [exact HaH |].
    unfold aH. rewrite <- Rsqr_pow2, Rsqr_sqrt by lra. ring.
  - intros Hpos. specialize (Harg ltac:(lra)).
    assert (HaH : 0 < aH) by (apply sqrt_lt_R0; exact Harg).
    nra.
Qed.

(** The potential of the example model is [V(phi) = 1 - phi]. *)
Lemma potential_linear (phi : R) :
  primordial_inflation_potential ppm_inflation_V phi = Ok (1 - phi, -1, 0).
Proof.
  unfold primordial_inflation_potential. cbn -[pow].
  f_equal. f_equal; [f_equal |]; ring.
Qed.

Lemma check_potential_linear (phi : R) :
  phi < 1 ->
  primordial_inflation_check_potential ppm_inflation_V phi
  = Ok (1 - phi, -1, 0).
Proof.
  intros Hphi. unfold primordial_inflation_check_potential.
  rewrite potential_linear. cbn -[Rle Rge bool_decide].
  rewrite (bool_decide_eq_false_2 (1 - phi <= 0)) by lra.
  cbn -[Rle Rge bool_decide].
  rewrite (bool_decide_eq_false_2 (-1 >= 0)) by lra.
  reflexivity.
Qed.

Lemma derivs_after_check_potential_witness :
  exists dyv',
    primordial_inflation_derivs ppm_inflation_V
      (evolve_workspace ppm_inflation_V forward conformal) 0 [1; 0; 1]
      [0; 0; 0] = Ok dyv'
    /\ length dyv' = 3%nat
    /\ dyv' !!! 1%nat = 1
    /\ (1 <> 0 ->
        0 < dyv' !!! 0%nat / 1
        /\ (dyv' !!! 0%nat / 1) ^ 2 = 8 * PI / 3 * (0.5 * 1 ^ 2 + 1 ^ 2 * (1 - 0)))
    /\ (0 < 1 -> 0 < dyv' !!! 0%nat).
Proof.
  apply (derivs_after_check_potential ppm_inflation_V
           (evolve_workspace ppm_inflation_V forward conformal) 0
           [1; 0; 1] [0; 0; 0] (1 - 0) (-1) 0 eq_refl eq_refl eq_refl);
    [simpl; lia | simpl; lia | apply check_potential_linear; lra].
Defined.

(** For a potential-based model with a polynomial potential the derivative
    function succeeds. *)
Lemma derivs_polynomial_ok ppm pipaw tau yv dyv :
  is_inflation_V ppm = true -> potential ppm = polynomial ->
  exists d, primordial_inflation_derivs ppm pipaw tau yv dyv = Ok d.
Proof.
  intros HV Hpot. unfold primordial_inflation_derivs.
  unfold primordial_inflation_potential. rewrite Hpot.
  unfold is_inflation_V in HV.
  destruct (primordial_spec_type ppm); try discriminate HV;
    cbn -[Rmult Rplus Rminus Rdiv Ropp sqrt pow PI];
    destruct (integrate pipaw);
    cbn -[Rmult Rplus Rminus Rdiv Ropp sqrt pow PI];
    destruct (decide (pipaw_N pipaw <= in_bg_size ppm)%nat); eauto.
Qed.

Lemma linear_derivs pipaw tau a phi dphi d0 d1 d2 :
  integrate pipaw = forward -> (pipaw_N pipaw <= 3)%nat ->
  primordial_inflation_derivs ppm_inflation_V pipaw tau [a; phi; dphi]
    [d0; d1; d2]
  = Ok [a * sqrt (8 * PI / 3 * (0.5 * dphi * dphi + a * a * (1 - phi)));
        dphi;
        - 2 * sqrt (8 * PI / 3 * (0.5 * dphi * dphi + a * a * (1 - phi)))
          * dphi - a * a * -1].
Proof.
  intros Hfwd HN.
  rewrite (derivs_forward_potential ppm_inflation_V pipaw tau [a; phi; dphi]
             [d0; d1; d2] (1 - phi) (-1) 0 eq_refl eq_refl Hfwd
             ltac:(simpl; lia) (potential_linear _)).
  reflexivity.
Qed.

Lemma linear_start a phi dphi d0 d1 d2 :
  let pipaw := evolve_workspace ppm_inflation_V forward conformal in
  let A := sqrt (8 * PI / 3 * (0.5 * dphi * dphi + a * a * (1 - phi))) in
  let dtau0 :=
    1 / 200 * MIN (1 / (a * A / a)) (Rabs (dphi / (- 2 * A * dphi - a * a * -1))) in
  evolve_start ppm_inflation_V ppr_default pipaw _phi_ false forward
    {| y := [a; phi; dphi]; dy := [d0; d1; d2] |}
  = (Ok {| tau_end := 0; dtau := dtau0; epsilon := 0; aH := a * A / a;
           quantity := phi + dphi * dtau0 |},
     {| y := [a; phi; dphi];
        dy := [a * A; dphi; - 2 * A * dphi - a * a * -1] |}).
Proof.
  intros pipaw A dtau0.
  unfold evolve_start. cbv zeta.
  rewrite M_bind_unfold. unfold mret at 1, M_ret at 1. cbv iota beta.
  rewrite M_bind_unfold. unfold call_derivs at 1. cbn [y dy].
  rewrite (linear_derivs pipaw 0 a phi dphi d0 d1 d2 eq_refl
             ltac:(simpl; lia)).
  fold A. cbv iota beta.
  rewrite M_bind_unfold. unfold get_vectors at 1. cbv iota beta.
  rewrite M_bind_unfold. unfold lift at 1. cbv iota beta.
  unfold mret, M_ret. reflexivity.
Qed.

Lemma linear_step l a phi dphi d0 d1 d2 :
  let pipaw := evolve_workspace ppm_inflation_V forward conformal in
  let A := sqrt (8 * PI / 3 * (0.5 * dphi * dphi + a * a * (1 - phi))) in
  let h := 0 + dtau l - 0 in
  let a1 := a + h * (a * A) in
  let phi1 := phi + h * dphi in
  let dphi1 := dphi + h * (- 2 * A * dphi - a * a * -1) in
  let A1 :=
    sqrt (8 * PI / 3 * (0.5 * dphi1 * dphi1 + a1 * a1 * (1 - phi1))) in
  let dtau1 :=
    1 / 200
    * MIN (1 / (a1 * A1 / a1))
          (Rabs (dphi1 / (- 2 * A1 * dphi1 - a1 * a1 * -1))) in
  tau_end l = 0 -> phi < 1 ->
  evolve_step euler_integrator ppm_inflation_V ppr_default pipaw _phi_ 1
    false forward l {| y := [a; phi; dphi]; dy := [d0; d1; d2] |}
  = (Ok {| tau_end := 0 + dtau l; dtau := dtau1; epsilon := epsilon l;
           aH := a1 * A1 / a1; quantity := phi1 + dphi1 * dtau1 |},
     {| y := [a1; phi1; dphi1];
        dy := [a1 * A1; dphi1; - 2 * A1 * dphi1 - a1 * a1 * -1] |}).
Proof.
  intros pipaw A h a1 phi1 dphi1 A1 dtau1 Htau Hphi.
  unfold evolve_step. rewrite M_bind_unfold.
  unfold take_step. rewrite M_bind_unfold. unfold get_y at 1.
  cbv iota beta. rewrite M_bind_unfold. unfold lift at 1.
  change (is_inflation_V ppm_inflation_V) with true. cbv iota.
  change (y {| y := [a; phi; dphi]; dy := [d0; d1; d2] |}
            !!! index_in_phi ppm_inflation_V) with phi.
  rewrite (check_potential_linear phi Hphi). cbn [mbind result_bind].
  cbv iota beta. rewrite M_bind_unfold. unfold lift at 1.
  rewrite Htau. unfold step_below_precision.
  destruct (decide (0 = 0)) as [_ | Hne]; [| contradiction].
  unfold class_test. cbv iota beta.
  rewrite M_bind_unfold. unfold call_integrator at 1. cbn [y dy].
  unfold euler_integrator.
  change (replicate (length [a; phi; dphi]) 0) with [0; 0; 0].
  rewrite (linear_derivs pipaw 0 a phi dphi 0 0 0 eq_refl ltac:(simpl; lia)).
  fold A.
  change (pipaw_N pipaw) with 3%nat.
  match goal with
  | |- context [fold_left ?f (seq 0 3) [a; phi; dphi]] =>
      change (fold_left f (seq 0 3) [a; phi; dphi]) with [a1; phi1; dphi1]
  end.
  unfold mret at 1, M_ret at 1. cbv iota beta.
  rewrite M_bind_unfold. unfold check_epsilon_step, mret at 1, M_ret at 1.
  cbv iota beta.
  rewrite M_bind_unfold. unfold call_derivs at 1. cbn [y dy].
  rewrite (linear_derivs pipaw (0 + dtau l) a1 phi1 dphi1 d0 d1 d2 eq_refl
             ltac:(simpl; lia)).
  fold A1. cbv iota beta.
  rewrite M_bind_unfold. unfold get_vectors at 1. cbv iota beta.
  unfold mret, M_ret. reflexivity.
Qed.

Lemma linear_finish stop l a phi dphi e0 e1 e2 :
  fst (evolve_finish ppm_inflation_V
         (evolve_workspace ppm_inflation_V forward conformal) _phi_ stop
         forward l {| y := [a; phi; dphi]; dy := [e0; e1; e2] |}) = Ok tt.
Proof.
  unfold evolve_finish.
  unfold mbind, M_bind, get_vectors, mret, M_ret, get_y, get_dy, set_y.
  change (bool_decide (forward = forward) && is_inflation_V ppm_inflation_V)
    with true.
  cbv iota beta. unfold call_derivs. cbn [y dy].
  match goal with
  | |- context [primordial_inflation_derivs ?a ?b ?c ?d ?e] =>
      destruct (derivs_polynomial_ok a b c d e eq_refl eq_refl) as [d' ->]
  end.
  reflexivity.
Qed.

Lemma MIN_lower (lo a b : R) : lo <= a -> lo <= b -> lo <= MIN a b.
Proof. intros Ha Hb. unfold MIN. destruct (decide (a < b)); assumption. Qed.

Lemma MIN_upper_r (a b : R) : MIN a b <= b.
Proof. unfold MIN. destruct (decide (a < b)); lra. Qed.

Lemma sqrt_between (x lo hi : R) :
  0 <= lo -> lo * lo < x -> x < hi * hi -> 0 <= hi -> lo < sqrt x < hi.
Proof.
  intros Hlo H1 H2 Hhi.
  assert (Hx : 0 <= x) by nra.
  pose proof (sqrt_pos x) as Hs. pose proof (sqrt_sqrt x Hx) as Hss.
  split; nra.
Qed.

(** A forward run of the example model in which the loop makes one turn:
    the first expected value of the field is before the target [1/1000],
    the second one is past it. *)
Lemma phi_run_one_turn :
  fst (primordial_inflation_evolve_background euler_integrator
         ppm_inflation_V ppr_default 0 _phi_ (1 / 1000) false forward
         conformal {| y := [1; 0; 1]; dy := [0; 0; 0] |}) = Timeout
  /\ fst (primordial_inflation_evolve_background euler_integrator
            ppm_inflation_V ppr_default 1 _phi_ (1 / 1000) false forward
            conformal {| y := [1; 0; 1]; dy := [0; 0; 0] |}) = Ok tt.
Proof.
  pose proof PI_RGT_0 as Hpi0. pose proof PI_4 as Hpi4.
  assert (Hpi3 : 3 < PI) by (pose proof PI2_3_2; lra).
  unfold primordial_inflation_evolve_background. cbv zeta.
  rewrite !M_bind_unfold.
  rewrite (linear_start 1 0 1 0 0 0). cbv zeta.
  set (A := sqrt (8 * PI / 3 * (0.5 * 1 * 1 + 1 * 1 * (1 - 0)))).
  assert (HA : 3 < A < 5) by (apply sqrt_between; nra).
  set (B := Rabs (1 / (-2 * A * 1 - 1 * 1 * -1))).
  assert (HB : 1 / 9 <= B < 1 / 5).
  { unfold B. rewrite Rabs_left.
    - assert (H : 0 < 2 * A - 1) by lra.
      replace (- (1 / (-2 * A * 1 - 1 * 1 * -1))) with (/ (2 * A - 1))
        by (field; lra).
      split.
      + apply Rmult_le_reg_r with (2 * A - 1); [exact H |].
        rewrite Rinv_l by lra. lra.
      + apply Rmult_lt_reg_r with (2 * A - 1); [exact H |].
        rewrite Rinv_l by lra. lra.
    - apply Rmult_lt_reg_r with (2 * A - 1); [lra |].
      replace (1 / (-2 * A * 1 - 1 * 1 * -1) * (2 * A - 1)) with (-1)
        by (field; lra).
      lra. }
  assert (HIA : 1 / 5 < 1 / (1 * A / 1) < 1 / 3).
  { replace (1 / (1 * A / 1)) with (/ A) by (field; lra).
    split; apply Rmult_lt_reg_r with A; try lra; rewrite Rinv_l by lra; lra. }
  set (dtau0 := 1 / 200 * MIN (1 / (1 * A / 1)) B).
  assert (Hd0 : 1 / 1800 <= dtau0 < 1 / 1000).
  { pose proof (MIN_lower (1 / 9) (1 / (1 * A / 1)) B ltac:(lra) ltac:(lra)).
    pose proof (MIN_upper_r (1 / (1 * A / 1)) B).
    unfold dtau0. lra. }
  set (l0 := {| tau_end := 0; dtau := dtau0 |}).
  assert (Hcond0 : sign_of forward * (quantity l0 - 1 / 1000) < 0).
  { unfold l0. cbn [quantity sign_of]. lra. }
  split.
  { cbn [evolve_loop].
    destruct (decide (sign_of forward * (quantity l0 - 1 / 1000) < 0));
      [reflexivity | contradiction]. }
  cbn [evolve_loop].
  destruct (decide (sign_of forward * (quantity l0 - 1 / 1000) < 0));
    [| contradiction].
  rewrite !M_bind_unfold.
  change (sign_of forward) with 1.
  rewrite (linear_step l0 1 0 1 _ _ _ eq_refl ltac:(lra)). cbv zeta.
  change (dtau l0) with dtau0. fold A.
  set (h := 0 + dtau0 - 0).
  assert (Hh : h = dtau0) by (unfold h; ring).
  set (a1 := 1 + h * (1 * A)).
  set (phi1 := 0 + h * 1).
  set (dphi1 := 1 + h * (-2 * A * 1 - 1 * 1 * -1)).
  assert (Ha1 : 1 < a1 < 1 + 1 / 200) by (unfold a1; nra).
  assert (Hphi1 : 1 / 1800 <= phi1 < 1 / 1000) by (unfold phi1; lra).
  assert (Hdphi1 : 99 / 100 < dphi1 < 1) by (unfold dphi1; nra).
  set (A1 := sqrt (8 * PI / 3
                   * (0.5 * dphi1 * dphi1 + a1 * a1 * (1 - phi1)))).
  assert (HA1 : 3 < A1 < 5).
  { apply sqrt_between; try lra.
    - assert (1.4 < 0.5 * dphi1 * dphi1 + a1 * a1 * (1 - phi1)) by nra. nra.
    - assert (0.5 * dphi1 * dphi1 + a1 * a1 * (1 - phi1) < 1.6) by nra. nra. }
  set (D := -2 * A1 * dphi1 - a1 * a1 * -1).
  assert (HD : -10 < D < -4) by (unfold D; nra).
  assert (HB1 : 99 / 1000 <= Rabs (dphi1 / D)).
  { rewrite Rabs_left.
    - replace (- (dphi1 / D)) with (dphi1 * / (- D)) by (field; lra).
      assert (HiD : 1 / 10 < / (- D)).
      { apply Rmult_lt_reg_r with (- D); [lra |].
        rewrite Rinv_l by lra. lra. }
      nra.
    - apply Rmult_lt_reg_r with (- D); [lra |].
      replace (dphi1 / D * - D) with (- dphi1) by (field; lra). lra. }
  assert (HIA1 : 1 / 5 < 1 / (a1 * A1 / a1)).
  { replace (1 / (a1 * A1 / a1)) with (/ A1) by (field; lra).
    apply Rmult_lt_reg_r with A1; try lra; rewrite Rinv_l by lra; lra. }
  set (dtau1 := 1 / 200 * MIN (1 / (a1 * A1 / a1)) (Rabs (dphi1 / D))).
  assert (Hd1 : 99 / 200000 <= dtau1).
  { pose proof (MIN_lower (99 / 1000) (1 / (a1 * A1 / a1))
                  (Rabs (dphi1 / D)) ltac:(lra) ltac:(lra)).
    unfold dtau1. lra. }
  set (l1 := {| tau_end := 0 + dtau0; dtau := dtau1 |}).
  assert (Hcond1 : ~ 1 * (quantity l1 - 1 / 1000) < 0).
  { unfold l1. cbn [quantity]. nra. }
  cbn [evolve_loop].
  destruct (decide (1 * (quantity l1 - 1 / 1000) < 0));
    [contradiction |].
  unfold mret at 1, M_ret at 1. cbv iota beta.
  apply linear_finish.
Qed.

Lemma evolve_background_reaches_phi_stop_witness :
  exists s',
    primordial_inflation_evolve_background euler_integrator ppm_inflation_V
      ppr_default 1 _phi_ (1 / 1000) false forward conformal
      {| y := [1; 0; 1]; dy := [0; 0; 0] |} = (Ok tt, s')
    /\ exists l0 s0 l s1,
         evolve_start ppm_inflation_V ppr_default
           (evolve_workspace ppm_inflation_V forward conformal) _phi_ false
           forward {| y := [1; 0; 1]; dy := [0; 0; 0] |} = (Ok l0, s0)
         /\ evolve_loop euler_integrator ppm_inflation_V ppr_default 1
              (evolve_workspace ppm_inflation_V forward conformal) _phi_
              (1 / 1000) (sign_of forward) false forward l0 s0 = (Ok l, s1)
         /\ ~ sign_of forward
               * (y s1 !!! index_in_phi ppm_inflation_V
                  + dy s1 !!! index_in_phi ppm_inflation_V * dtau l
                  - 1 / 1000) < 0
         /\ ((index_in_phi ppm_inflation_V < length (y s1))%nat ->
             dy s1 !!! index_in_phi ppm_inflation_V <> 0 ->
             y s' !!! index_in_phi ppm_inflation_V = 1 / 1000).
Proof.
  pose proof (proj2 phi_run_one_turn) as Hrun.
  destruct (primordial_inflation_evolve_background euler_integrator
              ppm_inflation_V ppr_default 1 _phi_ (1 / 1000) false forward
              conformal {| y := [1; 0; 1]; dy := [0; 0; 0] |})
    as [r s'] eqn:E.
  simpl in Hrun. subst r. exists s'. split; [reflexivity |].
  apply (evolve_background_reaches_phi_stop euler_integrator ppm_inflation_V
           ppr_default 1 (1 / 1000) false forward conformal
           {| y := [1; 0; 1]; dy := [0; 0; 0] |} s');
    [simpl; lia | simpl; lia | exact E].
Defined.

(** ** The attractor solver *)

(** X15.  When the potential passes its check at [phi_0], the attractor
    solver makes between 1 and [primordial_inflation_attractor_maxit - 1]
    forward integrations before it succeeds: the counter is tested before
    each integration, the first one included, so that with a maximum of 1
    (or less) the solver fails with the attractor-not-found error without
    integrating at all. *)
Theorem find_attractor_iterations :
  forall (generic_integrator :
            (R -> list R -> list R -> result (list R)) -> nat -> R -> R ->
            list R -> R -> R -> result unit * list R)
         (ppm : primordial) (ppr : Primordial.precision) (fuel : nat)
         (phi_0 precision : R) (s : vectors) (V_0 dV_0 ddV_0 : R),
    primordial_inflation_check_potential ppm phi_0 = Ok (V_0, dV_0, ddV_0) ->
    let maxit := primordial_inflation_attractor_maxit ppr in
    let run :=
      primordial_inflation_find_attractor generic_integrator ppm ppr fuel
        phi_0 precision s in
    ((maxit <= 1)%Z ->
     run = (Err AttractorNotFound,
            s))
    /\ (forall H_0 dphidt_0 s',
          run = (Ok (H_0, dphidt_0), s') ->
          exists n l,
            attractor_accepted generic_integrator ppm ppr fuel phi_0
              precision V_0 dV_0 n
              (attractor_start phi_0 precision dV_0 V_0) s l s'
            /\ (1 <= Z.of_nat n < maxit)%Z
            /\ counter l = Z.of_nat n).
Proof.
  intros gi ppm ppr fuel phi_0 precision s V_0 dV_0 ddV_0 Hchk maxit run.
  destruct (check_potential_ok ppm phi_0 V_0 dV_0 ddV_0 Hchk)
    as (HV & HdV & _).
  pose proof (attractor_start_not_converged phi_0 precision V_0 dV_0 HV HdV)
    as Hstart.
  unfold run, primordial_inflation_find_attractor.
  rewrite M_bind_unfold. unfold lift at 1. rewrite Hchk. cbv iota beta.
  rewrite M_bind_unfold. split.
  - intros Hmax. cbn [attractor_loop].
    destruct (decide (not_converged precision
                        (attractor_start phi_0 precision dV_0 V_0)));
      [| contradiction].
    rewrite M_bind_unfold. unfold attractor_step. cbv zeta.
    rewrite M_bind_unfold. unfold lift at 1, class_test.
    rewrite bool_decide_eq_true_2; [reflexivity |].
    simpl. fold maxit. lia.
  - intros H_0 dphidt_0 s' Hrun.
    cbv beta iota delta [lift] in Hrun. rewrite M_bind_unfold in Hrun.
    destruct (attractor_loop gi ppm ppr
                (S (Z.to_nat (primordial_inflation_attractor_maxit ppr)))
                fuel phi_0 precision V_0 dV_0
                (attractor_start phi_0 precision dV_0 V_0) s)
      as [[l | e |] s1] eqn:Hloop; try discriminate.
    unfold mret, M_ret in Hrun. injection Hrun as _ _ <-.
    destruct (attractor_loop_ok gi ppm ppr fuel phi_0 precision V_0 dV_0 _ _
                _ _ _ Hloop) as (n & Hacc & Hconv).
    exists n, l. split; [exact Hacc |].
    destruct (attractor_accepted_counter gi ppm ppr fuel phi_0 precision V_0
                dV_0 n _ _ _ _ Hacc) as (Hc & _ & Hn).
    simpl in Hc.
    destruct n as [| n].
    + exfalso. inversion Hacc; subst. contradiction.
    + destruct (Hn ltac:(lia)) as [Hlt _]. fold maxit in Hlt. lia.
Qed.

Lemma find_attractor_iterations_witness :
  primordial_inflation_find_attractor euler_integrator ppm_inflation_V
    {| primordial_inflation_ratio_min := 100;
       primordial_inflation_ratio_max := 1 / 50;
       primordial_inflation_attractor_maxit := 1;
       primordial_inflation_bg_stepsize := 1 / 200;
       primordial_inflation_pt_stepsize := 1 / 100;
       primordial_inflation_tol_integration := 1 / 1000;
       primordial_inflation_tol_curvature := 1 / 1000;
       smallest_allowed_variation := 1 / 1000000 |}
    5 0 (1 / 100) {| y := [1; 0; 1]; dy := [0; 0; 0] |}
  = (Err AttractorNotFound, {| y := [1; 0; 1]; dy := [0; 0; 0] |}).
Proof.
  refine (proj1 (find_attractor_iterations euler_integrator ppm_inflation_V
                   _ 5 0 (1 / 100) {| y := [1; 0; 1]; dy := [0; 0; 0] |}
                   (1 - 0) (-1) 0 (check_potential_linear 0 _)) _);
    [lra | simpl; lia].
Defined.

(** * Further properties of the analytic spectrum *)

(** X16.  The analytic spectrum of an entry flagged non-zero, with a
    positive pivot scale: at the pivot scale it is the stored amplitude;
    without running it is the power law [A (k/k_pivot)^(n-1)], so that a
    tilt [n = 1] gives a scale-invariant spectrum; and it has the sign of
    the amplitude at every [k > 0].  An entry flagged zero has the spectrum
    0. *)
Theorem analytic_spectrum_shape :
  forall (ppm : primordial) (index_md c : nat),
    0 < k_pivot ppm ->
    let A := read2 (amplitude ppm) index_md c in
    let n := read2 (tilt ppm) index_md c in
    let alpha := read2 (running ppm) index_md c in
    let P := primordial_analytic_spectrum ppm index_md c in
    (read2 (is_non_zero ppm) index_md c = false -> forall k, P k = 0)
    /\ (read2 (is_non_zero ppm) index_md c = true ->
        P (k_pivot ppm) = A
        /\ (alpha = 0 ->
            forall lambda, 0 < lambda ->
              P (lambda * k_pivot ppm) = A * Rpower lambda (n - 1))
        /\ (alpha = 0 -> n = 1 -> forall k, 0 < k -> P k = A)
        /\ (forall k, 0 < k ->
              (0 < A <-> 0 < P k) /\ (A = 0 <-> P k = 0))).
Proof.
  intros ppm index_md c Hkp A n alpha P.
  unfold P, primordial_analytic_spectrum. fold A n alpha.
  split; [intros ->; reflexivity |].
  intros ->. split; [| split; [| split]].
  - replace (k_pivot ppm / k_pivot ppm) with 1 by (field; lra).
    rewrite ln_1.
    replace ((n - 1) * 0 + 0.5 * alpha * 0 ^ 2) with 0 by ring.
    rewrite exp_0. ring.
  - intros -> lambda Hl.
    replace (lambda * k_pivot ppm / k_pivot ppm) with lambda by (field; lra).
    unfold Rpower. f_equal. f_equal. ring.
  - intros -> -> k _.
    replace ((1 - 1) * ln (k / k_pivot ppm)
             + 0.5 * 0 * ln (k / k_pivot ppm) ^ 2) with 0 by ring.
    rewrite exp_0. ring.
  - intros k _. set (e := exp _). assert (He : 0 < e) by apply exp_pos.
    split; split; intros H; nra.
Qed.

Lemma analytic_spectrum_shape_witness :
  primordial_analytic_spectrum tables_cross_tilt 0 1 (2 * 1)
  = 1 / 2 * Rpower 2 (2 - 1).
Proof.
  pose proof (analytic_spectrum_shape tables_cross_tilt 0 1
                ltac:(simpl; lra)) as [_ H].
  cbv zeta in H.
  destruct (H eq_refl) as (_ & Hpow & _).
  exact (Hpow eq_refl 2 ltac:(lra)).
Defined.

Lemma init_sizes ppt ppm ppm' :
  primordial_analytic_spectrum_init ppt ppm = Ok ppm' ->
  md_size ppm' = md_size ppm /\ ic_size ppm' = ic_size ppm
  /\ ic_ic_size ppm' = ic_ic_size ppm /\ k_pivot ppm' = k_pivot ppm
  /\ lnk ppm' = lnk ppm /\ lnk_size ppm' = lnk_size ppm
  /\ lnpk ppm' = lnpk ppm.
Proof.
  unfold primordial_analytic_spectrum_init.
  destruct (for_each _ _ _) as [st | e |]; simpl; try discriminate.
  intros [= <-]. repeat split.
Qed.

(** X17.  After a successful [primordial_analytic_spectrum_init], in every
    mode: each diagonal entry is flagged non-zero and has a positive
    amplitude; for a pair [i < j] the stored amplitude satisfies
    [A_ij^2 <= A_ii A_jj]; and the pair is flagged zero, with amplitude,
    tilt and running all set to 0, exactly when its amplitude is 0. *)
Theorem analytic_init_matrix :
  forall (ppt : perturbs) (ppm ppm' : primordial) (index_md i j : nat),
    tables_allocated ppm ->
    primordial_analytic_spectrum_init ppt ppm = Ok ppm' ->
    (index_md < md_size ppm)%nat ->
    (i < j)%nat -> (j < ic_size ppm !!! index_md)%nat ->
    let idx := fun a b =>
      index_symmetric_matrix a b (ic_size ppm !!! index_md) in
    let A := fun a b => read2 (amplitude ppm') index_md (idx a b) in
    let nz := fun a b => read2 (is_non_zero ppm') index_md (idx a b) in
    nz i i = true /\ nz j j = true /\ 0 < A i i /\ 0 < A j j
    /\ (A i j) ^ 2 <= A i i * A j j
    /\ (nz i j = false <-> A i j = 0)
    /\ (nz i j = false ->
        read2 (tilt ppm') index_md (idx i j) = 0
        /\ read2 (running ppm') index_md (idx i j) = 0).
Proof.
  intros ppt ppm ppm' index_md i j Halloc Hinit Hm Hij Hj idx A nz.
  destruct (init_row ppt ppm ppm' index_md Halloc Hinit Hm)
    as (sa & sb & Hsa & Hstep & _ & Hcells).
  destruct (md_step_pair ppt ppm index_md Hm sa sb i j Hsa Hstep Hij Hj)
    as (s1 & ai & ti & ri & aj & tj & rj & Hai & Haj & Hci & Hcj & Hc & Hcij).
  cbv zeta in Hc, Hcij.
  set (c := one_correlation (cross_select ppt ppm index_md i j s1)) in *.
  rewrite <- Hcells in Hci, Hcj, Hcij.
  injection Hci as Hnzi Hami _ _. injection Hcj as Hnzj Hamj _ _.
  unfold nz, A, idx. rewrite Hnzi, Hnzj, Hami, Hamj.
  assert (Hs : 0 < sqrt (ai * aj)) by (apply sqrt_lt_R0; nra).
  assert (Hss : sqrt (ai * aj) * sqrt (ai * aj) = ai * aj)
    by (apply sqrt_sqrt; nra).
  split; [reflexivity |]. split; [reflexivity |].
  split; [exact Hai |]. split; [exact Haj |].
  destruct (decide (c = 0)) as [Hz | Hnz];
    injection Hcij as -> -> -> ->.
  - split; [nra |]. split; [tauto |]. tauto.
  - split.
    { replace ((sqrt (ai * aj) * c) ^ 2)
        with (sqrt (ai * aj) * sqrt (ai * aj) * (c * c)) by ring.
      rewrite Hss. assert (c * c <= 1) by nra. nra. }
    split; [| discriminate].
    split; [discriminate |]. intros H0. exfalso.
    apply Hnz. apply Rmult_integral in H0. destruct H0; lra.
Qed.

Lemma analytic_init_matrix_witness :
  read2 (is_non_zero tables_cross_tilt) 0 (index_symmetric_matrix 0 0 2) = true
  /\ read2 (is_non_zero tables_cross_tilt) 0 (index_symmetric_matrix 1 1 2)
     = true
  /\ 0 < read2 (amplitude tables_cross_tilt) 0 (index_symmetric_matrix 0 0 2)
  /\ 0 < read2 (amplitude tables_cross_tilt) 0 (index_symmetric_matrix 1 1 2)
  /\ (read2 (amplitude tables_cross_tilt) 0 (index_symmetric_matrix 0 1 2)) ^ 2
     <= read2 (amplitude tables_cross_tilt) 0 (index_symmetric_matrix 0 0 2)
        * read2 (amplitude tables_cross_tilt) 0 (index_symmetric_matrix 1 1 2)
  /\ (read2 (is_non_zero tables_cross_tilt) 0 (index_symmetric_matrix 0 1 2)
      = false
      <-> read2 (amplitude tables_cross_tilt) 0 (index_symmetric_matrix 0 1 2)
          = 0)
  /\ (read2 (is_non_zero tables_cross_tilt) 0 (index_symmetric_matrix 0 1 2)
      = false ->
      read2 (tilt tables_cross_tilt) 0 (index_symmetric_matrix 0 1 2) = 0
      /\ read2 (running tables_cross_tilt) 0 (index_symmetric_matrix 0 1 2)
         = 0).
Proof.
  apply (analytic_init_matrix ppt_ad_cdi ppm_cross_tilt tables_cross_tilt
           0 0 1 tables_allocated_cross_tilt init_cross_tilt);
    simpl; lia.
Defined.

(** ** The table filled by [primordial_init] *)

Lemma fold_left_bind {A X Y : Type} (f : A -> Y -> A) (g : X -> list Y)
    (xs : list X) :
  forall a, fold_left f (xs ≫= g) a
            = fold_left (fun a x => fold_left f (g x) a) xs a.
Proof.
  induction xs as [| x xs IH]; intros a; [reflexivity |].
  change ((x :: xs) ≫= g) with (g x ++ (xs ≫= g)).
  rewrite fold_left_app. apply IH.
Qed.

Lemma fold_left_ext {A X : Type} (f g : A -> X -> A) (xs : list X) :
  (forall a x, f a x = g a x) ->
  forall a, fold_left f xs a = fold_left g xs a.
Proof.
  intros Hfg. induction xs as [| x xs IH]; intros a; simpl; [reflexivity |].
  rewrite Hfg. apply IH.
Qed.

(** A sequence of writes into a two-dimensional array, each of a value
    that does not depend on the array: a cell within the array holds at the
    end the value of any write aimed at it, provided the writes aimed at it
    all carry that value. *)
Lemma fold_write_read {X : Type} (row col : X -> nat) (val : X -> R)
    (xs : list X) (x0 : X) :
  forall t : list (list R),
    x0 ∈ xs ->
    (forall x, x ∈ xs -> row x = row x0 -> col x = col x0 -> val x = val x0) ->
    (row x0 < length t)%nat -> (col x0 < length (t !!! row x0))%nat ->
    read2 (fold_left (fun t x => write2 t (row x) (col x) (val x)) xs t)
          (row x0) (col x0) = val x0.
Proof.
  induction xs as [| x xs IH] using rev_ind; intros t Hin Hsame Hr Hc.
  - inversion Hin.
  - rewrite fold_left_app. simpl.
    set (t' := fold_left _ xs t).
    assert (Hlen : length t' = length t
                   /\ forall m, length (t' !!! m) = length (t !!! m)).
    { unfold t'. clear. generalize t. induction xs as [| y ys IHy];
        intros t0; simpl; [split; reflexivity |].
      destruct (IHy (write2 t0 (row y) (col y) (val y))) as [H1 H2].
      unfold write2 in *. rewrite length_insert in H1.
      split; [exact H1 |]. intros m. rewrite H2.
      destruct (decide (row y = m)) as [<- | Hne].
      - destruct (decide (row y < length t0)%nat).
        + rewrite list_lookup_total_insert_eq by assumption.
          apply length_insert.
        + rewrite list_insert_ge by lia. reflexivity.
      - rewrite list_lookup_total_insert_ne by exact Hne. reflexivity. }
    destruct Hlen as [Hl1 Hl2].
    destruct (decide ((row x, col x) = (row x0, col x0))) as [[= Er Ec] | Hne].
    + rewrite <- Er, <- Ec.
      rewrite read2_write2_eq by (rewrite ?Hl1, ?Hl2, ?Er, ?Ec; assumption).
      apply Hsame; [apply elem_of_app; right; apply list_elem_of_singleton;
                    reflexivity | exact Er | exact Ec].
    + rewrite read2_write2_ne by exact Hne.
      apply elem_of_app in Hin. destruct Hin as [Hin | Hin].
      * apply IH; try assumption.
        intros y Hy. apply Hsame. apply elem_of_app. left. exact Hy.
      * apply list_elem_of_singleton in Hin. subst x0. contradiction.
Qed.

(** X18.  The table that [primordial_init] fills for an analytic spectrum:
    with [ic_ic_size] counting the pairs of initial conditions and rows of
    [lnpk] of at least [lnk_size * ic_ic_size] entries, the entry of the
    wavenumber [index_k] and of the pair [i <= j] of the mode [index_md],
    at the offset [index_k * ic_ic_size + index_symmetric_matrix(i, j)],
    holds [ln P_ii(k)] for a diagonal pair, the cosine
    [P_ij / sqrt(P_ii P_jj)] brought back into [[-1, 1]] for another pair
    flagged non-zero, and 0 for a pair flagged zero, at
    [k = exp(lnk[index_k])]. *)
Theorem primordial_init_fill_table :
  forall (ppm : primordial) (index_k index_md i j : nat),
    (forall m, (m < md_size ppm)%nat ->
       let N := ic_size ppm !!! m in
       ic_ic_size ppm !!! m = (N * (N + 1) / 2)%nat
       /\ (m < length (lnpk ppm))%nat
       /\ (lnk_size ppm * ic_ic_size ppm !!! m
           <= length (lnpk ppm !!! m))%nat) ->
    (index_k < lnk_size ppm)%nat -> (index_md < md_size ppm)%nat ->
    (i <= j)%nat -> (j < ic_size ppm !!! index_md)%nat ->
    let N := ic_size ppm !!! index_md in
    let k := exp (lnk ppm !!! index_k) in
    let P := fun a b =>
      primordial_analytic_spectrum ppm index_md
        (index_symmetric_matrix a b N) k in
    read2 (primordial_init_fill ppm) index_md
      (index_k * ic_ic_size ppm !!! index_md + index_symmetric_matrix i j N)
    = primordial_init_entry ppm index_md i j k
    /\ primordial_init_entry ppm index_md i j k
       = if read2 (is_non_zero ppm) index_md (index_symmetric_matrix i j N)
         then if decide (i = j) then ln (P i i)
              else if decide (P i j > sqrt (P i i * P j j)) then 1
                   else if decide (P i j < - sqrt (P i i * P j j)) then -1
                        else P i j / sqrt (P i i * P j j)
         else 0.
Proof.
  intros ppm index_k index_md i j Hsz Hk Hm Hij Hj N k P.
  split; [| unfold primordial_init_entry; fold N; unfold P;
            destruct (decide (i = j)) as [-> | Hne]; reflexivity].
  set (row := fun x : nat * nat * (nat * nat) => x.1.2).
  set (col := fun x : nat * nat * (nat * nat) =>
                (x.1.1 * ic_ic_size ppm !!! x.1.2
                 + index_symmetric_matrix x.2.1 x.2.2
                     (ic_size ppm !!! x.1.2))%nat).
  set (val := fun x : nat * nat * (nat * nat) =>
                primordial_init_entry ppm x.1.2 x.2.1 x.2.2
                  (exp (lnk ppm !!! x.1.1))).
  set (xs := k0 ← seq 0 (lnk_size ppm);
             m ← seq 0 (md_size ppm);
             p ← ic_pairs (ic_size ppm !!! m); [(k0, m, p)]).
  assert (Hflat : primordial_init_fill ppm
                  = fold_left (fun t x => write2 t (row x) (col x) (val x))
                              xs (lnpk ppm)).
  { unfold primordial_init_fill, xs.
    rewrite fold_left_bind. apply fold_left_ext. intros t k0.
    rewrite fold_left_bind. apply fold_left_ext. intros t' m.
    rewrite fold_left_bind. apply fold_left_ext. intros t'' [a b].
    reflexivity. }
  assert (Hmem : forall k0 m a b,
             (k0, m, (a, b)) ∈ xs
             <-> (k0 < lnk_size ppm)%nat /\ (m < md_size ppm)%nat
                 /\ (a <= b)%nat /\ (b < ic_size ppm !!! m)%nat).
  { intros k0 m a b. unfold xs. rewrite list_elem_of_bind. split.
    - intros (k1 & Hin & Hk1). apply list_elem_of_bind in Hin.
      destruct Hin as (m1 & Hin & Hm1). apply list_elem_of_bind in Hin.
      destruct Hin as (p & Hin & Hp). apply list_elem_of_singleton in Hin.
      injection Hin as -> -> <-.
      apply elem_of_seq in Hk1. apply elem_of_seq in Hm1.
      apply elem_of_ic_pairs in Hp. lia.
    - intros (H1 & H2 & H3 & H4). exists k0. split; [| apply elem_of_seq; lia].
      apply list_elem_of_bind. exists m. split; [| apply elem_of_seq; lia].
      apply list_elem_of_bind. exists (a, b).
      split; [apply list_elem_of_singleton; reflexivity |].
      apply elem_of_ic_pairs. lia. }
  rewrite Hflat.
  destruct (Hsz index_md Hm) as (Hcount & Hrow & Hcol). cbv zeta in Hcount.
  fold N in Hcount.
  pose proof (index_symmetric_matrix_bound i j N Hij Hj) as Hb.
  apply (fold_write_read row col val xs (index_k, index_md, (i, j))).
  - apply Hmem. auto.
  - intros [[k1 m1] [a b]] Hin Er Ec. unfold row, col, val in *.
    cbn [fst snd] in *.
    subst m1. apply Hmem in Hin. destruct Hin as (Hk1 & _ & Hab & Hb1).
    fold N in Hb1, Ec.
    pose proof (index_symmetric_matrix_bound a b N Hab Hb1) as Hb'.
    rewrite Hcount in Ec.
    assert (k1 = index_k /\ index_symmetric_matrix a b N
                            = index_symmetric_matrix i j N) as [-> Eidx].
    { revert Ec Hb Hb'. generalize (N * (N + 1) / 2)%nat.
      generalize (index_symmetric_matrix a b N).
      generalize (index_symmetric_matrix i j N).
      intros c1 c2 S Ec Hc1 Hc2.
      assert (k1 = index_k) as ->; [| lia].
      destruct (Nat.lt_trichotomy k1 index_k) as [Hlt | [Heq | Hgt]];
        [exfalso | exact Heq | exfalso].
      - assert (H : ((k1 + 1) * S <= index_k * S)%nat)
          by (apply Nat.mul_le_mono_r; lia).
        rewrite Nat.mul_add_distr_r in H. lia.
      - assert (H : ((index_k + 1) * S <= k1 * S)%nat)
          by (apply Nat.mul_le_mono_r; lia).
        rewrite Nat.mul_add_distr_r in H. lia. }
    destruct (index_symmetric_matrix_inj a b i j N Hab Hb1 Hij Hj Eidx)
      as [-> ->].
    reflexivity.
  - exact Hrow.
  - unfold row, col. cbn [fst snd]. fold N. rewrite Hcount in *.
    revert Hcol Hb. generalize (N * (N + 1) / 2)%nat.
    generalize (index_symmetric_matrix i j N). intros c S Hcol Hc.
    assert (H : ((index_k + 1) * S <= lnk_size ppm * S)%nat)
      by (apply Nat.mul_le_mono_r; lia).
    rewrite Nat.mul_add_distr_r in H. lia.
Qed.

Lemma primordial_init_fill_table_witness :
  read2 (primordial_init_fill tables_full_correlation) 0
    (0 * ic_ic_size tables_full_correlation !!! 0%nat
     + index_symmetric_matrix 0 1 (ic_size tables_full_correlation !!! 0%nat))
  = primordial_init_entry tables_full_correlation 0 0 1
      (exp (lnk tables_full_correlation !!! 0%nat)).
Proof.
  refine (proj1 (primordial_init_fill_table tables_full_correlation 0 0 0 1
                   _ _ _ _ _)); try (simpl; lia).
  intros m Hm. assert (m = 0%nat) as -> by (simpl in Hm; lia).
  cbv zeta. split; [reflexivity |]. simpl. lia.
Defined.

(** The diagonal spectra after the initialisation are positive. *)
Lemma init_diagonal_positive ppt ppm ppm' m i k :
  tables_allocated ppm ->
  primordial_analytic_spectrum_init ppt ppm = Ok ppm' ->
  (m < md_size ppm)%nat -> (i < ic_size ppm !!! m)%nat ->
  read2 (is_non_zero ppm') m
    (index_symmetric_matrix i i (ic_size ppm !!! m)) = true
  /\ 0 < primordial_analytic_spectrum ppm' m
           (index_symmetric_matrix i i (ic_size ppm !!! m)) k.
Proof.
  intros Halloc Hinit Hm Hi.
  destruct (init_row ppt ppm ppm' m Halloc Hinit Hm)
    as (sa & sb & Hsa & Hstep & _ & Hcells).
  unfold analytic_md_step in Hstep.
  destruct (for_each (diag_step ppt ppm m) (seq 0 (ic_size ppm !!! m)) sa)
    as [sd | e |] eqn:Hd; simpl in Hstep; try discriminate.
  pose proof (diag_loop_sized ppt ppm m sa sd Hsa Hd) as Hsd.
  destruct (diag_loop_cells ppt ppm m Hm sa sd i Hsa Hd Hi)
    as (a & t & rn & Ha & Hc).
  rewrite <- (cross_loop_diag ppt ppm m sd sb i Hsd Hstep Hi) in Hc.
  rewrite <- Hcells in Hc. injection Hc as Hnz Hamp _ _.
  split; [exact Hnz |].
  unfold primordial_analytic_spectrum. rewrite Hnz, Hamp.
  apply Rmult_lt_0_compat; [exact Ha | apply exp_pos].
Qed.

(** X19.  What [primordial_init] tabulates gives the spectra back, after a
    successful [primordial_analytic_spectrum_init], at a wavenumber [k > 0]
    and with a pivot scale [k_pivot > 0].  For every initial condition [i]
    of a mode, also of a mode with one initial condition only, the diagonal
    spectrum is positive and is the exponential of the diagonal entry.  For
    a pair [i < j] the entry is a cosine in [[-1, 1]] and, multiplied by
    [sqrt(P_ii P_jj)] as a query in linear mode does, it gives the
    cross-spectrum [P_ij] limited to the interval
    [[-sqrt(P_ii P_jj), sqrt(P_ii P_jj)]]. *)
Theorem init_entry_round_trip :
  forall (ppt : perturbs) (ppm ppm' : primordial) (index_md : nat) (k : R),
    tables_allocated ppm ->
    primordial_analytic_spectrum_init ppt ppm = Ok ppm' ->
    (index_md < md_size ppm)%nat ->
    0 < k -> 0 < k_pivot ppm ->
    let N := ic_size ppm !!! index_md in
    let P := fun a b =>
      primordial_analytic_spectrum ppm' index_md
        (index_symmetric_matrix a b N) k in
    let entry := fun a b => primordial_init_entry ppm' index_md a b k in
    (forall i, (i < N)%nat -> 0 < P i i /\ exp (entry i i) = P i i)
    /\ (forall i j, (i < j)%nat -> (j < N)%nat ->
          let s := sqrt (P i i * P j j) in
          -1 <= entry i j <= 1
          /\ entry i j * sqrt (exp (entry i i) * exp (entry j j))
             = Rmax (- s) (Rmin s (P i j))).
Proof.
  intros ppt ppm ppm' index_md k Halloc Hinit Hm _ _ N P entry.
  destruct (init_sizes ppt ppm ppm' Hinit) as (_ & Hic & _).
  assert (Hdiag : forall a, (a < N)%nat ->
                            0 < P a a /\ exp (entry a a) = P a a).
  { intros a Ha.
    destruct (init_diagonal_positive ppt ppm ppm' index_md a k Halloc Hinit
                Hm Ha) as [Hnz HPa].
    fold N in Hnz, HPa. fold (P a a) in HPa.
    split; [exact HPa |].
    unfold entry, primordial_init_entry.
    rewrite Hic. fold N. rewrite Hnz.
    destruct (decide (a = a)); [| congruence].
    apply exp_ln. exact HPa. }
  split; [exact Hdiag |].
  intros i j Hij Hj s.
  destruct (Hdiag i ltac:(lia)) as [HPi Hei].
  destruct (Hdiag j Hj) as [HPj Hej].
  assert (Hs : 0 < s) by (apply sqrt_lt_R0; nra).
  split.
  { pose proof (primordial_init_entry_clamped ppm' index_md i j k
                  ltac:(lia)) as Hcl.
    cbv zeta in Hcl. rewrite Hic in Hcl. fold N in Hcl.
    apply Hcl; assumption. }
  rewrite Hei, Hej. fold s.
  unfold entry, primordial_init_entry. rewrite Hic. fold N.
  fold (P i j) (P i i) (P j j). fold s.
  destruct (read2 (is_non_zero ppm') index_md (index_symmetric_matrix i j N))
    eqn:Hnz.
  - destruct (decide (i = j)); [lia |].
    destruct (decide (P i j > s)) as [Hgt | Hle].
    + rewrite Rmin_left by lra. rewrite Rmax_right by lra. ring.
    + rewrite Rmin_right by lra.
      destruct (decide (P i j < - s)) as [Hlt | Hge].
      * rewrite Rmax_left by lra. ring.
      * rewrite Rmax_right by lra. field. lra.
  - assert (HP0 : P i j = 0)
      by (unfold P, primordial_analytic_spectrum; rewrite Hnz; reflexivity).
    rewrite HP0. rewrite Rmin_right by lra. rewrite Rmax_right by lra. ring.
Qed.

Lemma init_entry_round_trip_witness :
  let P := fun a b =>
    primordial_analytic_spectrum tables_cross_tilt 0
      (index_symmetric_matrix a b (ic_size ppm_cross_tilt !!! 0%nat))
      (exp 1) in
  let entry := fun a b =>
    primordial_init_entry tables_cross_tilt 0 a b (exp 1) in
  let s := sqrt (P 0%nat 0%nat * P 1%nat 1%nat) in
  (0 < P 0%nat 0%nat /\ exp (entry 0%nat 0%nat) = P 0%nat 0%nat)
  /\ -1 <= entry 0%nat 1%nat <= 1
  /\ entry 0%nat 1%nat
     * sqrt (exp (entry 0%nat 0%nat) * exp (entry 1%nat 1%nat))
     = Rmax (- s) (Rmin s (P 0%nat 1%nat)).
Proof.
  destruct (init_entry_round_trip ppt_ad_cdi ppm_cross_tilt tables_cross_tilt
              0 (exp 1) tables_allocated_cross_tilt init_cross_tilt
              ltac:(simpl; lia) (exp_pos 1) ltac:(simpl; lra))
    as [Hdiag Hpair].
  cbv zeta in Hdiag, Hpair. cbv zeta.
  split; [apply Hdiag; simpl; lia |].
  apply Hpair; simpl; lia.
Defined.

(** ** Queries outside the table *)

(** The direct computation writes the cells of the pairs of initial
    conditions only. *)
Lemma direct_computation_frame ppm index_md mode lnk_val o n :
  let N := ic_size ppm !!! index_md in
  (N * (N + 1) / 2 <= n)%nat ->
  direct_computation ppm index_md mode lnk_val o !!! n = o !!! n.
Proof.
  intros N Hn.
  assert (Hp : forall l : list (nat * nat),
             (forall p, p ∈ l -> (p.1 <= p.2)%nat /\ (p.2 < N)%nat) ->
             n ∉ (fun p => index_symmetric_matrix p.1 p.2 N) <$> l).
  { intros l Hl Hin. apply list_elem_of_fmap in Hin.
    destruct Hin as ([a b] & -> & Hab). destruct (Hl _ Hab) as [H1 H2].
    pose proof (index_symmetric_matrix_bound a b N H1 H2). simpl in *. lia. }
  assert (Hd : n ∉ (fun i => index_symmetric_matrix i i N) <$> seq 0 N).
  { intros Hin. apply list_elem_of_fmap in Hin.
    destruct Hin as (a & -> & Ha). apply elem_of_seq in Ha.
    pose proof (index_symmetric_matrix_bound a a N ltac:(lia) ltac:(lia)).
    lia. }
  assert (Hall : forall p, p ∈ ic_pairs N -> (p.1 <= p.2)%nat /\ (p.2 < N)%nat)
    by (intros [a b] H; apply elem_of_ic_pairs in H; exact H).
  assert (Hoff : forall p, p ∈ ic_pairs_offdiag N ->
                           (p.1 <= p.2)%nat /\ (p.2 < N)%nat)
    by (intros [a b] H; apply elem_of_ic_pairs_offdiag in H; simpl; lia).
  unfold direct_computation. fold N.
  destruct (decide (mode = logarithmic)).
  - rewrite (fold_left_frame _ _ (log_cross_step_frame ppm index_md))
      by (apply Hp; exact Hoff).
    rewrite (fold_left_frame _ _ (log_diag_step_frame ppm index_md))
      by exact Hd.
    apply (fold_left_frame _ _ (direct_step_frame ppm index_md _)).
    apply Hp. exact Hall.
  - apply (fold_left_frame _ _ (direct_step_frame ppm index_md _)).
    apply Hp. exact Hall.
Qed.

(** X20.  A query of an analytic spectrum outside the table, in linear
    mode at [k > 0], succeeds and returns for every pair [i <= j],
    cross-spectra included, the value of [primordial_analytic_spectrum] at
    [k]; in logarithmic mode it returns for every diagonal pair the value
    that [primordial_init] tabulates for a wavenumber of the table.  In
    both modes the array keeps its length and its cells beyond the pairs of
    initial conditions. *)
Theorem spectrum_at_k_direct :
  forall (array_interpolate_spline :
            list R -> nat -> list R -> list R -> nat -> R -> list R -> nat ->
            result unit * list R)
         (ppm : primordial) (index_md : nat) (mode : linear_or_logarithmic)
         (input : R) (output : list R),
    let N := ic_size ppm !!! index_md in
    let idx := fun i j => index_symmetric_matrix i j N in
    let lnk_val :=
      match mode with linear => ln input | logarithmic => input end in
    primordial_spec_type ppm = analytic_Pk ->
    (mode = linear -> 0 < input) ->
    lnk_val > lnk ppm !!! (lnk_size ppm - 1)%nat \/ lnk_val < lnk ppm !!! 0%nat ->
    (N * (N + 1) / 2 <= length output)%nat ->
    exists out,
      primordial_spectrum_at_k array_interpolate_spline ppm index_md mode
        input output = (Ok tt, out)
      /\ length out = length output
      /\ (forall n, (N * (N + 1) / 2 <= n)%nat -> out !!! n = output !!! n)
      /\ (mode = linear ->
          forall i j, (i <= j)%nat -> (j < N)%nat ->
            out !!! idx i j
            = primordial_analytic_spectrum ppm index_md (idx i j) input)
      /\ (mode = logarithmic ->
          forall i, (i < N)%nat ->
            read2 (is_non_zero ppm) index_md (idx i i) = true ->
            out !!! idx i i
            = primordial_init_entry ppm index_md i i (exp input)).
Proof.
  intros spline ppm index_md mode input output N idx lnk_val Hana Hpos Hout
         Hlen.
  assert (Hcall : primordial_spectrum_at_k spline ppm index_md mode input
                    output
                  = (Ok tt, direct_computation ppm index_md mode lnk_val
                              output)).
  { unfold primordial_spectrum_at_k, lnk_val.
    assert (Hl : spectrum_at_lnk spline ppm index_md mode lnk_val output
                 = (Ok tt, direct_computation ppm index_md mode lnk_val
                             output)).
    { unfold spectrum_at_lnk.
      replace (bool_decide (lnk_val > lnk ppm !!! (lnk_size ppm - 1)%nat)
               || bool_decide (lnk_val < lnk ppm !!! 0%nat)) with true.
      - destruct (decide (primordial_spec_type ppm <> analytic_Pk));
          [contradiction | reflexivity].
      - symmetry. apply orb_true_iff.
        destruct Hout as [H | H]; [left | right];
          apply bool_decide_eq_true_2; exact H. }
    unfold lnk_val in Hl. destruct mode; [| exact Hl].
    destruct (decide (input <= 0)) as [Hle | _]; [| exact Hl].
    specialize (Hpos eq_refl). lra. }
  eexists. split; [exact Hcall |].
  split; [apply direct_computation_length |].
  split; [intros n Hn; apply direct_computation_frame; exact Hn |].
  split.
  - intros -> i j Hij Hj.
    pose proof (direct_computation_linear ppm index_md (ln input) output i j
                  Hij Hj Hlen) as H.
    cbn [fst snd] in H. unfold idx, N, lnk_val. rewrite H.
    rewrite exp_ln by (apply Hpos; reflexivity). reflexivity.
  - intros -> i Hi Hnz. unfold idx, N, lnk_val in *.
    rewrite (direct_computation_log_diag ppm index_md input output i Hi Hlen).
    unfold primordial_init_entry. rewrite Hnz.
    destruct (decide (i = i)); [reflexivity | congruence].
Qed.

Lemma spectrum_at_k_direct_witness :
  exists out,
    primordial_spectrum_at_k first_line_interpolation tables_cross_tilt 0
      linear 1 [0; 0; 0; 7] = (Ok tt, out)
    /\ length out = 4%nat
    /\ out !!! 3%nat = 7
    /\ out !!! 1%nat = primordial_analytic_spectrum tables_cross_tilt 0 1 1.
Proof.
  destruct (spectrum_at_k_direct first_line_interpolation tables_cross_tilt 0
              linear 1 [0; 0; 0; 7] eq_refl (fun _ => Rlt_0_1))
    as (out & Hcall & Hlen & Hframe & Hlin & _).
  - right. change (lnk tables_cross_tilt !!! 0%nat) with 1.
    rewrite ln_1. lra.
  - simpl. lia.
  - exists out. split; [exact Hcall |]. split; [exact Hlen |].
    split; [apply (Hframe 3%nat); simpl; lia |].
    apply (Hlin eq_refl 0%nat 1%nat); simpl; lia.
Defined.

(** * Properties of the set-up of the tables *)

Import Setup.
Import SetupExamples.

Lemma c_int_floor (x : R) :
  0 <= x -> x < IZR INT_MAX + 1 ->
  c_int x = Some (Int_part x)
  /\ (0 <= Int_part x)%Z /\ IZR (Int_part x) <= x < IZR (Int_part x) + 1.
Proof.
  intros Hx Hmax. unfold c_int. cbv zeta.
  destruct (decide (0 <= x)); [| contradiction].
  destruct (base_Int_part x) as [H1 H2].
  assert (Hpos : (0 <= Int_part x)%Z).
  { destruct (Z_lt_le_dec (Int_part x) 0) as [Hneg | Hpos]; [| exact Hpos].
    exfalso. assert (Int_part x <= -1)%Z as Hle by lia.
    apply IZR_le in Hle. lra. }
  assert (Hle : (Int_part x <= INT_MAX)%Z).
  { destruct (Z_lt_le_dec INT_MAX (Int_part x)) as [Hgt | Hle];
      [| exact Hle].
    exfalso. assert (INT_MAX + 1 <= Int_part x)%Z as Hge by lia.
    apply IZR_le in Hge. rewrite plus_IZR in Hge. lra. }
  destruct (decide (INT_MIN <= Int_part x <= INT_MAX)%Z) as [_ | Hout].
  - split; [reflexivity |]. split; [exact Hpos | lra].
  - exfalso. apply Hout. unfold INT_MIN. lia.
Qed.

Lemma lnk_list_lookup (kmin kpd : R) (n i : nat) :
  (i < n)%nat ->
  ((fun i => ln kmin + INR i * ln 10 / kpd) <$> seq 0 n) !!! i
  = ln kmin + INR i * ln 10 / kpd.
Proof.
  intros Hi.
  rewrite (@list_lookup_total_fmap nat R _ _ _ (seq 0 n) i)
    by (rewrite length_seq; exact Hi).
  rewrite lookup_total_seq_lt by exact Hi. reflexivity.
Qed.

Lemma ln_10_pos : 0 < ln 10.
Proof. rewrite <- ln_1. apply ln_increasing; lra. Qed.

(** The list of [ln k] for a consistent range, when the quotient
    [q = ln(kmax/kmin)/ln 10 * k_per_decade] is computed with a relative
    error of at most [eps] and its integral part plus 2 is in the range of
    [int]. *)
Lemma lnk_list_success (fl : R -> R) (kmin kmax kpd eps : R) :
  0 < kpd -> 0 <= eps < 1 -> 0 < kmin -> kmin < kmax ->
  let q := ln (kmax / kmin) / ln 10 * kpd in
  Rabs (fl q - q) <= eps * q ->
  fl q < IZR INT_MAX - 1 ->
  exists (n : nat) (l : list R),
    primordial_get_lnk_list fl kmin kmax kpd = inr (n, l)
    /\ (2 <= n)%nat /\ Z.of_nat n = (Int_part (fl q) + 2)%Z
    /\ length l = n
    /\ (forall i, (i < n)%nat -> l !!! i = ln kmin + INR i * ln 10 / kpd)
    /\ l !!! (n - 2)%nat <= ln kmax + eps * ln (kmax / kmin)
    /\ ln kmax - eps * ln (kmax / kmin) < l !!! (n - 1)%nat.
Proof.
  intros Hkpd Heps Hmin Hmax q Hfl Hrange.
  unfold primordial_get_lnk_list.
  rewrite (bool_decide_eq_false_2 (kmin <= 0)) by lra.
  rewrite (bool_decide_eq_false_2 (kmax <= kmin)) by lra.
  cbn [orb]. fold q.
  pose proof ln_10_pos as H10.
  assert (Hratio : 0 < ln (kmax / kmin)).
  { rewrite <- ln_1. apply ln_increasing; [lra |].
    apply Rmult_lt_reg_r with kmin; [exact Hmin |].
    unfold Rdiv. rewrite Rmult_assoc, Rinv_l by lra. lra. }
  assert (Hq : 0 < q).
  { unfold q. apply Rmult_lt_0_compat; [| exact Hkpd].
    apply Rdiv_lt_0_compat; assumption. }
  assert (Hflq : (1 - eps) * q <= fl q <= (1 + eps) * q).
  { unfold Rabs in Hfl. destruct (Rcase_abs (fl q - q)); lra. }
  assert (Hfl0 : 0 <= fl q) by nra.
  destruct (c_int_floor (fl q) Hfl0 ltac:(lra)) as (-> & Hf0 & Hf1 & Hf2).
  set (f := Int_part (fl q)) in *. cbv zeta.
  destruct (decide (INT_MAX < f + 2)%Z) as [Hover | _].
  { exfalso. assert (INT_MAX - 1 <= f)%Z as Hge by lia.
    apply IZR_le in Hge. rewrite minus_IZR in Hge. lra. }
  destruct (decide (f + 2 <= 0)%Z) as [Hneg | _]; [lia |].
  set (n := Z.to_nat (f + 2)).
  assert (Hn : INR n = IZR f + 2).
  { unfold n. rewrite INR_IZR_INZ, Z2Nat.id by lia. rewrite plus_IZR. lra. }
  assert (Hn2 : (2 <= n)%nat) by (unfold n; lia).
  assert (Hstep : 0 < ln 10 / kpd) by (apply Rdiv_lt_0_compat; assumption).
  assert (Hln : ln kmax = ln kmin + ln (kmax / kmin)).
  { unfold Rdiv. rewrite ln_mult, ln_Rinv by
      (try apply Rinv_0_lt_compat; lra).
    ring. }
  assert (Hqs : q * (ln 10 / kpd) = ln (kmax / kmin))
    by (unfold q; field; lra).
  eexists n, _. split; [reflexivity |].
  split; [exact Hn2 |].
  split; [unfold n; rewrite Z2Nat.id by lia; reflexivity |].
  split; [rewrite length_fmap, length_seq; reflexivity |].
  split; [intros i Hi; apply lnk_list_lookup; exact Hi |].
  rewrite !lnk_list_lookup by lia.
  rewrite !minus_INR by lia. rewrite Hn. simpl INR.
  rewrite Hln.
  replace ((IZR f + 2 - (1 + 1)) * ln 10 / kpd)
    with (IZR f * (ln 10 / kpd)) by (unfold Rdiv; ring).
  replace ((IZR f + 2 - 1) * ln 10 / kpd)
    with ((IZR f + 1) * (ln 10 / kpd)) by (unfold Rdiv; ring).
  set (st := ln 10 / kpd) in *. set (Lr := ln (kmax / kmin)) in *.
  assert (H1 : IZR f * st <= fl q * st)
    by (apply Rmult_le_compat_r; lra).
  assert (H2 : fl q * st < (IZR f + 1) * st)
    by (apply Rmult_lt_compat_r; lra).
  assert (H3 : (1 - eps) * q * st <= fl q * st)
    by (apply Rmult_le_compat_r; lra).
  assert (H4 : fl q * st <= (1 + eps) * q * st)
    by (apply Rmult_le_compat_r; lra).
  assert (H5 : (1 - eps) * q * st = (1 - eps) * Lr)
    by (rewrite <- Hqs; ring).
  assert (H6 : (1 + eps) * q * st = (1 + eps) * Lr)
    by (rewrite <- Hqs; ring).
  split; lra.
Qed.

(** X21.  [primordial_get_lnk_list] fails when [kmin <= 0] or
    [kmax <= kmin].  Otherwise, for a positive number of values per decade,
    when the quotient [q = ln(kmax/kmin)/ln 10 * k_per_decade] is computed
    with a relative error of at most [eps < 1] and its integral part plus 2
    is in the range of [int], it returns [(int) q + 2] values of [ln k], at
    least two, starting at [ln kmin] and equally spaced by
    [ln 10 / k_per_decade].  The last one is above [ln kmax] up to the
    rounding of [q] only: it is above [ln kmax - eps ln(kmax/kmin)], and the
    one before it is at most [ln kmax + eps ln(kmax/kmin)]. *)
Theorem lnk_list_spec :
  forall (fl : R -> R) (kmin kmax k_per_decade eps : R),
    0 < k_per_decade -> 0 <= eps < 1 ->
    (kmin <= 0 \/ kmax <= kmin ->
     primordial_get_lnk_list fl kmin kmax k_per_decade
     = inl InconsistentKRange)
    /\ (0 < kmin -> kmin < kmax ->
        let q := ln (kmax / kmin) / ln 10 * k_per_decade in
        Rabs (fl q - q) <= eps * q ->
        fl q < IZR INT_MAX - 1 ->
        exists (n : nat) (l : list R),
          primordial_get_lnk_list fl kmin kmax k_per_decade = inr (n, l)
          /\ (2 <= n)%nat /\ Z.of_nat n = (Int_part (fl q) + 2)%Z
          /\ length l = n
          /\ (forall i, (i < n)%nat ->
                l !!! i = ln kmin + INR i * ln 10 / k_per_decade)
          /\ (forall i j, (i < j)%nat -> (j < n)%nat -> l !!! i < l !!! j)
          /\ l !!! (n - 2)%nat <= ln kmax + eps * ln (kmax / kmin)
          /\ ln kmax - eps * ln (kmax / kmin) < l !!! (n - 1)%nat).
Proof.
  intros fl kmin kmax kpd eps Hkpd Heps. split.
  - intros Hbad. unfold primordial_get_lnk_list.
    replace (bool_decide (kmin <= 0) || bool_decide (kmax <= kmin)) with true;
      [reflexivity |].
    symmetry. apply orb_true_iff.
    destruct Hbad; [left | right]; apply bool_decide_eq_true_2; assumption.
  - intros Hmin Hmax q Hfl Hrange.
    destruct (lnk_list_success fl kmin kmax kpd eps Hkpd Heps Hmin Hmax Hfl
                Hrange)
      as (n & l & Hrun & Hn2 & Hsize & Hlen & Hcell & Hprev & Hlast).
    exists n, l. repeat split; try assumption.
    intros i j Hij Hj. rewrite !Hcell by lia.
    pose proof ln_10_pos as H10.
    assert (Hstep : 0 < ln 10 / kpd) by (apply Rdiv_lt_0_compat; assumption).
    apply lt_INR in Hij.
    assert (INR i * (ln 10 / kpd) < INR j * (ln 10 / kpd))
      by (apply Rmult_lt_compat_r; assumption).
    unfold Rdiv in *. lra.
Qed.

Lemma two_decades_quotient : ln (100 / 1) / ln 10 * 10 = 20.
Proof.
  pose proof ln_10_pos.
  replace (100 / 1) with (10 * 10) by lra.
  rewrite ln_mult by lra. field. lra.
Qed.

Lemma tiny_pos : 0 < / 2 ^ 52 < 1.
Proof.
  assert (H : 1 < 2 ^ 52) by (apply Rlt_pow_R1; [lra | lia]).
  split; [apply Rinv_0_lt_compat; lra |].
  rewrite <- Rinv_1. apply Rinv_lt_contravar; lra.
Qed.

Lemma round_down_error (x : R) :
  0 <= x -> Rabs (round_down x - x) <= / 2 ^ 52 * x.
Proof.
  intros Hx. pose proof tiny_pos as [Ht _]. unfold round_down.
  replace (x * (1 - / 2 ^ 52) - x) with (- (/ 2 ^ 52 * x)) by ring.
  rewrite Rabs_Ropp, Rabs_pos_eq by nra. lra.
Qed.

Lemma lnk_list_spec_witness :
  let q := ln (100 / 1) / ln 10 * 10 in
  exists (n : nat) (l : list R),
    primordial_get_lnk_list round_down 1 100 10 = inr (n, l)
    /\ (2 <= n)%nat /\ Z.of_nat n = (Int_part (round_down q) + 2)%Z
    /\ length l = n
    /\ (forall i, (i < n)%nat -> l !!! i = ln 1 + INR i * ln 10 / 10)
    /\ (forall i j, (i < j)%nat -> (j < n)%nat -> l !!! i < l !!! j)
    /\ l !!! (n - 2)%nat <= ln 100 + / 2 ^ 52 * ln (100 / 1)
    /\ ln 100 - / 2 ^ 52 * ln (100 / 1) < l !!! (n - 1)%nat.
Proof.
  pose proof tiny_pos as [Ht0 Ht1].
  apply (proj2 (lnk_list_spec round_down 1 100 10 (/ 2 ^ 52)
                  ltac:(lra) ltac:(lra))); try lra.
  - apply round_down_error. rewrite two_decades_quotient. lra.
  - rewrite two_decades_quotient. unfold round_down, INT_MAX. nra.
Defined.

(** With the rounding [round_down] the quotient of two decades at 10
    values per decade, whose exact value is 20, is truncated to 19: the
    list has 21 values and the last one is [ln kmax] itself. *)
Lemma lnk_list_rounded_down :
  exists l : list R,
    primordial_get_lnk_list round_down 1 100 10 = inr (21%nat, l)
    /\ l !!! 20%nat = ln 100.
Proof.
  pose proof tiny_pos as [Ht0 Ht1]. pose proof ln_10_pos as H10.
  unfold primordial_get_lnk_list.
  rewrite (bool_decide_eq_false_2 (1 <= 0)) by lra.
  rewrite (bool_decide_eq_false_2 (100 <= 1)) by lra.
  cbn [orb]. rewrite two_decades_quotient.
  assert (Hr : 19 < round_down 20 < 20) by (unfold round_down; nra).
  assert (Hi : Int_part (round_down 20) = 19%Z).
  { symmetry. apply Int_part_spec. lra. }
  destruct (c_int_floor (round_down 20) ltac:(lra)
              ltac:(unfold INT_MAX; lra)) as (-> & _).
  rewrite Hi. cbv zeta.
  destruct (decide (INT_MAX < 19 + 2)%Z) as [Hbad | _];
    [unfold INT_MAX in Hbad; lia |].
  destruct (decide (19 + 2 <= 0)%Z) as [Hbad | _]; [lia |].
  change (Z.to_nat (19 + 2)) with 21%nat.
  eexists. split; [reflexivity |].
  rewrite lnk_list_lookup by lia.
  replace 100 with (10 * 10) by lra. rewrite ln_mult, ln_1 by lra.
  change (INR 20) with (IZR (Z.of_nat 20)) || rewrite INR_IZR_INZ.
  simpl. field.
Qed.




(** A query of the table that succeeds returns what the interpolation
    wrote. *)
Lemma query_lnpk_bind {A : Type} spline ppm index_md x v (k : R -> result A)
    (y : R) :
  query_lnpk spline ppm index_md x v = Ok y ->
  (z ← query_lnpk spline ppm index_md x v; k z) = k y.
Proof. intros ->. reflexivity. Qed.

(** X23.  For a computed spectrum with scalars and no tensors, when the
    five queries that the end of [primordial_init] makes, at
    [ln k_pivot + t dlnk] for [t = 0, 1, -1, 2, -2] and
    [dlnk = ln 10 / k_per_decade], return the values at [L = t dlnk] of a
    cubic [c0 + c1 L + c2/2 L^2 + c3/6 L^3], it stores [A_s = exp c0],
    [n_s = 1 + c1 + c3 dlnk^2 / 6], [alpha_s = c2] and [beta_s = 2 c3], and
    leaves the tensor parameters as they are. *)
Theorem spectral_parameters_of_cubic :
  forall spline (kpd : R) (ppt : perturbs) (ppm : primordial)
         (beta_s0 u1 u2 u3 u4 u5 c0 c1 c2 c3 : R),
    primordial_spec_type ppm <> analytic_Pk ->
    has_scalars ppt = true -> has_tensors ppt = false ->
    0 < kpd ->
    (forall t v : R,
        t = 0 \/ t = 1 \/ t = -1 \/ t = 2 \/ t = -2 ->
        query_lnpk spline ppm (index_md_scalars ppt)
          (ln (k_pivot ppm) + t * (ln 10 / kpd)) v
        = Ok (c0 + c1 * (t * (ln 10 / kpd))
              + c2 / 2 * (t * (ln 10 / kpd)) ^ 2
              + c3 / 6 * (t * (ln 10 / kpd)) ^ 3)) ->
    primordial_init_spectral_parameters spline kpd ppt ppm
      beta_s0 u1 u2 u3 u4 u5
    = Ok {| sp_A_s := exp c0;
            sp_n_s := 1 + c1 + c3 * (ln 10 / kpd) ^ 2 / 6;
            sp_alpha_s := c2;
            sp_beta_s := 2 * c3;
            sp_r := r ppm; sp_n_t := n_t ppm; sp_alpha_t := alpha_t ppm |}.
Proof.
  intros spline kpd ppt ppm beta_s0 u1 u2 u3 u4 u5 c0 c1 c2 c3
         Htype Hsc Hten Hkpd Hq.
  pose proof ln_10_pos as H10.
  assert (Hd : 0 < ln 10 / kpd) by (apply Rdiv_lt_0_compat; assumption).
  set (d := ln 10 / kpd) in *.
  unfold primordial_init_spectral_parameters.
  destruct (decide (primordial_spec_type ppm <> analytic_Pk));
    [| contradiction].
  rewrite Hsc, Hten. cbv zeta. fold d.
  pose proof (Hq 0 u1 ltac:(tauto)) as H0.
  pose proof (Hq 1 u2 ltac:(tauto)) as H1.
  pose proof (Hq (-1) u3 ltac:(tauto)) as H2.
  pose proof (Hq 2 u4 ltac:(tauto)) as H3.
  pose proof (Hq (-2) u5 ltac:(tauto)) as H4.
  replace (ln (k_pivot ppm) + 0 * d) with (ln (k_pivot ppm)) in H0 by ring.
  replace (ln (k_pivot ppm) + 1 * d) with (ln (k_pivot ppm) + d) in H1
    by ring.
  replace (ln (k_pivot ppm) + -1 * d) with (ln (k_pivot ppm) - d) in H2
    by ring.
  replace (ln (k_pivot ppm) + -2 * d) with (ln (k_pivot ppm) - 2 * d) in H4
    by ring.
  rewrite (query_lnpk_bind _ _ _ _ _ _ _ H0).
  rewrite (query_lnpk_bind _ _ _ _ _ _ _ H1).
  rewrite (query_lnpk_bind _ _ _ _ _ _ _ H2).
  rewrite (query_lnpk_bind _ _ _ _ _ _ _ H3).
  rewrite (query_lnpk_bind _ _ _ _ _ _ _ H4).
  cbn. f_equal. f_equal.
  - f_equal. ring.
  - field. lra.
  - field. lra.
  - field. lra.
Qed.

Lemma ln_10_lt_50 : ln 10 < 50.
Proof.
  rewrite <- (ln_exp 50). apply ln_increasing; [lra |].
  pose proof (exp_ineq1 50 ltac:(lra)). lra.
Qed.

Lemma spectral_parameters_of_cubic_witness :
  primordial_init_spectral_parameters cubic_interpolation 1 ppt_ad_cdi
    ppm_flat_table 0 0 0 0 0 0
  = Ok {| sp_A_s := exp 2;
          sp_n_s := 1 + 1 + 6 * (ln 10 / 1) ^ 2 / 6;
          sp_alpha_s := 1;
          sp_beta_s := 2 * 6;
          sp_r := r ppm_flat_table; sp_n_t := n_t ppm_flat_table;
          sp_alpha_t := alpha_t ppm_flat_table |}.
Proof.
  apply (spectral_parameters_of_cubic cubic_interpolation 1 ppt_ad_cdi
           ppm_flat_table 0 0 0 0 0 0 2 1 1 6);
    [discriminate | reflexivity | reflexivity | lra |].
  intros t v Ht. pose proof ln_10_lt_50 as H50. pose proof ln_10_pos as H10.
  change (k_pivot ppm_flat_table) with 1. rewrite ln_1.
  set (x := 0 + t * (ln 10 / 1)).
  assert (Hx : -100 < x < 100).
  { unfold x. destruct Ht as [-> | [-> | [-> | [-> | ->]]]]; lra. }
  unfold query_lnpk, primordial_spectrum_at_k, spectrum_at_lnk.
  change (lnk ppm_flat_table !!! (lnk_size ppm_flat_table - 1)%nat)
    with 100.
  change (lnk ppm_flat_table !!! 0%nat) with (-100).
  rewrite (bool_decide_eq_false_2 (x > 100)) by lra.
  rewrite (bool_decide_eq_false_2 (x < -100)) by lra.
  unfold interpolation, cubic_interpolation.
  destruct (decide (logarithmic = linear)) as [Hmode | _];
    [discriminate Hmode |].
  cbn [orb].
  change (Ok (([2 + x + x ^ 2 / 2 + x ^ 3] : list R) !!! 0%nat))
    with (Ok (2 + x + x ^ 2 / 2 + x ^ 3) : result R).
  f_equal. unfold x. field.
Defined.

(** X24.  For a computed spectrum with a scalar mode, the end of
    [primordial_init] fails when the table of [ln k] does not reach two
    steps [ln 10 / k_per_decade] below and above the pivot scale. *)
Theorem spectral_parameters_need_range :
  forall spline (kpd : R) (ppt : perturbs) (ppm : primordial)
         (beta_s0 u1 u2 u3 u4 u5 : R),
    primordial_spec_type ppm <> analytic_Pk ->
    has_scalars ppt = true ->
    ln (k_pivot ppm) - 2 * (ln 10 / kpd) < lnk ppm !!! 0%nat
    \/ lnk ppm !!! (lnk_size ppm - 1)%nat
       < ln (k_pivot ppm) + 2 * (ln 10 / kpd) ->
    ~ exists sp,
        primordial_init_spectral_parameters spline kpd ppt ppm
          beta_s0 u1 u2 u3 u4 u5 = Ok sp.
Proof.
  intros spline kpd ppt ppm beta_s0 u1 u2 u3 u4 u5 Htype Hsc Hrange [sp Hrun].
  revert Hrun.
  unfold primordial_init_spectral_parameters.
  destruct (decide (primordial_spec_type ppm <> analytic_Pk));
    [| contradiction].
  rewrite Hsc. cbv zeta.
  assert (Hout : forall x v,
            x < lnk ppm !!! 0%nat \/ lnk ppm !!! (lnk_size ppm - 1)%nat < x ->
            query_lnpk spline ppm (index_md_scalars ppt) x v
            = Err OutOfRange).
  { intros x v Hx.
    unfold query_lnpk, primordial_spectrum_at_k, spectrum_at_lnk.
    replace (bool_decide (x > lnk ppm !!! (lnk_size ppm - 1)%nat)
             || bool_decide (x < lnk ppm !!! 0%nat)) with true.
    - destruct (decide (primordial_spec_type ppm <> analytic_Pk));
        [reflexivity | contradiction].
    - symmetry. apply orb_true_iff.
      destruct Hx; [right | left]; apply bool_decide_eq_true_2; lra. }
  destruct (query_lnpk spline ppm (index_md_scalars ppt)
              (ln (k_pivot ppm)) u1) as [y1 | e |]; try discriminate.
  cbn [mbind result_bind].
  destruct (query_lnpk spline ppm (index_md_scalars ppt)
              (ln (k_pivot ppm) + ln 10 / kpd) u2) as [y2 | e |];
    try discriminate.
  cbn [mbind result_bind].
  destruct (query_lnpk spline ppm (index_md_scalars ppt)
              (ln (k_pivot ppm) - ln 10 / kpd) u3) as [y3 | e |];
    try discriminate.
  cbn [mbind result_bind].
  destruct Hrange as [Hlow | Hhigh].
  - destruct (query_lnpk spline ppm (index_md_scalars ppt)
                (ln (k_pivot ppm) + 2 * (ln 10 / kpd)) u4) as [y4 | e |];
      try discriminate.
    cbn [mbind result_bind].
    rewrite (Hout (ln (k_pivot ppm) - 2 * (ln 10 / kpd)) u5)
      by (left; exact Hlow).
    discriminate.
  - rewrite (Hout (ln (k_pivot ppm) + 2 * (ln 10 / kpd)) u4)
      by (right; exact Hhigh).
    discriminate.
Qed.

Lemma spectral_parameters_need_range_witness :
  ~ exists sp,
      primordial_init_spectral_parameters first_line_interpolation 1
        ppt_ad_cdi ppm_inflation_V 0 0 0 0 0 0 = Ok sp.
Proof.
  apply (spectral_parameters_need_range first_line_interpolation 1 ppt_ad_cdi
           ppm_inflation_V 0 0 0 0 0 0);
    [discriminate | reflexivity |].
  left. change (k_pivot ppm_inflation_V) with 1.
  change (lnk ppm_inflation_V !!! 0%nat) with 1.
  rewrite ln_1. pose proof ln_10_pos. lra.
Defined.

(** * Properties of the search of the end of inflation *)

Section FindPhiStopFacts.

Variable ppm : primordial.
Variable pe : end_parameters.

Hypothesis dphi_positive : 0 < primordial_inflation_end_dphi pe.
Hypothesis logstep_above_one : 1 < primordial_inflation_end_logstep pe.

(** The first loop stops at the first distance of the geometric sequence
    where [epsilon <= 1]; the distance before it is the initial one or has
    [epsilon > 1]. *)
Lemma bracket_loop_spec (fuel : nat) :
  forall d d' : R,
    0 < d ->
    bracket_loop ppm pe fuel d = Ok d' ->
    exists dprev : R,
      d' = dprev * primordial_inflation_end_logstep pe /\ d <= dprev
      /\ (dprev = d
          \/ exists e, primordial_inflation_get_epsilon ppm
                         (phi_end pe - dprev) = Ok e /\ e > 1)
      /\ exists e', primordial_inflation_get_epsilon ppm (phi_end pe - d')
                    = Ok e' /\ e' <= 1.
Proof.
  induction fuel as [| fuel IH]; intros d d' Hd Hrun; [discriminate Hrun |].
  cbn [bracket_loop] in Hrun.
  destruct (primordial_inflation_get_epsilon ppm
              (phi_end pe - d * primordial_inflation_end_logstep pe))
    as [e | err |] eqn:He; try discriminate Hrun.
  cbn [mbind result_bind] in Hrun.
  destruct (decide (e > 1)) as [Hgt | Hle].
  - assert (Hd1 : 0 < d * primordial_inflation_end_logstep pe) by nra.
    destruct (IH _ _ Hd1 Hrun) as (dprev & Hd' & Hge & Hprev & Hlast).
    exists dprev. split; [exact Hd' |]. split; [nra |].
    split; [| exact Hlast].
    right. destruct Hprev as [-> | Hprev]; [| exact Hprev].
    exists e. split; assumption.
  - injection Hrun as <-. exists d.
    split; [reflexivity |]. split; [lra |]. split; [left; reflexivity |].
    exists e. split; [exact He | lra].
Qed.

(** The bisection keeps a bracket: [epsilon <= 1] on its left end and
    [epsilon >= 1] on its right end. *)
Lemma bisection_loop_spec (fuel : nat) :
  forall l r mid : R,
    l < r ->
    (exists el, primordial_inflation_get_epsilon ppm l = Ok el /\ el <= 1) ->
    (exists er, primordial_inflation_get_epsilon ppm r = Ok er /\ 1 <= er) ->
    bisection_loop ppm pe fuel l r = Ok mid ->
    exists l' r' el er : R,
      l <= l' /\ l' < r' /\ r' <= r
      /\ primordial_inflation_get_epsilon ppm l' = Ok el /\ el <= 1
      /\ primordial_inflation_get_epsilon ppm r' = Ok er /\ 1 <= er
      /\ (mid = l' \/ mid = r')
      /\ Rabs ((r' - l') / mid)
         <= primordial_inflation_end_phi_stop_precision pe.
Proof.
  induction fuel as [| fuel IH]; intros l r mid Hlr Hl Hr Hrun;
    [discriminate Hrun |].
  cbn [bisection_loop] in Hrun. cbv zeta in Hrun.
  destruct (primordial_inflation_get_epsilon ppm (0.5 * (l + r)))
    as [e | err |] eqn:He; try discriminate Hrun.
  cbn [mbind result_bind] in Hrun.
  destruct (decide (e < 1)) as [Hlt | Hge].
  - destruct (decide (Rabs ((r - 0.5 * (l + r)) / (0.5 * (l + r)))
                      > primordial_inflation_end_phi_stop_precision pe))
      as [Hmore | Hdone].
    + assert (Hlr' : 0.5 * (l + r) < r) by lra.
      assert (He1 : e <= 1) by lra.
      destruct (IH _ _ _ Hlr' (ex_intro _ e (conj He He1)) Hr Hrun)
        as (l' & r' & el & er & H1 & H2 & H3 & H4).
      exists l', r', el, er. split; [lra |]. split; [exact H2 |].
      split; [lra | exact H4].
    + injection Hrun as <-. destruct Hr as (er & Her & Her1).
      exists (0.5 * (l + r)), r, e, er.
      repeat split; try assumption; try lra.
  - destruct (decide (Rabs ((0.5 * (l + r) - l) / (0.5 * (l + r)))
                      > primordial_inflation_end_phi_stop_precision pe))
      as [Hmore | Hdone].
    + assert (Hlr' : l < 0.5 * (l + r)) by lra.
      assert (He1 : 1 <= e) by lra.
      destruct (IH _ _ _ Hlr' Hl (ex_intro _ e (conj He He1)) Hrun)
        as (l' & r' & el & er & H1 & H2 & H3 & H4).
      exists l', r', el, er. split; [lra |]. split; [exact H2 |].
      split; [lra | exact H4].
    + injection Hrun as <-. destruct Hl as (el & Hel & Hel1).
      exists l, (0.5 * (l + r)), el, e.
      repeat split; try assumption; try lra.
Qed.

(** X25.  With a positive first distance and a step factor above 1, a
    value [phi_stop] returned by [primordial_find_phi_stop] is either
    [phi_end - dphi], where [epsilon < 1], or an end of a bracket
    [[l, r]] below [phi_end - dphi] with [epsilon(l) <= 1 <= epsilon(r)]
    whose width relative to [phi_stop] is within the requested precision. *)
Theorem find_phi_stop_brackets :
  forall (fuel : nat) (phi_stop : R),
    primordial_find_phi_stop ppm pe fuel = Ok phi_stop ->
    (phi_stop = phi_end pe - primordial_inflation_end_dphi pe
     /\ exists e, primordial_inflation_get_epsilon ppm phi_stop = Ok e
                  /\ e < 1)
    \/ exists l r el er : R,
         l < r /\ r <= phi_end pe - primordial_inflation_end_dphi pe
         /\ primordial_inflation_get_epsilon ppm l = Ok el /\ el <= 1
         /\ primordial_inflation_get_epsilon ppm r = Ok er /\ 1 <= er
         /\ (phi_stop = l \/ phi_stop = r)
         /\ Rabs ((r - l) / phi_stop)
            <= primordial_inflation_end_phi_stop_precision pe.
Proof.
  intros fuel phi_stop Hrun. unfold primordial_find_phi_stop in Hrun.
  cbv zeta in Hrun.
  destruct (primordial_inflation_get_epsilon ppm
              (phi_end pe - primordial_inflation_end_dphi pe))
    as [e0 | err |] eqn:He0; try discriminate Hrun.
  cbn [mbind result_bind] in Hrun.
  destruct (decide (e0 < 1)) as [Hlt | Hge].
  { injection Hrun as <-. left. split; [reflexivity |].
    exists e0. split; assumption. }
  right.
  destruct (bracket_loop ppm pe fuel (primordial_inflation_end_dphi pe))
    as [d' | err |] eqn:Hbr; try discriminate Hrun.
  cbn [mbind result_bind] in Hrun.
  destruct (bracket_loop_spec fuel _ _ dphi_positive Hbr)
    as (dprev & Hd' & Hprev_ge & Hprev & Hlast).
  assert (Hdiv : d' / primordial_inflation_end_logstep pe = dprev)
    by (rewrite Hd'; field; lra).
  rewrite Hdiv in Hrun.
  assert (Hright : exists er,
            primordial_inflation_get_epsilon ppm (phi_end pe - dprev) = Ok er
            /\ 1 <= er).
  { destruct Hprev as [-> | (e & He & Hgt)].
    - exists e0. split; [exact He0 | lra].
    - exists e. split; [exact He | lra]. }
  assert (Hlr : phi_end pe - d' < phi_end pe - dprev) by nra.
  destruct (bisection_loop_spec fuel _ _ _ Hlr Hlast Hright Hrun)
    as (l' & r' & el & er & H1 & H2 & H3 & H4).
  exists l', r', el, er. split; [exact H2 |]. split; [lra | exact H4].
Qed.

End FindPhiStopFacts.

Lemma epsilon_linear (phi : R) :
  primordial_inflation_get_epsilon ppm_inflation_V phi
  = Ok (1 / 16 / PI * (-1 / (1 - phi)) ^ 2).
Proof.
  unfold primordial_inflation_get_epsilon.
  change (primordial_spec_type ppm_inflation_V) with inflation_V.
  rewrite potential_linear. reflexivity.
Qed.

Lemma PI_bounds : 3 < PI <= 4.
Proof.
  split; [pose proof PI2_3_2; lra | exact PI_4].
Qed.

Lemma find_phi_stop_example :
  primordial_find_phi_stop ppm_inflation_V pe_example 1 = Ok (9 / 20).
Proof.
  pose proof PI_bounds as [Hpi3 Hpi4].
  assert (Hinv : / 4 <= / PI < / 3).
  { split; [apply Rinv_le_contravar; lra | apply Rinv_lt_contravar; nra]. }
  unfold primordial_find_phi_stop. cbv zeta.
  cbn [phi_end primordial_inflation_end_dphi primordial_inflation_end_logstep
       primordial_inflation_end_phi_stop_precision pe_example].
  rewrite epsilon_linear. cbn [mbind result_bind].
  replace (1 / 16 / PI * (-1 / (1 - (1 - 1 / 10))) ^ 2)
    with (25 / 4 * / PI) by (field; lra).
  destruct (decide (25 / 4 * / PI < 1)) as [Hbad | _]; [lra |].
  cbn [bracket_loop bisection_loop].
  cbn [phi_end primordial_inflation_end_dphi primordial_inflation_end_logstep
       primordial_inflation_end_phi_stop_precision pe_example].
  rewrite epsilon_linear. cbn [mbind result_bind].
  replace (1 / 16 / PI * (-1 / (1 - (1 - 1 / 10 * 10))) ^ 2)
    with (1 / 16 * / PI) by (field; lra).
  destruct (decide (1 / 16 * / PI > 1)) as [Hbad | _]; [lra |].
  cbn [mbind result_bind]. cbv zeta.
  rewrite epsilon_linear. cbn [mbind result_bind].
  replace (0.5 * (1 - 1 / 10 * 10 + (1 - 1 / 10 * 10 / 10))) with (9 / 20)
    by lra.
  replace (1 / 16 / PI * (-1 / (1 - 9 / 20)) ^ 2)
    with (25 / 121 * / PI) by (field; lra).
  destruct (decide (25 / 121 * / PI < 1)) as [_ | Hbad]; [| lra].
  replace ((1 - 1 / 10 * 10 / 10 - 9 / 20) / (9 / 20)) with 1 by lra.
  rewrite Rabs_R1.
  destruct (decide (1 > 1)) as [Hbad | _]; [lra | reflexivity].
Qed.

Lemma find_phi_stop_brackets_witness :
  (9 / 20 = phi_end pe_example - primordial_inflation_end_dphi pe_example
   /\ exists e, primordial_inflation_get_epsilon ppm_inflation_V (9 / 20)
                = Ok e /\ e < 1)
  \/ exists l r el er : R,
       l < r
       /\ r <= phi_end pe_example - primordial_inflation_end_dphi pe_example
       /\ primordial_inflation_get_epsilon ppm_inflation_V l = Ok el
       /\ el <= 1
       /\ primordial_inflation_get_epsilon ppm_inflation_V r = Ok er
       /\ 1 <= er
       /\ (9 / 20 = l \/ 9 / 20 = r)
       /\ Rabs ((r - l) / (9 / 20))
          <= primordial_inflation_end_phi_stop_precision pe_example.
Proof.
  apply (find_phi_stop_brackets ppm_inflation_V pe_example
           ltac:(simpl; lra) ltac:(simpl; lra) 1 (9 / 20)).
  exact find_phi_stop_example.
Defined.
